(** * GenericElementFilter: a shallow embedding of [src/genericelementfilter.js]

    The development follows the source file top to bottom:
    - [JsString]: the string primitives the filter relies on
      ([trim], [indexOf], [split], template literals with a number);
    - outcomes, and plain objects as ordered lists of own properties;
    - the matching predicate of [filterElements];
    - an object store with the exception/state monad the methods run in;
    - the methods [filterElements], [updateFilter], [refreshElements],
      [reset] and the constructor;
    - the properties of the filtering engine. *)

From Stdlib Require Import NArith List Bool Ascii String Lia.
From stdpp Require Import base option list gmap.

Set Default Proof Using "Type".

(** ** JavaScript strings *)

(** A JavaScript string is a sequence of UTF-16 code units. *)
Abbreviation jsstring := (list N).

Module JsString.

(** Embedding of ASCII literals, one code unit per character. *)
Definition js (s : string) : jsstring :=
  map N_of_ascii (list_ascii_of_string s).

(** Code units matched by [\s] and stripped by [String.prototype.trim]:
    WhiteSpace and LineTerminator of ECMA-262. *)
Definition white_space : list N :=
  [9; 10; 11; 12; 13; 32; 160; 5760;
   8192; 8193; 8194; 8195; 8196; 8197; 8198; 8199; 8200; 8201; 8202;
   8232; 8233; 8239; 8287; 12288; 65279]%N.

Definition is_ws (c : N) : bool := existsb (N.eqb c) white_space.

Definition comma : N := 44%N.

(** [!s] for a string: only the empty string is falsy. *)
Definition falsy (s : jsstring) : bool :=
  match s with [] => true | _ :: _ => false end.

(** [Boolean(s)], as used by [.filter(Boolean)]. *)
Definition truthy (s : jsstring) : bool := negb (falsy s).

Fixpoint trimStart (s : jsstring) : jsstring :=
  match s with
  | [] => []
  | c :: s' => if is_ws c then trimStart s' else s
  end.

Fixpoint trimEnd (s : jsstring) : jsstring :=
  match s with
  | [] => []
  | c :: s' =>
      match trimEnd s' with
      | [] => if is_ws c then [] else [c]
      | t => c :: t
      end
  end.

(** [s.trim()] *)
Definition trim (s : jsstring) : jsstring := trimEnd (trimStart s).

(** [s.indexOf(",") !== -1] *)
Definition has_comma (s : jsstring) : bool := existsb (N.eqb comma) s.

(** Prepend a code unit to the first piece of a split. *)
Definition cons_head (c : N) (ps : list jsstring) : list jsstring :=
  match ps with
  | [] => [[c]]
  | p :: ps' => (c :: p) :: ps'
  end.

(** [s.split(",")]: every comma ends a piece; the empty string yields
    one empty piece. *)
Fixpoint split_comma (s : jsstring) : list jsstring :=
  match s with
  | [] => [[]]
  | c :: s' =>
      if N.eqb c comma then [] :: split_comma s'
      else cons_head c (split_comma s')
  end.

(** [s.split(/\s+/)]: every maximal run of white space ends a piece.
    [in_run] records that the previous code unit was white space, so
    that a run separates only once. *)
Fixpoint split_ws_from (in_run : bool) (s : jsstring) : list jsstring :=
  match s with
  | [] => [[]]
  | c :: s' =>
      if is_ws c then
        if in_run then split_ws_from true s'
        else [] :: split_ws_from true s'
      else cons_head c (split_ws_from false s')
  end.

Definition split_ws (s : jsstring) : list jsstring := split_ws_from false s.

(** Decimal digits of a count, as produced by a template literal. *)
Definition digit (d : nat) : N := (48 + N.of_nat d)%N.

Fixpoint decimal_fuel (fuel n : nat) (acc : jsstring) : jsstring :=
  match fuel with
  | O => acc
  | S fuel' =>
      let acc' := digit (n mod 10) :: acc in
      if Nat.ltb n 10 then acc' else decimal_fuel fuel' (n / 10) acc'
  end.

Definition number_to_string (n : nat) : jsstring := decimal_fuel (S n) n [].

End JsString.

Import JsString.

(** ** Outcomes *)

(** A JavaScript expression yields a value or throws. *)
Inductive outcome (A : Type) :=
| Normal (a : A)
| Thrown (error : jsstring).
Arguments Normal {A} a.
Arguments Thrown {A} error.

Definition typeError : jsstring := js "TypeError".

(** ** Plain objects used as string maps *)

Module JsObject.

(** The own properties of a plain object whose values are strings, in
    the order [Object.entries] and the spread syntax list them: the
    keys that are array indices in ascending order, then the other keys
    in the order they were created. *)
Abbreviation properties := (list (jsstring * jsstring)).

(** [obj[key]] for an own property. *)
Definition get (key : jsstring) (props : properties) : option jsstring :=
  snd <$> List.find (fun kv => bool_decide (kv.1 = key)) props.

Definition is_digit (c : N) : bool := N.leb 48 c && N.leb c 57.

(** An array index is the canonical decimal form of an integer below
    2^32 - 1. *)
Definition array_index (key : jsstring) : option N :=
  match key with
  | [] => None
  | c :: rest =>
      if forallb is_digit key && (negb (N.eqb c 48) || falsy rest) then
        let n := fold_left (fun acc d => (10 * acc + (d - 48))%N) key 0%N in
        if N.ltb n 4294967295 then Some n else None
      else None
  end.

(** Whether a new key [a] is listed before the existing key [b]. *)
Definition listed_before (a b : jsstring) : bool :=
  match array_index a, array_index b with
  | Some m, Some n => N.ltb m n
  | Some _, None => true
  | None, _ => false
  end.

(** A property that did not exist is created at its place in the
    order. *)
Fixpoint create (key value : jsstring) (props : properties) : properties :=
  match props with
  | [] => [(key, value)]
  | (k, v) :: rest =>
      if listed_before key k then (key, value) :: props
      else (k, v) :: create key value rest
  end.

(** A property that exists keeps its place. *)
Fixpoint overwrite (key value : jsstring) (props : properties) : properties :=
  match props with
  | [] => []
  | (k, v) :: rest =>
      if bool_decide (k = key) then (k, value) :: rest
      else (k, v) :: overwrite key value rest
  end.

Definition proto : jsstring := js "__proto__".

(** [obj[key] = value] for a string [value], on an object whose
    prototype is [Object.prototype]. The key [__proto__] is the
    accessor inherited from the prototype: its setter ignores a value
    that is not an object, so nothing is stored. Every other key
    becomes or stays an own property. *)
Definition set (key value : jsstring) (props : properties) : properties :=
  if bool_decide (key = proto) then props
  else
    match get key props with
    | Some _ => overwrite key value props
    | None => create key value props
    end.

(** The string-keyed properties of [Object.prototype] (ECMA-262 with
    its annex B): every object that has it on its prototype chain
    answers a read of one of these names with a function or an
    object, unless it has an own property of that name. *)
Definition inherited : list jsstring :=
  map js ["constructor"; "__defineGetter__"; "__defineSetter__";
          "hasOwnProperty"; "__lookupGetter__"; "__lookupSetter__";
          "isPrototypeOf"; "propertyIsEnumerable"; "toString"; "valueOf";
          "__proto__"; "toLocaleString"]%string.

Definition is_inherited (key : jsstring) : bool :=
  existsb (fun n => bool_decide (n = key)) inherited.

End JsObject.

Import JsObject.

(** ** The matching predicate of [filterElements] *)

Inductive match_mode := Equals | Contains.

(** What [element.dataset[filterName]] gives: the value of the
    [data-] attribute when the element has it; otherwise what the
    prototype chain has under that name, which is never a string; and
    [undefined] when there is nothing. *)
Inductive dataset_value :=
| IsUndefined
| IsString (value : jsstring)
| IsInherited.

Definition dataset_read (dataset : gmap jsstring jsstring)
    (filterName : jsstring) : dataset_value :=
  match dataset !! filterName with
  | Some value => IsString value
  | None => if is_inherited filterName then IsInherited else IsUndefined
  end.

(** The [matchMode === "contains"] branch: trim, give up on an empty
    value, split on commas when there is one and on white space
    otherwise, then trim the parts, drop the empty ones and look for the
    filter value among them. *)
Definition containsToken (elementValue filterValue : jsstring) : bool :=
  let hayRaw := trim elementValue in
  if falsy hayRaw then false
  else
    let parts :=
      if has_comma hayRaw then split_comma hayRaw else split_ws hayRaw in
    existsb (fun p => bool_decide (p = filterValue))
            (List.filter truthy (map trim parts)).

(** The callback handed to [every]: one entry of [currentFilters] checked
    against one element's [dataset]. A value that is not a string has
    no [trim] method, so the contains branch throws on it; strict
    equality with the filter value is false for it. *)
Definition filterContributes (allValue : jsstring) (mode : match_mode)
    (dataset : gmap jsstring jsstring)
    (filterName filterValue : jsstring) : outcome bool :=
  if bool_decide (filterValue = allValue) then Normal true
  else
    match dataset_read dataset filterName with
    | IsUndefined => Normal true
    | IsString elementValue =>
        match mode with
        | Contains => Normal (containsToken elementValue filterValue)
        | Equals => Normal (bool_decide (elementValue = filterValue))
        end
    | IsInherited =>
        match mode with
        | Contains => Thrown typeError
        | Equals => Normal false
        end
    end.

(** [array.every(callback)]: the items are visited in order up to the
    first one for which the callback returns false or throws. *)
Fixpoint every {A} (callback : A -> outcome bool) (items : list A)
    : outcome bool :=
  match items with
  | [] => Normal true
  | item :: rest =>
      match callback item with
      | Normal true => every callback rest
      | Normal false => Normal false
      | Thrown e => Thrown e
      end
  end.

(** [Object.entries(currentFilters).every(...)] *)
Definition matchesAllFilters (allValue : jsstring) (mode : match_mode)
    (currentFilters : properties) (dataset : gmap jsstring jsstring)
    : outcome bool :=
  every (fun kv => filterContributes allValue mode dataset kv.1 kv.2)
        currentFilters.

(** ** The object store *)

Abbreviation loc := positive.

(** The part of a DOM element the filter reads and writes. *)
Record node := {
  dataset : gmap jsstring jsstring;
  hidden : bool;
  textContent : jsstring
}.

(** Objects with identity: plain objects used as string maps, arrays
    of element references, and DOM elements. The filter's state
    object, its element array and the copies handed to the hooks all
    live in one store, so that sharing between them can be stated. *)
Inductive object :=
| PlainObject (props : properties)
| Array (items : list loc)
| Element (n : node).

(** A log of the steps of a pass, in the order they happen. The code
    keeps no such log; it is recorded here so that the order of the
    steps and the number of passes can be stated. *)
Inductive event :=
| PassStarted
| BeforeHookCalled (currentFilters elements : loc)
| HiddenSet (element : loc) (value : bool)
| NoResultsHiddenSet (target : loc) (value : bool)
| StatusTextSet (target : loc) (text : jsstring)
| AfterHookCalled (currentFilters : loc) (visibleCount totalCount : nat)
                  (elements : loc).

Record world := {
  heap : gmap loc object;
  trace : list event
}.

(** Computations that read and write the store and may throw. A thrown
    error keeps the store as it was when the error was raised. The
    [typeError] results of the store reads below stand for references
    that do not point at an object of the expected kind; they cannot
    occur in a store built by the constructor ([well_formed] below). *)
Definition M (A : Type) : Type := world -> outcome A * world.

Definition ret {A} (a : A) : M A := fun w => (Normal a, w).

Definition bind {A B} (m : M A) (k : A -> M B) : M B :=
  fun w =>
    match m w with
    | (Normal a, w') => k a w'
    | (Thrown e, w') => (Thrown e, w')
    end.

Definition throw {A} (e : jsstring) : M A := fun w => (Thrown e, w).

Declare Scope js_scope.
Delimit Scope js_scope with js.
Notation "x <- m ;; k" := (bind m (fun x => k))
  (at level 100, m at next level, right associativity) : js_scope.
Notation "m ;;; k" := (bind m (fun _ => k))
  (at level 100, right associativity) : js_scope.
Local Open Scope js_scope.

Definition emit (ev : event) : M unit :=
  fun w => (Normal tt, {| heap := heap w; trace := trace w ++ [ev] |}).

(** A new object is placed at a location not in use. *)
Definition alloc (o : object) : M loc :=
  fun w =>
    let l := fresh (dom (heap w)) in
    (Normal l, {| heap := <[l := o]> (heap w); trace := trace w |}).

Definition readObject (l : loc) : M properties :=
  fun w =>
    match heap w !! l with
    | Some (PlainObject props) => (Normal props, w)
    | _ => (Thrown typeError, w)
    end.

Definition readArray (l : loc) : M (list loc) :=
  fun w =>
    match heap w !! l with
    | Some (Array items) => (Normal items, w)
    | _ => (Thrown typeError, w)
    end.

Definition readElement (l : loc) : M node :=
  fun w =>
    match heap w !! l with
    | Some (Element n) => (Normal n, w)
    | _ => (Thrown typeError, w)
    end.

Definition writeElement (l : loc) (n : node) : M unit :=
  fun w =>
    (Normal tt, {| heap := <[l := Element n]> (heap w); trace := trace w |}).

(** [obj[key] = value] on a plain object. *)
Definition setProperty (l : loc) (key value : jsstring) : M unit :=
  props <- readObject l ;;
  fun w =>
    (Normal tt,
     {| heap := <[l := PlainObject (set key value props)]> (heap w);
        trace := trace w |}).

(** [element.hidden = value] *)
Definition setHidden (l : loc) (value : bool) : M unit :=
  n <- readElement l ;;
  writeElement l {| dataset := dataset n; hidden := value;
                    textContent := textContent n |}.

(** [element.textContent = text] *)
Definition setTextContent (l : loc) (text : jsstring) : M unit :=
  n <- readElement l ;;
  writeElement l {| dataset := dataset n; hidden := hidden n;
                    textContent := text |}.

(** ** Hooks *)

(** The argument objects of the two hooks. The state copy and the array
    copy are objects of their own in the store. *)
Record beforeArgs := {
  before_currentFilters : loc;
  before_elements : loc
}.

Record afterArgs := {
  after_currentFilters : loc;
  after_visibleCount : nat;
  after_totalCount : nat;
  after_elements : loc
}.

(** A hook is consumer code: it may rewrite the store and may throw. *)
Definition hook (Args : Type) : Type :=
  Args -> gmap loc object -> outcome unit * gmap loc object.

Definition call {Args} (h : hook Args) (args : Args) : M unit :=
  fun w =>
    let r := h args (heap w) in
    (r.1, {| heap := r.2; trace := trace w |}).

(** ** Filter controls *)

(** What [reset] tells apart with [instanceof] and [type]. A select is
    its list of option values and the index of the selected option;
    any other element may lack a [value] property. An input comes with
    [emptied], the value it shows once [value = ""] has been assigned:
    the empty string for most types, but the value sanitization of
    HTML turns it into "#000000" for a colour well and into the
    default value for a range control. Controls are only read by the
    constructor and read and written by [reset]; they are kept by value
    in the instance. *)
Inductive control_kind :=
| HTMLSelectElement (options : list jsstring) (selectedIndex : option nat)
| HTMLInputElement (type value : jsstring) (checked : bool)
                   (emptied : jsstring)
| OtherElement (value : option jsstring).

(** [name] is [None] for an element without a [name] property. *)
Record control := {
  name : option jsstring;
  kind : control_kind
}.

(** [filter.value]; [None] stands for [undefined]. *)
Definition control_value (filter : control) : option jsstring :=
  match kind filter with
  | HTMLSelectElement options (Some i) => Some (default [] (options !! i))
  | HTMLSelectElement options None => Some []
  | HTMLInputElement _ value _ _ => Some value
  | OtherElement value => value
  end.

(** Index of the first option whose value is [v]. *)
Fixpoint first_option (v : jsstring) (options : list jsstring) : option nat :=
  match options with
  | [] => None
  | o :: rest =>
      if bool_decide (o = v) then Some O else S <$> first_option v rest
  end.

(** A property key: [undefined] is converted to the string "undefined". *)
Definition property_key (n : option jsstring) : jsstring :=
  default (js "undefined") n.

(** [!name] *)
Definition falsy_name (n : option jsstring) : bool :=
  match n with
  | None => true
  | Some s => falsy s
  end.

(** ** The filter object *)

(** The fields of [this] that the filtering logic uses. The state object
    and the element array are references into the store. *)
Record GenericElementFilter := {
  elementsSelector : jsstring;
  filtersSelector : jsstring;
  noResultsSelector : jsstring;
  statusSelector : option jsstring;
  allValue : jsstring;
  statusFormatter : nat -> jsstring;
  matchMode : match_mode;
  onBeforeFilter : option (hook beforeArgs);
  onAfterFilter : option (hook afterArgs);
  currentFilters : loc;
  elements : loc;
  noResultsMessage : option loc;
  statusElement : option loc;
  filters : list control
}.

(** The hosting page as the filter sees it through its root: selector
    queries in document order, and whether [document.startViewTransition]
    exists. *)
Record document := {
  querySelectorAll : jsstring -> list loc;
  querySelectorAll_controls : jsstring -> list control;
  has_startViewTransition : bool
}.

Definition querySelector (doc : document) (selector : jsstring) : option loc :=
  head (querySelectorAll doc selector).

(** ** [filterElements] *)

(** One element against the current state: the body of the [forEach]
    callback up to [matchesAllFilters]. *)
Definition matchElement (this : GenericElementFilter) (element : loc) : M bool :=
  state <- readObject (currentFilters this) ;;
  n <- readElement element ;;
  fun w =>
    (matchesAllFilters (allValue this) (matchMode this) state (dataset n), w).

(** [this.elements.forEach(...)], threading the two counters
    [hasVisibleElements] and [visibleCount]. *)
Fixpoint forEachElement (this : GenericElementFilter) (items : list loc)
    (hasVisibleElements : bool) (visibleCount : nat) : M (bool * nat) :=
  match items with
  | [] => ret (hasVisibleElements, visibleCount)
  | element :: rest =>
      matchesAll <- matchElement this element ;;
      if matchesAll then
        setHidden element false ;;;
        emit (HiddenSet element false) ;;;
        forEachElement this rest true (S visibleCount)
      else
        setHidden element true ;;;
        emit (HiddenSet element true) ;;;
        forEachElement this rest hasVisibleElements visibleCount
  end.

Definition runBeforeHook (this : GenericElementFilter) : M unit :=
  match onBeforeFilter this with
  | None => ret tt
  | Some h =>
      state <- readObject (currentFilters this) ;;
      stateCopy <- alloc (PlainObject state) ;;
      items <- readArray (elements this) ;;
      itemsCopy <- alloc (Array items) ;;
      emit (BeforeHookCalled stateCopy itemsCopy) ;;;
      call h {| before_currentFilters := stateCopy;
                before_elements := itemsCopy |}
  end.

Definition runAfterHook (this : GenericElementFilter)
    (visibleCount totalCount : nat) : M unit :=
  match onAfterFilter this with
  | None => ret tt
  | Some h =>
      state <- readObject (currentFilters this) ;;
      stateCopy <- alloc (PlainObject state) ;;
      items <- readArray (elements this) ;;
      itemsCopy <- alloc (Array items) ;;
      emit (AfterHookCalled stateCopy visibleCount totalCount itemsCopy) ;;;
      call h {| after_currentFilters := stateCopy;
                after_visibleCount := visibleCount;
                after_totalCount := totalCount;
                after_elements := itemsCopy |}
  end.

Definition updateNoResults (this : GenericElementFilter)
    (hasVisibleElements : bool) : M unit :=
  match noResultsMessage this with
  | None => ret tt
  | Some target =>
      setHidden target hasVisibleElements ;;;
      emit (NoResultsHiddenSet target hasVisibleElements)
  end.

Definition updateStatus (this : GenericElementFilter)
    (visibleCount : nat) : M unit :=
  match statusElement this with
  | None => ret tt
  | Some target =>
      let text := statusFormatter this visibleCount in
      setTextContent target text ;;;
      emit (StatusTextSet target text)
  end.

(** The source returns nothing; the two counters are returned here so
    that statements can name them. *)
Definition filterElements (this : GenericElementFilter) : M (nat * nat) :=
  emit PassStarted ;;;
  tracked <- readArray (elements this) ;;
  let totalCount := length tracked in
  runBeforeHook this ;;;
  items <- readArray (elements this) ;;
  counters <- forEachElement this items false 0 ;;
  updateNoResults this counters.1 ;;;
  updateStatus this counters.2 ;;;
  runAfterHook this counters.2 totalCount ;;;
  ret (counters.2, totalCount).

(** ** Initialisation *)

(** [_initializeElements]: the tracked array is built anew from the
    selector; the two auxiliary targets are looked up. The result is
    the new value of [this.elements], [this.noResultsMessage] and
    [this.statusElement]. The [viewTransitionName] styling of the
    elements is presentation only and is left out. *)
Definition _initializeElements (doc : document)
    (elementsSelector noResultsSelector : jsstring)
    (statusSelector : option jsstring) : M (loc * option loc * option loc) :=
  tracked <- alloc (Array (querySelectorAll doc elementsSelector)) ;;
  let noResults := querySelector doc noResultsSelector in
  let status :=
    match statusSelector with
    | Some sel => querySelector doc sel
    | None => None
    end in
  ret (tracked, noResults, status).

Definition setElements (this : GenericElementFilter)
    (found : loc * option loc * option loc) : GenericElementFilter :=
  {| elementsSelector := elementsSelector this;
     filtersSelector := filtersSelector this;
     noResultsSelector := noResultsSelector this;
     statusSelector := statusSelector this;
     allValue := allValue this;
     statusFormatter := statusFormatter this;
     matchMode := matchMode this;
     onBeforeFilter := onBeforeFilter this;
     onAfterFilter := onAfterFilter this;
     currentFilters := currentFilters this;
     elements := found.1.1;
     noResultsMessage := found.1.2;
     statusElement := found.2;
     filters := filters this |}.

Definition setFilters (this : GenericElementFilter)
    (fs : list control) : GenericElementFilter :=
  {| elementsSelector := elementsSelector this;
     filtersSelector := filtersSelector this;
     noResultsSelector := noResultsSelector this;
     statusSelector := statusSelector this;
     allValue := allValue this;
     statusFormatter := statusFormatter this;
     matchMode := matchMode this;
     onBeforeFilter := onBeforeFilter this;
     onAfterFilter := onAfterFilter this;
     currentFilters := currentFilters this;
     elements := elements this;
     noResultsMessage := noResultsMessage this;
     statusElement := statusElement this;
     filters := fs |}.

(** [_initializeFilters], given the controls the selector found: for
    each one [currentFilters[filter.name] = filter.value ?? allValue].
    The change listener it attaches is what later calls [updateFilter]. *)
Fixpoint _initializeFilters (state : loc) (allValue : jsstring)
    (fs : list control) : M unit :=
  match fs with
  | [] => ret tt
  | filter :: rest =>
      setProperty state (property_key (name filter))
                  (default allValue (control_value filter)) ;;;
      _initializeFilters state allValue rest
  end.

(** The [options] argument of the constructor; [None] is an absent
    property. *)
Record constructor_options := {
  opt_filtersSelector : option jsstring;
  opt_noResultsSelector : option jsstring;
  opt_statusSelector : option jsstring;
  opt_allValue : option jsstring;
  opt_statusFormatter : option (nat -> jsstring);
  opt_matchMode : option jsstring;
  opt_onBeforeFilter : option (hook beforeArgs);
  opt_onAfterFilter : option (hook afterArgs)
}.

Definition defaultStatusFormatter (count : nat) : jsstring :=
  number_to_string count ++ js " results found".

Definition selectorRequired : jsstring :=
  js "GenericElementFilter: elementsSelector is required as first argument.".

(** [new GenericElementFilter(elementsSelector, options)]. The style
    injection, the ARIA attributes and [enableFiltering] touch nothing
    the filtering logic reads and are left out. *)
Definition constructor (doc : document) (elementsSelector : option jsstring)
    (options : constructor_options) : M GenericElementFilter :=
  match elementsSelector with
  | None => throw selectorRequired
  | Some selector =>
      if falsy selector then throw selectorRequired
      else
        let filtersSel :=
          default (js "select[name]") (opt_filtersSelector options) in
        let noResultsSel :=
          default (js ".no-results-message") (opt_noResultsSelector options) in
        let statusSel :=
          match opt_statusSelector options with
          | Some sel => if falsy sel then None else Some sel
          | None => None
          end in
        let all := default (js "all") (opt_allValue options) in
        let mode :=
          if bool_decide (opt_matchMode options = Some (js "contains"))
          then Contains else Equals in
        state <- alloc (PlainObject []) ;;
        found <- _initializeElements doc selector noResultsSel statusSel ;;
        let fs := querySelectorAll_controls doc filtersSel in
        _initializeFilters state all fs ;;;
        let this :=
          {| elementsSelector := selector;
             filtersSelector := filtersSel;
             noResultsSelector := noResultsSel;
             statusSelector := statusSel;
             allValue := all;
             statusFormatter :=
               default defaultStatusFormatter (opt_statusFormatter options);
             matchMode := mode;
             onBeforeFilter := opt_onBeforeFilter options;
             onAfterFilter := opt_onAfterFilter options;
             currentFilters := state;
             elements := found.1.1;
             noResultsMessage := found.1.2;
             statusElement := found.2;
             filters := fs |} in
        filterElements this ;;;
        ret this
  end.

(** ** Public methods *)

(** The target of a change event: a form control with a name and a
    string value. *)
Record change_event := {
  target_name : option jsstring;
  target_value : jsstring
}.

(** The callback [runFilter] of [updateFilter]. It reads the fields of
    [this] when it is called. *)
Definition callback : Type := GenericElementFilter -> M (nat * nat).

(** [updateFilter]. [document.startViewTransition(runFilter)] does not
    call [runFilter]: the browser calls it later, when [updateFilter]
    has returned. The result is the callback handed over in this way,
    if any. *)
Definition updateFilter (doc : document) (this : GenericElementFilter)
    (e : change_event) : M (option callback) :=
  setProperty (currentFilters this) (property_key (target_name e))
              (target_value e) ;;;
  let runFilter : callback := fun this => filterElements this in
  if negb (has_startViewTransition doc) then
    runFilter this ;;; ret None
  else ret (Some runFilter).

(** The browser calling the callback of a view transition: an error
    the callback throws rejects the promises of the transition and
    reaches no caller. *)
Definition updateCallback (this : GenericElementFilter)
    (pending : option callback) : M unit :=
  match pending with
  | None => ret tt
  | Some runFilter => fun w => (Normal tt, (runFilter this w).2)
  end.

(** A method that assigns to fields of [this] yields the instance as it
    stands when the call ends, whether it returned or threw. *)
Definition method : Type :=
  world -> GenericElementFilter * (outcome unit * world).

Definition refreshElements (doc : document)
    (this : GenericElementFilter) : method :=
  fun w =>
    match _initializeElements doc (elementsSelector this)
            (noResultsSelector this) (statusSelector this) w with
    | (Thrown e, w1) => (this, (Thrown e, w1))
    | (Normal found, w1) =>
        let this' := setElements this found in
        (this', (filterElements this' ;;; ret tt) w1)
    end.

Definition checkbox : jsstring := js "checkbox".
Definition radio : jsstring := js "radio".

(** The callback of the [forEach] in [reset]: the control after the
    reset, with the state entry written under its name. *)
Definition resetFilter (this : GenericElementFilter)
    (filter : control) : M control :=
  if falsy_name (name filter) then ret filter
  else
    let key := property_key (name filter) in
    match kind filter with
    | HTMLSelectElement options selected =>
        let hasAllOption :=
          existsb (fun opt => bool_decide (opt = allValue this)) options in
        let filter' :=
          if hasAllOption then
            {| name := name filter;
               kind := HTMLSelectElement options
                         (first_option (allValue this) options) |}
          else if Nat.ltb 0 (length options) then
            {| name := name filter;
               kind := HTMLSelectElement options (Some O) |}
          else filter in
        setProperty (currentFilters this) key
                    (default (allValue this) (control_value filter')) ;;;
        ret filter'
    | HTMLInputElement type value checked emptied =>
        if bool_decide (type = checkbox) || bool_decide (type = radio) then
          setProperty (currentFilters this) key (allValue this) ;;;
          ret {| name := name filter;
                 kind := HTMLInputElement type value false emptied |}
        else
          setProperty (currentFilters this) key (allValue this) ;;;
          ret {| name := name filter;
                 kind := HTMLInputElement type emptied checked emptied |}
    | OtherElement _ =>
        setProperty (currentFilters this) key (allValue this) ;;;
        ret filter
    end.

Fixpoint resetFilters (this : GenericElementFilter)
    (fs : list control) : M (list control) :=
  match fs with
  | [] => ret []
  | filter :: rest =>
      filter' <- resetFilter this filter ;;
      rest' <- resetFilters this rest ;;
      ret (filter' :: rest')
  end.

Definition reset (this : GenericElementFilter) : method :=
  fun w =>
    match filters this with
    | [] => (this, (Normal tt, w))
    | _ :: _ =>
        match resetFilters this (filters this) w with
        | (Thrown e, w1) => (this, (Thrown e, w1))
        | (Normal fs, w1) =>
            let this' := setFilters this fs in
            (this', (filterElements this' ;;; ret tt) w1)
        end
    end.

(** ** Observations on a store *)

Definition state_of (this : GenericElementFilter)
    (h : gmap loc object) : properties :=
  match h !! currentFilters this with
  | Some (PlainObject props) => props
  | _ => []
  end.

Definition tracked (this : GenericElementFilter)
    (h : gmap loc object) : list loc :=
  match h !! elements this with
  | Some (Array items) => items
  | _ => []
  end.

Definition dataset_of (h : gmap loc object) (l : loc) : gmap jsstring jsstring :=
  match h !! l with
  | Some (Element n) => dataset n
  | _ => ∅
  end.

Definition hidden_of (h : gmap loc object) (l : loc) : option bool :=
  match h !! l with
  | Some (Element n) => Some (hidden n)
  | _ => None
  end.

Definition text_of (h : gmap loc object) (l : loc) : option jsstring :=
  match h !! l with
  | Some (Element n) => Some (textContent n)
  | _ => None
  end.

Definition visible (h : gmap loc object) (l : loc) : Prop :=
  hidden_of h l = Some false.

(** What matching element [l] against the state held in [h] gives. *)
Definition verdict (this : GenericElementFilter) (h : gmap loc object)
    (l : loc) : outcome bool :=
  matchesAllFilters (allValue this) (matchMode this)
                    (state_of this h) (dataset_of h l).

(** Whether element [l] passes every filter. *)
Definition passes (this : GenericElementFilter) (h : gmap loc object)
    (l : loc) : bool :=
  match verdict this h l with
  | Normal b => b
  | Thrown _ => false
  end.

(** The items a loop gets through, and the error that stops it, if
    the callback throws for some item. *)
Fixpoint until_throw {A B} (f : A -> outcome B) (items : list A)
    : list A * option jsstring :=
  match items with
  | [] => ([], None)
  | x :: rest =>
      match f x with
      | Thrown e => ([], Some e)
      | Normal _ =>
          let r := until_throw f rest in (x :: r.1, r.2)
      end
  end.

(** The elements the loop of a pass gets through, and the error that
    stops it, if the match of some element throws. *)
Definition handled (this : GenericElementFilter) (h : gmap loc object)
    : list loc * option jsstring :=
  until_throw (verdict this h) (tracked this h).

(** No tracked element makes the match throw. *)
Definition matching_total (this : GenericElementFilter)
    (h : gmap loc object) : Prop :=
  (handled this h).2 = None.

Definition visibleCount_of (this : GenericElementFilter)
    (h : gmap loc object) : nat :=
  length (List.filter (passes this h) (tracked this h)).

Definition hasVisible_of (this : GenericElementFilter)
    (h : gmap loc object) : bool :=
  existsb (passes this h) (tracked this h).

(** The stores a pass goes through, written as map updates. *)
Definition with_hidden (b : bool) (o : object) : object :=
  match o with
  | Element n => Element {| dataset := dataset n; hidden := b;
                            textContent := textContent n |}
  | _ => o
  end.

Definition with_text (t : jsstring) (o : object) : object :=
  match o with
  | Element n => Element {| dataset := dataset n; hidden := hidden n;
                            textContent := t |}
  | _ => o
  end.

Definition hide_all (f : loc -> bool) (items : list loc)
    (h : gmap loc object) : gmap loc object :=
  foldl (fun acc l => alter (with_hidden (f l)) l acc) h items.

Definition settle (this : GenericElementFilter)
    (h : gmap loc object) : gmap loc object :=
  let h1 := hide_all (fun l => negb (passes this h l)) (tracked this h) h in
  let h2 :=
    match noResultsMessage this with
    | Some t => alter (with_hidden (hasVisible_of this h)) t h1
    | None => h1
    end in
  match statusElement this with
  | Some t =>
      alter (with_text (statusFormatter this (visibleCount_of this h))) t h2
  | None => h2
  end.

Definition hidden_events (this : GenericElementFilter)
    (h : gmap loc object) : list event :=
  map (fun l => HiddenSet l (negb (passes this h l))) (tracked this h).

Definition noResults_events (this : GenericElementFilter)
    (hasVisibleElements : bool) : list event :=
  match noResultsMessage this with
  | Some t => [NoResultsHiddenSet t hasVisibleElements]
  | None => []
  end.

Definition status_events (this : GenericElementFilter)
    (visibleCount : nat) : list event :=
  match statusElement this with
  | Some t => [StatusTextSet t (statusFormatter this visibleCount)]
  | None => []
  end.

Definition settle_events (this : GenericElementFilter)
    (h : gmap loc object) : list event :=
  hidden_events this h ++ noResults_events this (hasVisible_of this h)
    ++ status_events this (visibleCount_of this h).

(** The store and the argument object a hook is called with: the state
    copy and the array copy sit at the next two unused locations. *)
Definition snapshot (this : GenericElementFilter)
    (h : gmap loc object) : loc * loc * gmap loc object :=
  let l1 := fresh (dom h) in
  let h1 := <[l1 := PlainObject (state_of this h)]> h in
  let l2 := fresh (dom h1) in
  (l1, l2, <[l2 := Array (tracked this h)]> h1).

(** ** Well-formed stores and hook discipline *)

Definition is_element (h : gmap loc object) (l : loc) : Prop :=
  exists n, h !! l = Some (Element n).

(** What the constructor establishes: the state object and the tracked
    array exist, and every reference the filter holds is a DOM element. *)
Definition well_formed (this : GenericElementFilter)
    (h : gmap loc object) : Prop :=
  (exists props, h !! currentFilters this = Some (PlainObject props)) /\
  (exists items, h !! elements this = Some (Array items)) /\
  (forall l, l ∈ tracked this h -> is_element h l) /\
  (forall l, noResultsMessage this = Some l -> is_element h l) /\
  (forall l, statusElement this = Some l -> is_element h l).

(** Every object of [h] is the same in [h']. *)
Definition preserved (h h' : gmap loc object) : Prop :=
  forall l, is_Some (h !! l) -> h' !! l = h !! l.

(** A hook that writes only to the objects it was passed (and to
    objects it creates itself). *)
Definition mutates_only {Args} (passed : Args -> list loc)
    (hk : hook Args) : Prop :=
  forall args σ l,
    is_Some (σ !! l) -> l ∉ passed args -> (hk args σ).2 !! l = σ !! l.

Definition before_passed (args : beforeArgs) : list loc :=
  [before_currentFilters args; before_elements args].

Definition after_passed (args : afterArgs) : list loc :=
  [after_currentFilters args; after_elements args].

Definition disciplined (this : GenericElementFilter) : Prop :=
  (forall hk, onBeforeFilter this = Some hk -> mutates_only before_passed hk) /\
  (forall hk, onAfterFilter this = Some hk -> mutates_only after_passed hk).

(** Hooks that return normally whatever they are called with. *)
Definition never_throw (this : GenericElementFilter) : Prop :=
  (forall hk args σ, onBeforeFilter this = Some hk -> (hk args σ).1 = Normal tt) /\
  (forall hk args σ, onAfterFilter this = Some hk -> (hk args σ).1 = Normal tt).

(** The instance with both hooks removed. *)
Definition without_hooks (this : GenericElementFilter) : GenericElementFilter :=
  {| elementsSelector := elementsSelector this;
     filtersSelector := filtersSelector this;
     noResultsSelector := noResultsSelector this;
     statusSelector := statusSelector this;
     allValue := allValue this;
     statusFormatter := statusFormatter this;
     matchMode := matchMode this;
     onBeforeFilter := None;
     onAfterFilter := None;
     currentFilters := currentFilters this;
     elements := elements this;
     noResultsMessage := noResultsMessage this;
     statusElement := statusElement this;
     filters := filters this |}.

(** What a pass may change in an object: the [hidden] flag and the text
    of an element, nothing else. [core] forgets both. *)
Definition core (o : object) : object :=
  match o with
  | Element n => Element {| dataset := dataset n; hidden := false;
                            textContent := [] |}
  | _ => o
  end.

Definition same_core (h h' : gmap loc object) : Prop :=
  forall l, core <$> h' !! l = core <$> h !! l.

(** The world once the elements, the indicator and the status line have
    been updated. *)
Definition settled_world (this : GenericElementFilter) (w : world) : world :=
  {| heap := settle this (heap w);
     trace := trace w ++ settle_events this (heap w) |}.

(** The world a pass leaves when the match of an element throws: the
    elements before it have their flag, nothing else is written. *)
Definition aborted_world (this : GenericElementFilter) (w : world) : world :=
  let reached := (handled this (heap w)).1 in
  {| heap := hide_all (fun l => negb (passes this (heap w) l)) reached (heap w);
     trace := trace w ++
              map (fun l => HiddenSet l (negb (passes this (heap w) l)))
                  reached |}.

(** [settle] seen at one location. *)
Definition settle_at (this : GenericElementFilter) (h : gmap loc object)
    (x : loc) (o : option object) : option object :=
  let o1 :=
    if decide (x ∈ tracked this h)
    then with_hidden (negb (passes this h x)) <$> o else o in
  let o2 :=
    if decide (noResultsMessage this = Some x)
    then with_hidden (hasVisible_of this h) <$> o1 else o1 in
  if decide (statusElement this = Some x)
  then with_text (statusFormatter this (visibleCount_of this h)) <$> o2
  else o2.

(** The two hook calls of a pass, on a well-formed store. *)
Definition before_call (this : GenericElementFilter) (hk : hook beforeArgs)
    (w : world) : outcome unit * world :=
  let s := snapshot this (heap w) in
  let r := hk {| before_currentFilters := s.1.1; before_elements := s.1.2 |} s.2 in
  (r.1, {| heap := r.2; trace := trace w ++ [BeforeHookCalled s.1.1 s.1.2] |}).

Definition after_call (this : GenericElementFilter) (hk : hook afterArgs)
    (visibleCount totalCount : nat) (w : world) : outcome unit * world :=
  let s := snapshot this (heap w) in
  let r := hk {| after_currentFilters := s.1.1;
                 after_visibleCount := visibleCount;
                 after_totalCount := totalCount;
                 after_elements := s.1.2 |} s.2 in
  (r.1, {| heap := r.2;
           trace := trace w ++
                    [AfterHookCalled s.1.1 visibleCount totalCount s.1.2] |}).

(** A pass, stage by stage: the hook calls around [settle]. *)
Definition before_stage (this : GenericElementFilter) (w : world)
    : outcome unit * world :=
  let w0 := {| heap := heap w; trace := trace w ++ [PassStarted] |} in
  match onBeforeFilter this with
  | None => (Normal tt, w0)
  | Some hk => before_call this hk w0
  end.

Definition after_stage (this : GenericElementFilter)
    (visibleCount totalCount : nat) (w : world) : outcome unit * world :=
  match onAfterFilter this with
  | None => (Normal tt, w)
  | Some hk => after_call this hk visibleCount totalCount w
  end.

(** Two stores hold the same filter state, the same tracked elements
    and the same attributes on them. *)
Definition same_inputs (this : GenericElementFilter)
    (h h' : gmap loc object) : Prop :=
  state_of this h' = state_of this h /\
  tracked this h' = tracked this h /\
  (forall l, l ∈ tracked this h -> dataset_of h' l = dataset_of h l).

(** The [hidden] flag [settle] leaves on a tracked element. *)
Definition settled_flag (this : GenericElementFilter) (h : gmap loc object)
    (l : loc) : bool :=
  if decide (noResultsMessage this = Some l) then hasVisible_of this h
  else negb (passes this h l).

(** ** The matching rule in words *)

(** How a declared value is compared with the filter value. *)
Definition value_matches (mode : match_mode)
    (declared filterValue : jsstring) : Prop :=
  match mode with
  | Equals => declared = filterValue
  | Contains => containsToken declared filterValue = true
  end.

(** A key contributes true: its value is the match-all sentinel, or the
    element declares no attribute for it, or the declared value matches. *)
Definition key_contributes (allValue : jsstring) (mode : match_mode)
    (dataset : gmap jsstring jsstring) (k v : jsstring) : Prop :=
  v = allValue \/
  dataset !! k = None \/
  exists declared, dataset !! k = Some declared /\ value_matches mode declared v.

(** The state without the entry under [key]. *)
Definition without (key : jsstring) (props : properties) : properties :=
  List.filter (fun kv => negb (bool_decide (kv.1 = key))) props.

(** The tokens of a declared value, following the written rule: split on
    commas if there is one, otherwise on white space, trim every token
    and drop the empty ones. *)
Definition spec_tokens (declared : jsstring) : list jsstring :=
  List.filter truthy
    (map trim (if has_comma declared then split_comma declared
               else split_ws declared)).

Definition every_key_contributes (this : GenericElementFilter)
    (h : gmap loc object) (l : loc) : Prop :=
  forall k v, (k, v) ∈ state_of this h ->
    key_contributes (allValue this) (matchMode this) (dataset_of h l) k v.

(** The element declares no attribute for any key that constrains. *)
Definition no_constrained_attribute (this : GenericElementFilter)
    (h : gmap loc object) (l : loc) : Prop :=
  forall k v, (k, v) ∈ state_of this h ->
    v ≠ allValue this -> dataset_of h l !! k = None.

(** No key that constrains is a name the element's dataset object
    inherits without declaring it: for such a key the lookup of the
    attribute finds a property of [Object.prototype]. *)
Definition ordinary_keys (this : GenericElementFilter)
    (h : gmap loc object) (l : loc) : Prop :=
  forall k v, (k, v) ∈ state_of this h ->
    v ≠ allValue this -> dataset_of h l !! k = None ->
    is_inherited k = false.

(** The matching rule as first written: after a pass every tracked
    element is visible exactly when every key contributes. *)
Definition matching_as_first_written (this : GenericElementFilter)
    (w : world) : Prop :=
  forall l, l ∈ tracked this (heap w) ->
    visible (heap (filterElements this w).2) l
    <-> every_key_contributes this (heap w) l.

(** The number a string of decimal digits denotes. *)
Definition decimal_value (s : jsstring) : nat :=
  foldl (fun acc c => 10 * acc + (N.to_nat c - 48)) 0 s.

(** A string of decimal digits without a leading zero, the string 0
    apart. *)
Definition canonical_decimal (s : jsstring) : bool :=
  forallb is_digit s &&
  match s with
  | [] => false
  | c :: rest => negb (N.eqb c 48) || falsy rest
  end.

(** The before hook, if there is one, is called on store [σ] with
    fresh copies of the state and of the tracked array, returns
    normally and leaves [h']. *)
Definition before_hook_runs (this : GenericElementFilter)
    (σ h' : gmap loc object) : Prop :=
  match onBeforeFilter this with
  | None => h' = σ
  | Some hk =>
      let s := snapshot this σ in
      σ !! s.1.1 = None /\ σ !! s.1.2 = None /\
      s.2 !! s.1.1 = Some (PlainObject (state_of this σ)) /\
      s.2 !! s.1.2 = Some (Array (tracked this σ)) /\
      hk {| before_currentFilters := s.1.1; before_elements := s.1.2 |} s.2
      = (Normal tt, h')
  end.

(** The same for the after hook and the two counts. *)
Definition after_hook_runs (this : GenericElementFilter)
    (visibleCount totalCount : nat) (σ h' : gmap loc object) : Prop :=
  match onAfterFilter this with
  | None => h' = σ
  | Some hk =>
      let s := snapshot this σ in
      σ !! s.1.1 = None /\ σ !! s.1.2 = None /\
      s.2 !! s.1.1 = Some (PlainObject (state_of this σ)) /\
      s.2 !! s.1.2 = Some (Array (tracked this σ)) /\
      hk {| after_currentFilters := s.1.1;
            after_visibleCount := visibleCount;
            after_totalCount := totalCount;
            after_elements := s.1.2 |} s.2
      = (Normal tt, h')
  end.

(** The hook events a pass may log around its updates. *)
Definition before_logged (this : GenericElementFilter)
    (evs : list event) : Prop :=
  match onBeforeFilter this with
  | None => evs = []
  | Some _ => exists c1 c2, evs = [BeforeHookCalled c1 c2]
  end.

Definition after_logged (this : GenericElementFilter)
    (visibleCount totalCount : nat) (evs : list event) : Prop :=
  match onAfterFilter this with
  | None => evs = []
  | Some _ =>
      exists c1 c2, evs = [AfterHookCalled c1 visibleCount totalCount c2]
  end.

(** ** Reset and the registered keys, in words *)

(** The value [reset] stores for a control: the sentinel, except for a
    select without a sentinel option, which falls back to its first
    option (and to the empty string when it has no option at all). *)
Definition neutral_value (all : jsstring) (c : control) : jsstring :=
  match kind c with
  | HTMLSelectElement options _ =>
      if existsb (fun opt => bool_decide (opt = all)) options then all
      else match options with
           | first :: _ => first
           | [] => []
           end
  | _ => all
  end.

(** The state after [reset] has handled one control. *)
Definition reset_entry (all : jsstring) (st : properties)
    (c : control) : properties :=
  if falsy_name (name c) then st
  else set (property_key (name c)) (neutral_value all c) st.

Definition reset_state (all : jsstring) (fs : list control)
    (st : properties) : properties :=
  foldl (reset_entry all) st fs.

(** The state after [_initializeFilters]. *)
Definition register_entry (all : jsstring) (st : properties)
    (c : control) : properties :=
  set (property_key (name c)) (default all (control_value c)) st.

(** A key under which an assignment stores a value. *)
Definition storable (k : jsstring) : bool := negb (bool_decide (k = proto)).

(** The control [reset] stores a value for under the key [k], if any:
    it has a name that is not empty, its name is [k], and [k] is a key
    an assignment stores under. *)
Definition named (k : jsstring) (c : control) : bool :=
  negb (falsy_name (name c)) && bool_decide (property_key (name c) = k)
  && storable k.

(** The last such control: the one whose value stays. *)
Definition last_named (k : jsstring) (fs : list control) : option control :=
  last (List.filter (named k) fs).





(** Every element a selector query returns is in the store. *)
Definition document_in_store (doc : document) (h : gmap loc object) : Prop :=
  forall sel l, l ∈ querySelectorAll doc sel -> is_element h l.

Definition is_PassStarted (ev : event) : bool :=
  match ev with
  | PassStarted => true
  | _ => false
  end.

Definition passes_started (evs : list event) : nat :=
  length (List.filter is_PassStarted evs).

(** The store with the filter state set to [st]. *)
Definition with_state (this : GenericElementFilter)
    (st : properties) (h : gmap loc object) : gmap loc object :=
  <[currentFilters this := PlainObject st]> h.

(** The store in which no filter constrains: every value of the state
    is the sentinel. *)
Definition neutral_store (this : GenericElementFilter)
    (h : gmap loc object) : gmap loc object :=
  with_state this (map (fun kv => (kv.1, allValue this)) (state_of this h)) h.

(** The reset property as first written: every control's key holds the
    sentinel, or the first option of a select that has options none of
    which is the sentinel; one pass runs; and that pass shows the same
    elements as a pass in which no filter constrains. *)
Definition reset_as_first_written (this : GenericElementFilter)
    (w : world) : Prop :=
  let r := reset this w in
  let w' := r.2.2 in
  (forall c, c ∈ filters this ->
     get (property_key (name c)) (state_of this (heap w'))
     = Some (allValue this) \/
     exists options selected first rest,
       kind c = HTMLSelectElement options selected /\
       options = first :: rest /\
       (forall opt, opt ∈ options -> opt ≠ allValue this) /\
       get (property_key (name c)) (state_of this (heap w')) = Some first) /\
  (exists evs, trace w' = trace w ++ evs /\ passes_started evs = 1) /\
  (forall l, l ∈ tracked this (heap w) ->
     visible (heap w') l <->
     visible (heap (filterElements r.1
                      {| heap := neutral_store this (heap w');
                         trace := trace w' |}).2) l).

(** ** A sample page *)

Module Sample.

Definition card (k v : string) : node :=
  {| dataset := {[ js k := js v ]}; hidden := false; textContent := [] |}.

Definition blank : node :=
  {| dataset := ∅; hidden := false; textContent := [] |}.

(** Two cards, a no-results message, a status line, the state object
    and the tracked array. *)
Definition store : gmap loc object :=
  <[1%positive := Element (card "season" "spring")]>
  (<[2%positive := Element (card "season" "summer")]>
  (<[3%positive := Element blank]>
  (<[4%positive := Element blank]>
  (<[5%positive := PlainObject [(js "season", js "spring")]]>
  (<[6%positive := Array [1%positive; 2%positive]]> ∅))))).

Definition start : world := {| heap := store; trace := [] |}.

(** Hooks that overwrite both objects they are handed. *)
Definition scribble_before : hook beforeArgs :=
  fun args σ =>
    (Normal tt,
     <[before_currentFilters args := PlainObject []]>
       (<[before_elements args := Array []]> σ)).

Definition scribble_after : hook afterArgs :=
  fun args σ =>
    (Normal tt,
     <[after_currentFilters args := PlainObject []]>
       (<[after_elements args := Array []]> σ)).

Definition failing_after : hook afterArgs :=
  fun args σ => (Thrown (js "boom"), σ).

Definition failing_before : hook beforeArgs :=
  fun args σ => (Thrown (js "boom"), σ).

(** A hook that goes through the array copy to an element and rewrites
    its attributes: the copy of the array is shallow. *)
Definition relabel_before : hook beforeArgs :=
  fun args σ =>
    (Normal tt,
     match σ !! before_elements args with
     | Some (Array (_ :: second :: _)) =>
         alter (fun o =>
                  match o with
                  | Element n =>
                      Element {| dataset := {[ js "season" := js "spring" ]};
                                 hidden := hidden n;
                                 textContent := textContent n |}
                  | _ => o
                  end) second σ
     | _ => σ
     end).

Definition season_select : control :=
  {| name := Some (js "season");
     kind := HTMLSelectElement [js "all"; js "spring"; js "summer"] (Some 1) |}.

Definition instance (before : option (hook beforeArgs))
    (after : option (hook afterArgs)) (fs : list control)
    : GenericElementFilter :=
  {| elementsSelector := js ".card";
     filtersSelector := js "select[name]";
     noResultsSelector := js ".no-results-message";
     statusSelector := Some (js ".status");
     allValue := js "all";
     statusFormatter := defaultStatusFormatter;
     matchMode := Equals;
     onBeforeFilter := before;
     onAfterFilter := after;
     currentFilters := 5%positive;
     elements := 6%positive;
     noResultsMessage := Some 3%positive;
     statusElement := Some 4%positive;
     filters := fs |}.

Definition this : GenericElementFilter :=
  instance (Some scribble_before) (Some scribble_after) [season_select].

(** A page set up so that the first card is also the no-results
    target. *)
Definition overlapping : GenericElementFilter :=
  {| elementsSelector := js ".card";
     filtersSelector := js "select[name]";
     noResultsSelector := js ".card";
     statusSelector := None;
     allValue := js "all";
     statusFormatter := defaultStatusFormatter;
     matchMode := Equals;
     onBeforeFilter := None;
     onAfterFilter := None;
     currentFilters := 5%positive;
     elements := 6%positive;
     noResultsMessage := Some 1%positive;
     statusElement := None;
     filters := [season_select] |}.

Definition page (fs : list control) : document :=
  {| querySelectorAll := fun sel =>
       if bool_decide (sel = js ".card") then [1%positive; 2%positive]
       else if bool_decide (sel = js ".no-results-message") then [3%positive]
       else if bool_decide (sel = js ".status") then [4%positive]
       else [];
     querySelectorAll_controls := fun sel =>
       if bool_decide (sel = js "select[name]") then fs else [];
     has_startViewTransition := false |}.

(** A select without a match-all option. *)
Definition plain_select : control :=
  {| name := Some (js "season");
     kind := HTMLSelectElement [js "spring"; js "summer"] (Some 1) |}.

(** A select whose name is [__proto__]. *)
Definition proto_select : control :=
  {| name := Some proto;
     kind := HTMLSelectElement [js "all"; js "spring"] (Some 1) |}.

Definition no_options : constructor_options :=
  {| opt_filtersSelector := None;
     opt_noResultsSelector := None;
     opt_statusSelector := Some (js ".status");
     opt_allValue := None;
     opt_statusFormatter := None;
     opt_matchMode := None;
     opt_onBeforeFilter := Some scribble_before;
     opt_onAfterFilter := Some scribble_after |}.

(** The page before any filter exists: the four elements only. *)
Definition bare : world :=
  {| heap :=
       <[1%positive := Element (card "season" "spring")]>
       (<[2%positive := Element (card "season" "summer")]>
       (<[3%positive := Element blank]>
       (<[4%positive := Element blank]> ∅)));
     trace := [] |}.

End Sample.

(** ** Further observations *)

(** Whether [l] is an element whose [hidden] flag is off. *)
Definition shown (h : gmap loc object) (l : loc) : bool :=
  bool_decide (hidden_of h l = Some false).

(** What the page shows for a filter: the [hidden] flag of every
    tracked element, the flag of the no-results target and the text of
    the status line. *)
Definition display (this : GenericElementFilter) (h : gmap loc object)
    : list (option bool) * option (option bool) * option (option jsstring) :=
  (map (hidden_of h) (tracked this h),
   hidden_of h <$> noResultsMessage this,
   text_of h <$> statusElement this).

(** The display [settle] produces from the store it starts on. *)
Definition settled_display (this : GenericElementFilter)
    (h : gmap loc object)
    : list (option bool) * option (option bool) * option (option jsstring) :=
  (map (fun l => Some (settled_flag this h l)) (tracked this h),
   (fun _ => Some (hasVisible_of this h)) <$> noResultsMessage this,
   (fun _ => Some (statusFormatter this (visibleCount_of this h)))
     <$> statusElement this).

(** The world once [updateFilter] has returned and the browser has
    called the callback it was handed, if any. *)
Definition updated (doc : document) (this : GenericElementFilter)
    (e : change_event) (w : world) : world :=
  let r := updateFilter doc this e w in
  match r.1 with
  | Normal pending => (updateCallback this pending r.2).2
  | Thrown _ => r.2
  end.

(** The sample page after the first card has lost its class: the
    selector for the cards now finds the second card only. *)
Module Later.

Definition shrunk : document :=
  {| querySelectorAll := fun sel =>
       if bool_decide (sel = js ".card") then [2%positive]
       else if bool_decide (sel = js ".no-results-message") then [3%positive]
       else if bool_decide (sel = js ".status") then [4%positive]
       else [];
     querySelectorAll_controls := fun _ => [];
     has_startViewTransition := true |}.

End Later.

(** The last control [_initializeFilters] stores a value for under the
    key [k]. It skips no control: one without a name is stored under
    "undefined", one with an empty name under the empty key; but an
    assignment under [__proto__] stores nothing. *)
Definition last_keyed (k : jsstring) (fs : list control) : option control :=
  last (List.filter
          (fun c => bool_decide (property_key (name c) = k) && storable k) fs).

(** What the callback of [reset] does to the control itself: a named
    select gets the sentinel option selected, or else its first option;
    a named checkbox or radio button is unchecked; any other named
    input is assigned the empty value. *)
Definition reset_control (all : jsstring) (filter : control) : control :=
  if falsy_name (name filter) then filter
  else
    match kind filter with
    | HTMLSelectElement options selected =>
        if existsb (fun opt => bool_decide (opt = all)) options then
          {| name := name filter;
             kind := HTMLSelectElement options (first_option all options) |}
        else if Nat.ltb 0 (length options) then
          {| name := name filter;
             kind := HTMLSelectElement options (Some O) |}
        else filter
    | HTMLInputElement type value checked emptied =>
        if bool_decide (type = checkbox) || bool_decide (type = radio) then
          {| name := name filter;
             kind := HTMLInputElement type value false emptied |}
        else
          {| name := name filter;
             kind := HTMLInputElement type emptied checked emptied |}
    | OtherElement _ => filter
    end.

Definition is_select (c : control) : Prop :=
  exists options selected, kind c = HTMLSelectElement options selected.

(** ** View transition names *)

(** A colon or an opening bracket: where [split(/[:\[]/)] cuts. *)
Definition is_pseudo (c : N) : bool := N.eqb c 58 || N.eqb c 91.

(** A dot or a hash: what [replace(/^[.#]+/, "")] removes. *)
Definition is_mark (c : N) : bool := N.eqb c 46 || N.eqb c 35.

(** [s.split(/[:\[]/)[0]]: the code units before the first colon or
    opening bracket. *)
Fixpoint before_pseudo (s : jsstring) : jsstring :=
  match s with
  | [] => []
  | c :: s' => if is_pseudo c then [] else c :: before_pseudo s'
  end.

(** [s.replace(/^[.#]+/, "")] *)
Fixpoint strip_marks (s : jsstring) : jsstring :=
  match s with
  | [] => []
  | c :: s' => if is_mark c then strip_marks s' else s
  end.

Definition filterItem : jsstring := js "filter-item".

(** [_deriveViewTransitionPrefix(selector)]; [None] is a selector that
    is not a string. [split] never yields an empty array, so [pop()]
    is the last piece. *)
Definition _deriveViewTransitionPrefix (selector : option jsstring)
    : jsstring :=
  match selector with
  | None => filterItem
  | Some selector =>
      if falsy selector then filterItem
      else
        let trimmed := trim selector in
        if falsy trimmed then filterItem
        else
          let lastPart := default [] (last (split_ws trimmed)) in
          let withoutPseudo := before_pseudo lastPart in
          let name := strip_marks withoutPseudo in
          if falsy name then filterItem else name
  end.

(** [viewTransitionPrefix || _deriveViewTransitionPrefix(elementsSelector)]
    in the constructor. *)
Definition viewTransitionPrefix (option_prefix : option jsstring)
    (elementsSelector : jsstring) : jsstring :=
  match option_prefix with
  | Some p =>
      if falsy p then _deriveViewTransitionPrefix (Some elementsSelector)
      else p
  | None => _deriveViewTransitionPrefix (Some elementsSelector)
  end.

(** [element.id || `item-${index + 1}`]; an element without an id has
    the empty string as its [id]. *)
Definition elementId (index : nat) (id : jsstring) : jsstring :=
  if truthy id then id else js "item-" ++ number_to_string (index + 1).

(** The names the [forEach] of [_initializeElements] assigns to
    [style.viewTransitionName], given the ids of the tracked elements
    in order. *)
Definition viewTransitionNames (prefix : jsstring) (ids : list jsstring)
    : list jsstring :=
  imap (fun index id => prefix ++ js "-" ++ elementId index id) ids.

(** A name as a class or an id selector has it: not empty, without
    white space, colon or bracket, and not starting with a dot or a
    hash. *)
Definition plain_name (n : jsstring) : Prop :=
  n ≠ [] /\
  forallb (fun c => negb (is_ws c)) n = true /\
  forallb (fun c => negb (is_pseudo c)) n = true /\
  (forall c t, n = c :: t -> is_mark c = false).

(** ** Linking the controls to the status line *)

(** [tokens.join(" ")] *)
Fixpoint join_space (tokens : list jsstring) : jsstring :=
  match tokens with
  | [] => []
  | [t] => t
  | t :: rest => t ++ 32%N :: join_space rest
  end.

(** [(filter.getAttribute("aria-describedby") || "").trim().split(/\s+/)
    .filter(Boolean)]; [None] is an absent attribute. *)
Definition describedby (attribute : option jsstring) : list jsstring :=
  let value :=
    match attribute with
    | Some a => if falsy a then [] else a
    | None => []
    end in
  List.filter truthy (split_ws (trim value)).

(** The callback of the last [forEach] of [_initializeAria]: the value
    of the control's [aria-describedby] attribute afterwards. *)
Definition linkStatus (statusId : jsstring) (attribute : option jsstring)
    : option jsstring :=
  let existing := describedby attribute in
  if bool_decide (statusId ∈ existing) then attribute
  else Some (join_space (existing ++ [statusId])).

(** An id that is one token: not empty and without white space. *)
Definition one_token (t : jsstring) : Prop :=
  t ≠ [] /\ forallb (fun c => negb (is_ws c)) t = true.

(** ** [bindAll] *)

(** A container that declares a filter through [data-] attributes:
    the instance it is bound to, if any, the four attributes [bindAll]
    reads ([None] is an absent attribute), and the page as seen from
    the root [bindAll] picks for it. *)
Record container := {
  __genericElementFilter : option GenericElementFilter;
  data_filterElements : option jsstring;
  data_filterStatus : option jsstring;
  data_filterNoResults : option jsstring;
  data_filterAllValue : option jsstring;
  scope : document
}.

(** [value || fallback] for an attribute. *)
Definition or_else (value : option jsstring) (fallback : jsstring) : jsstring :=
  match value with
  | Some v => if falsy v then fallback else v
  | None => fallback
  end.

(** The options [bindAll] passes to the constructor. *)
Definition bindOptions (c : container) : constructor_options :=
  {| opt_filtersSelector := Some (js "[name]");
     opt_noResultsSelector :=
       Some (or_else (data_filterNoResults c) (js ".no-results-message"));
     opt_statusSelector :=
       match data_filterStatus c with
       | Some s => if falsy s then None else Some s
       | None => None
       end;
     opt_allValue := Some (or_else (data_filterAllValue c) (js "all"));
     opt_statusFormatter := None;
     opt_matchMode := None;
     opt_onBeforeFilter := None;
     opt_onAfterFilter := None |}.

Definition setBound (c : container) (this : GenericElementFilter) : container :=
  {| __genericElementFilter := Some this;
     data_filterElements := data_filterElements c;
     data_filterStatus := data_filterStatus c;
     data_filterNoResults := data_filterNoResults c;
     data_filterAllValue := data_filterAllValue c;
     scope := scope c |}.

(** The callback of the [forEach] in [bindAll]. *)
Definition bindContainer (c : container) : M container :=
  match __genericElementFilter c with
  | Some _ => ret c
  | None =>
      match data_filterElements c with
      | None => ret c
      | Some elementsSelector =>
          if falsy elementsSelector then ret c
          else
            this <- constructor (scope c) (Some elementsSelector)
                                (bindOptions c) ;;
            ret (setBound c this)
      end
  end.

(** [bindAll], given the containers the query for
    [[data-filter-elements]] finds. *)
Fixpoint bindAll (containers : list container) : M (list container) :=
  match containers with
  | [] => ret []
  | c :: rest =>
      c' <- bindContainer c ;;
      rest' <- bindAll rest ;;
      ret (c' :: rest')
  end.

(** A container [bindAll] will bind: not bound yet, and with a
    selector that is not empty. *)
Definition bindable (c : container) : bool :=
  match __genericElementFilter c, data_filterElements c with
  | None, Some elementsSelector => negb (falsy elementsSelector)
  | _, _ => false
  end.

(** How a container comes out of [bindAll]. *)
Definition bound_from (c c' : container) : Prop :=
  if bindable c then
    exists this,
      c' = setBound c this /\
      Some (elementsSelector this) = data_filterElements c /\
      filtersSelector this = js "[name]" /\
      statusSelector this
      = match data_filterStatus c with
        | Some s => if falsy s then None else Some s
        | None => None
        end /\
      noResultsSelector this
      = or_else (data_filterNoResults c) (js ".no-results-message") /\
      allValue this = or_else (data_filterAllValue c) (js "all") /\
      matchMode this = Equals /\
      onBeforeFilter this = None /\ onAfterFilter this = None
  else c' = c.

(** Two containers on the sample page: one declares the cards, the
    other has an empty selector. *)
Module Containers.

Definition cards : container :=
  {| __genericElementFilter := None;
     data_filterElements := Some (js ".card");
     data_filterStatus := Some (js ".status");
     data_filterNoResults := None;
     data_filterAllValue := Some [];
     scope := Sample.page [] |}.

Definition empty : container :=
  {| __genericElementFilter := None;
     data_filterElements := Some [];
     data_filterStatus := None;
     data_filterNoResults := None;
     data_filterAllValue := None;
     scope := Sample.page [] |}.

(** What [bindAll] returned, or nothing if it threw. *)
Definition returned (r : outcome (list container) * world) : list container :=
  match r.1 with
  | Normal cs => cs
  | Thrown _ => []
  end.

End Containers.

(** * Properties *)

(** ** Trimming and splitting *)

Section strings.
Implicit Types (s a b p : jsstring) (ps : list jsstring).

Lemma comma_not_ws : is_ws comma = false.
Proof. reflexivity. Qed.

Lemma ws_not_comma c : is_ws c = true -> N.eqb c comma = false.
Proof.
  intros Hc. destruct (N.eqb c comma) eqn:E; [|done].
  apply N.eqb_eq in E. subst c. by rewrite comma_not_ws in Hc.
Qed.

Lemma has_comma_cons c s :
  has_comma (c :: s) = N.eqb c comma || has_comma s.
Proof. unfold has_comma. cbn [existsb]. by rewrite N.eqb_sym. Qed.

Lemma forallb_cons_true {A} (f : A -> bool) x l :
  forallb f (x :: l) = true -> f x = true /\ forallb f l = true.
Proof. cbn [forallb]. apply andb_true_iff. Qed.

Lemma all_ws_no_comma a : forallb is_ws a = true -> has_comma a = false.
Proof.
  induction a as [|c a IH]; [done|].
  intros [Hc Ha]%forallb_cons_true.
  by rewrite has_comma_cons, (IH Ha), ws_not_comma.
Qed.

Lemma trimStart_all_ws a : forallb is_ws a = true -> trimStart a = [].
Proof.
  induction a as [|c a IH]; [done|]. simpl.
  intros [Hc Ha]%andb_true_iff. rewrite Hc. auto.
Qed.

Lemma trimEnd_all_ws b : forallb is_ws b = true -> trimEnd b = [].
Proof.
  induction b as [|c b IH]; [done|]. simpl.
  intros [Hc Hb]%andb_true_iff. by rewrite (IH Hb), Hc.
Qed.

Lemma trimStart_app_ws a s :
  forallb is_ws a = true -> trimStart (a ++ s) = trimStart s.
Proof.
  induction a as [|c a IH]; [done|]. simpl.
  intros [Hc Ha]%andb_true_iff. rewrite Hc. auto.
Qed.

Lemma trimEnd_app_ws s b :
  forallb is_ws b = true -> trimEnd (s ++ b) = trimEnd s.
Proof.
  intros Hb. induction s as [|c s IH]; simpl.
  - by apply trimEnd_all_ws.
  - by rewrite IH.
Qed.

Lemma trimStart_split s :
  exists a, s = a ++ trimStart s /\ forallb is_ws a = true.
Proof.
  induction s as [|c s (a & Hs & Ha)]; [by exists []|]. simpl.
  destruct (is_ws c) eqn:Hc.
  - exists (c :: a). simpl. rewrite Hc, Ha. split; [by f_equal|done].
  - by exists [].
Qed.

Lemma trimEnd_split s :
  exists b, s = trimEnd s ++ b /\ forallb is_ws b = true.
Proof.
  induction s as [|c s (b & Hs & Hb)]; [by exists []|]. simpl.
  destruct (trimEnd s) as [|t ts] eqn:Et.
  - simpl in Hs. subst s. destruct (is_ws c) eqn:Hc.
    + exists (c :: b). simpl. by rewrite Hc, Hb.
    + by exists b.
  - exists b. split; [|done]. simpl. by rewrite Hs at 1.
Qed.

Lemma trim_split s :
  exists a b, s = a ++ trim s ++ b /\
              forallb is_ws a = true /\ forallb is_ws b = true.
Proof.
  destruct (trimStart_split s) as (a & Hs & Ha).
  destruct (trimEnd_split (trimStart s)) as (b & Ht & Hb).
  exists a, b. unfold trim. by rewrite <- Ht.
Qed.

Lemma trimStart_app s b :
  trimStart (s ++ b)
  = if forallb is_ws s then trimStart b else trimStart s ++ b.
Proof.
  induction s as [|c s IH]; [done|]. simpl.
  destruct (is_ws c); simpl; done.
Qed.

Lemma trim_app_ws_l a s : forallb is_ws a = true -> trim (a ++ s) = trim s.
Proof. intros Ha. unfold trim. by rewrite trimStart_app_ws. Qed.

Lemma trim_app_ws_r s b : forallb is_ws b = true -> trim (s ++ b) = trim s.
Proof.
  intros Hb. unfold trim. rewrite trimStart_app.
  destruct (forallb is_ws s) eqn:Hs.
  - by rewrite (trimStart_all_ws b), (trimStart_all_ws s).
  - by apply trimEnd_app_ws.
Qed.

(** Splitting on commas *)

Lemma split_comma_no_comma b : has_comma b = false -> split_comma b = [b].
Proof.
  induction b as [|c b IH]; [done|]. rewrite has_comma_cons.
  intros [Hc Hb]%orb_false_iff. cbn [split_comma].
  by rewrite Hc, (IH Hb).
Qed.

Lemma split_comma_app_l a s p ps :
  has_comma a = false -> split_comma s = p :: ps ->
  split_comma (a ++ s) = (a ++ p) :: ps.
Proof.
  intros Ha Hs. induction a as [|c a IH]; [done|].
  rewrite has_comma_cons in Ha.
  apply orb_false_iff in Ha as [Hc Ha].
  cbn [app split_comma]. by rewrite Hc, (IH Ha).
Qed.

Lemma split_comma_app_r s b :
  has_comma b = false ->
  exists ps p, split_comma s = ps ++ [p] /\
               split_comma (s ++ b) = ps ++ [p ++ b].
Proof.
  intros Hb. induction s as [|c s (ps & p & Hs & Hsb)]; simpl.
  - exists [], []. by rewrite split_comma_no_comma.
  - rewrite Hs, Hsb. destruct (N.eqb c comma).
    + by exists ([] :: ps), p.
    + destruct ps as [|q ps]; simpl.
      * by exists [], (c :: p).
      * by exists ((c :: q) :: ps), p.
Qed.

(** Splitting on white space *)

Lemma truthy_split_ws_flag s :
  List.filter truthy (split_ws_from true s)
  = List.filter truthy (split_ws_from false s).
Proof. destruct s as [|c s]; [done|]. simpl. by destruct (is_ws c). Qed.

Lemma truthy_split_ws_app_l f f' a s :
  forallb is_ws a = true ->
  List.filter truthy (split_ws_from f (a ++ s))
  = List.filter truthy (split_ws_from f' s).
Proof.
  revert f. induction a as [|c a IH]; intros f.
  - intros _. simpl. destruct f, f'; auto using truthy_split_ws_flag.
  - simpl. intros [Hc Ha]%andb_true_iff. rewrite Hc.
    destruct f; simpl; by apply IH.
Qed.

Lemma split_ws_all_ws f b :
  forallb is_ws b = true ->
  exists k, split_ws_from f b = [] :: replicate k [].
Proof.
  revert f. induction b as [|c b IH]; intros f; [by exists 0|]. simpl.
  intros [Hc Hb]%andb_true_iff. rewrite Hc.
  destruct (IH true Hb) as [k Hk]. rewrite Hk. destruct f.
  - by exists k.
  - by exists (S k).
Qed.

Lemma split_ws_nonempty f s : split_ws_from f s ≠ [].
Proof.
  revert f. induction s as [|c s IH]; intros f; [done|]. simpl.
  destruct (is_ws c).
  - destruct f; [apply IH|done].
  - specialize (IH false). by destruct (split_ws_from false s).
Qed.

Lemma split_ws_app_r f s b :
  forallb is_ws b = true ->
  exists k, split_ws_from f (s ++ b) = split_ws_from f s ++ replicate k [].
Proof.
  intros Hb. revert f. induction s as [|c s IH]; intros f; simpl.
  - destruct (split_ws_all_ws f b Hb) as [k Hk]. by exists k.
  - destruct (is_ws c).
    + destruct (IH true) as [k Hk]. rewrite Hk. exists k. by destruct f.
    + destruct (IH false) as [k Hk]. rewrite Hk. exists k.
      pose proof (split_ws_nonempty false s).
      by destruct (split_ws_from false s).
Qed.

Lemma truthy_replicate_empty ps k :
  List.filter truthy (ps ++ replicate k []) = List.filter truthy ps.
Proof.
  rewrite List.filter_app.
  replace (List.filter truthy (replicate k [])) with (@nil jsstring).
  - by rewrite app_nil_r.
  - induction k; simpl; done.
Qed.

(** A piece of a white-space split holds no white space, so trimming
    leaves it alone. *)
Lemma trim_no_ws p : forallb (fun c => negb (is_ws c)) p = true -> trim p = p.
Proof.
  intros Hp. unfold trim.
  assert (Hs : trimStart p = p).
  { destruct p as [|c p]; [done|]. simpl in *.
    apply andb_true_iff in Hp as [Hc _]. by destruct (is_ws c). }
  rewrite Hs. induction p as [|c p IH]; [done|]. simpl in *.
  apply andb_true_iff in Hp as [Hc Hp].
  assert (Hs' : trimStart p = p).
  { destruct p as [|c' p]; [done|]. simpl in *.
    apply andb_true_iff in Hp as [Hc' _]. by destruct (is_ws c'). }
  rewrite (IH Hp Hs'). destruct p; [|done]. by destruct (is_ws c).
Qed.

Lemma split_ws_pieces f s :
  Forall (fun p => forallb (fun c => negb (is_ws c)) p = true)
         (split_ws_from f s).
Proof.
  revert f. induction s as [|c s IH]; intros f; simpl.
  - by repeat constructor.
  - destruct (is_ws c) eqn:Hc.
    + destruct f; [apply IH|constructor; [done|apply IH]].
    + specialize (IH false).
      destruct (split_ws_from false s) as [|p ps]; simpl.
      * repeat constructor. simpl. by rewrite Hc.
      * inversion IH; subst. constructor; [|done]. simpl. by rewrite Hc.
Qed.

Lemma map_trim_split_ws f s :
  map trim (split_ws_from f s) = split_ws_from f s.
Proof.
  induction (split_ws_pieces f s) as [|p ps Hp _ IH]; [done|].
  simpl. by rewrite IH, trim_no_ws.
Qed.

(** The written rule gives the same tokens before and after the
    leading [trim] of the code. *)
Lemma spec_tokens_trim s : spec_tokens (trim s) = spec_tokens s.
Proof.
  destruct (trim_split s) as (a & b & Hs & Ha & Hb).
  unfold spec_tokens.
  assert (Hc : has_comma s = has_comma (trim s)).
  { rewrite Hs at 1. unfold has_comma. rewrite !existsb_app.
    fold (has_comma a) (has_comma b) (has_comma (trim s)).
    by rewrite (all_ws_no_comma a), (all_ws_no_comma b), orb_false_r. }
  rewrite Hc. destruct (has_comma (trim s)).
  - rewrite Hs at 2.
    destruct (split_comma_app_r (trim s) b (all_ws_no_comma b Hb))
      as (ps & p & Hm & Hmb).
    rewrite Hm.
    assert (Hl : exists q qs, split_comma (trim s ++ b) = q :: qs /\
                 map trim (q :: qs) = map trim (ps ++ [p])).
    { rewrite Hmb. destruct ps as [|q qs]; simpl.
      - exists (p ++ b), []. by rewrite trim_app_ws_r.
      - exists q, (qs ++ [p ++ b]). split; [done|].
        rewrite !map_app. simpl. by rewrite trim_app_ws_r. }
    destruct Hl as (q & qs & Hq & Hmap).
    rewrite (split_comma_app_l a _ q qs (all_ws_no_comma a Ha) Hq).
    rewrite <- Hmap. simpl. by rewrite trim_app_ws_l.
  - unfold split_ws. rewrite !map_trim_split_ws. rewrite Hs at 2.
    rewrite (truthy_split_ws_app_l false false a) by done.
    destruct (split_ws_app_r false (trim s) b Hb) as [k Hk].
    by rewrite Hk, truthy_replicate_empty.
Qed.

Lemma spec_tokens_blank s : trim s = [] -> spec_tokens s = [].
Proof. intros Hs. by rewrite <- spec_tokens_trim, Hs. Qed.

Lemma containsToken_spec declared v :
  containsToken declared v = true <-> v ∈ spec_tokens declared.
Proof.
  unfold containsToken. fold (spec_tokens (trim declared)).
  destruct (trim declared) as [|c m] eqn:Em; simpl.
  - rewrite (spec_tokens_blank declared Em). split; [done|].
    by intros ?%elem_of_nil.
  - rewrite <- Em, spec_tokens_trim, existsb_exists. split.
    + intros (p & Hp%list_elem_of_In & ->%bool_decide_eq_true). done.
    + intros Hv. exists v. split; [by apply list_elem_of_In|].
      by apply bool_decide_eq_true.
Qed.
End strings.

(** C2. In contains mode, a key whose filter value is not the sentinel
    and for which the element declares a value contributes true iff the
    filter value is one of the tokens of the declared value: split on
    commas if there is a comma, otherwise on white-space runs, trim each
    token, drop the empty ones. *)
Theorem contains_mode_matches_some_token all ds k declared v :
  ds !! k = Some declared ->
  v ≠ all ->
  (filterContributes all Contains ds k v = Normal true
   <-> v ∈ spec_tokens declared) /\
  (filterContributes all Contains ds k v = Normal false
   <-> v ∉ spec_tokens declared).
Proof.
  intros Hk Hv. unfold filterContributes, dataset_read.
  rewrite bool_decide_eq_false_2, Hk by done.
  pose proof (containsToken_spec declared v) as Hspec.
  destruct (containsToken declared v); split; split.
  - intros _. by apply Hspec.
  - done.
  - done.
  - intros Hn. by destruct Hn; apply Hspec.
  - done.
  - intros Hin%Hspec. done.
  - intros _ Hin%Hspec. done.
  - done.
Qed.

Lemma contains_mode_witness :
  let commas : gmap jsstring jsstring := {[ js "tag" := js "forest, meadow" ]} in
  let spaces : gmap jsstring jsstring := {[ js "tag" := js "forest meadow" ]} in
  let hit ds v := filterContributes (js "all") Contains ds (js "tag") v in
  (commas !! js "tag" = Some (js "forest, meadow") /\ js "forest" ≠ js "all") /\
  hit commas (js "forest") = Normal true /\
  hit commas (js "meadow") = Normal true /\
  hit commas (js "fore") = Normal false /\
  hit spaces (js "forest") = Normal true /\
  hit spaces (js "meadow") = Normal true /\
  hit spaces (js "fore") = Normal false.
Proof.
  intros commas spaces hit.
  assert (Hin : forall ds d v,
    ds !! js "tag" = Some d -> v ≠ js "all" ->
    hit ds v = Normal (bool_decide (v ∈ spec_tokens d))).
  { intros ds d v Hd Hv.
    destruct (contains_mode_matches_some_token (js "all") ds (js "tag")
                d v Hd Hv) as [Hyes Hno].
    unfold hit. case_bool_decide as Hx.
    - by apply Hyes.
    - by apply Hno. }
  split_and!.
  - reflexivity.
  - discriminate.
  - by rewrite (Hin commas (js "forest, meadow")).
  - by rewrite (Hin commas (js "forest, meadow")).
  - by rewrite (Hin commas (js "forest, meadow")).
  - by rewrite (Hin spaces (js "forest meadow")).
  - by rewrite (Hin spaces (js "forest meadow")).
  - by rewrite (Hin spaces (js "forest meadow")).
Defined.

(** ** Own properties *)

Section properties.
Implicit Types (props : properties) (key k value v : jsstring).

Lemma get_nil key : get key [] = None.
Proof. done. Qed.

Lemma get_cons key k v props :
  get key ((k, v) :: props)
  = if bool_decide (k = key) then Some v else get key props.
Proof. unfold get. cbn [List.find fst]. by destruct (bool_decide (k = key)). Qed.

Lemma get_overwrite_eq key value props :
  is_Some (get key props) -> get key (overwrite key value props) = Some value.
Proof.
  induction props as [|[k v] props IH]; [by intros [? ?]|].
  rewrite get_cons. cbn [overwrite]. case_bool_decide as E.
  - intros _. rewrite get_cons. by rewrite bool_decide_eq_true_2.
  - intros H. rewrite get_cons, bool_decide_eq_false_2 by done. by apply IH.
Qed.

Lemma get_overwrite_ne key k value props :
  k ≠ key -> get k (overwrite key value props) = get k props.
Proof.
  intros Hk. induction props as [|[k' v] props IH]; [done|].
  cbn [overwrite]. case_bool_decide as E.
  - subst k'. by rewrite !get_cons, !bool_decide_eq_false_2.
  - rewrite !get_cons. by rewrite IH.
Qed.

Lemma get_create_eq key value props :
  get key props = None -> get key (create key value props) = Some value.
Proof.
  induction props as [|[k v] props IH].
  - intros _. cbn [create]. by rewrite get_cons, bool_decide_eq_true_2.
  - rewrite get_cons. case_bool_decide as E; [done|]. intros H.
    cbn [create]. destruct (listed_before key k).
    + by rewrite get_cons, bool_decide_eq_true_2.
    + rewrite get_cons, bool_decide_eq_false_2 by done. by apply IH.
Qed.

Lemma get_create_ne key k value props :
  k ≠ key -> get k (create key value props) = get k props.
Proof.
  intros Hk. induction props as [|[k' v] props IH].
  - cbn [create]. by rewrite get_cons, bool_decide_eq_false_2.
  - cbn [create]. destruct (listed_before key k').
    + by rewrite (get_cons k key), bool_decide_eq_false_2.
    + rewrite !get_cons. by rewrite IH.
Qed.

Lemma set_proto value props : set proto value props = props.
Proof. unfold set. by rewrite bool_decide_eq_true_2. Qed.

Lemma get_set_eq key value props :
  key ≠ proto -> get key (set key value props) = Some value.
Proof.
  intros Hk. unfold set. rewrite bool_decide_eq_false_2 by done.
  destruct (get key props) eqn:E.
  - apply get_overwrite_eq. by rewrite E.
  - by apply get_create_eq.
Qed.

Lemma get_set_ne key k value props :
  k ≠ key -> get k (set key value props) = get k props.
Proof.
  intros Hk. unfold set. case_bool_decide; [done|].
  destruct (get key props).
  - by apply get_overwrite_ne.
  - by apply get_create_ne.
Qed.

(** A read after a write. *)
Lemma get_set key k value props :
  get k (set key value props)
  = if bool_decide (k = key) && storable key then Some value
    else get k props.
Proof.
  unfold storable. case_bool_decide as Ek; cbn [andb].
  - subst k. case_bool_decide as Ep; cbn [negb].
    + by rewrite Ep, set_proto.
    + by apply get_set_eq.
  - by apply get_set_ne.
Qed.

Lemma get_is_Some key props :
  is_Some (get key props) <-> key ∈ map fst props.
Proof.
  induction props as [|[k v] props IH].
  - split; [by intros [? ?]|by intros ?%elem_of_nil].
  - rewrite get_cons. cbn [map fst]. rewrite elem_of_cons.
    case_bool_decide as E.
    + split; [by left|by eexists].
    + rewrite IH. split; [by right|]. by intros [->|?].
Qed.

Lemma get_elem_of key value props :
  get key props = Some value -> (key, value) ∈ props.
Proof.
  induction props as [|[k v] props IH]; [done|].
  rewrite get_cons. case_bool_decide as E.
  - intros [= ->]. subst. by left.
  - intros H. right. by apply IH.
Qed.

Lemma elem_of_get key value props :
  NoDup (map fst props) -> (key, value) ∈ props -> get key props = Some value.
Proof.
  induction props as [|[k v] props IH]; [by intros _ ?%elem_of_nil|].
  cbn [map fst]. intros [Hk Hnd]%NoDup_cons [[= -> ->]|Hin]%elem_of_cons.
  - by rewrite get_cons, bool_decide_eq_true_2.
  - rewrite get_cons. case_bool_decide as E; [|by apply IH].
    subst k. destruct Hk. apply list_elem_of_In, in_map_iff.
    exists (key, value). split; [done|]. by apply list_elem_of_In.
Qed.

Lemma keys_overwrite key value props :
  map fst (overwrite key value props) = map fst props.
Proof.
  induction props as [|[k v] props IH]; [done|]. cbn [overwrite].
  case_bool_decide; cbn [map fst]; [done|]. by rewrite IH.
Qed.

Lemma keys_create key value props :
  map fst (create key value props) ≡ₚ key :: map fst props.
Proof.
  induction props as [|[k v] props IH]; [done|]. cbn [create].
  destruct (listed_before key k); cbn [map fst]; [done|].
  rewrite IH. apply Permutation_swap.
Qed.

Lemma keys_set key value props :
  forall k, k ∈ map fst (set key value props)
            <-> k ∈ map fst props \/ (k = key /\ key ≠ proto).
Proof.
  intros k. unfold set. case_bool_decide as Ep.
  - split; [by left|]. by intros [?|[_ ?]].
  - destruct (get key props) eqn:E.
    + rewrite keys_overwrite. split; [by left|]. intros [?|[-> _]]; [done|].
      apply get_is_Some. by rewrite E.
    + rewrite keys_create, elem_of_cons. split.
      * intros [->|?]; [by right|by left].
      * intros [?|[-> _]]; [by right|by left].
Qed.

Lemma NoDup_keys_set key value props :
  NoDup (map fst props) -> NoDup (map fst (set key value props)).
Proof.
  intros Hnd. unfold set. case_bool_decide; [done|].
  destruct (get key props) eqn:E.
  - by rewrite keys_overwrite.
  - rewrite keys_create. apply NoDup_cons. split; [|done].
    intros Hin%get_is_Some. rewrite E in Hin. by destruct Hin.
Qed.




End properties.

(** ** [every] *)

Lemma every_true {A} (f : A -> outcome bool) (items : list A) :
  every f items = Normal true <-> Forall (fun x => f x = Normal true) items.
Proof.
  induction items as [|x items IH]; [by split|]. cbn [every].
  rewrite Forall_cons. destruct (f x) as [[]|e].
  - rewrite IH. by split; [|intros [_ ?]].
  - by split; [|intros [? _]].
  - by split; [|intros [? _]].
Qed.

(** When the callback throws for no item, the order of the items does
    not matter. *)
Lemma every_total {A} (f : A -> outcome bool) (items : list A) :
  Forall (fun x => exists b, f x = Normal b) items ->
  every f items
  = Normal (forallb (fun x => match f x with Normal b => b | _ => false end)
                    items).
Proof.
  induction 1 as [|x items [b Hb] Hall IH]; [done|].
  cbn [every forallb]. rewrite Hb. destruct b; [|done]. by rewrite IH.
Qed.

Lemma every_app {A} (f : A -> outcome bool) (xs ys : list A) :
  every f (xs ++ ys)
  = match every f xs with
    | Normal true => every f ys
    | o => o
    end.
Proof.
  induction xs as [|x xs IH]; [done|]. cbn [app every].
  destruct (f x) as [[]|e]; [|done..]. apply IH.
Qed.

(** ** Loops that may stop *)

(** What [until_throw] gives depends on the outcomes only. *)
Lemma until_throw_ext {A B} (f g : A -> outcome B) items :
  (forall x, x ∈ items -> f x = g x) ->
  until_throw f items = until_throw g items.
Proof.
  induction items as [|x items IH]; [done|]. intros Hfg.
  cbn [until_throw]. rewrite <- (Hfg x) by set_solver.
  destruct (f x); [|done]. rewrite IH; [done|]. intros y Hy. apply Hfg.
  set_solver.
Qed.

Lemma until_throw_all {A B} (f : A -> outcome B) items :
  (until_throw f items).2 = None -> (until_throw f items).1 = items.
Proof.
  induction items as [|x items IH]; [done|]. cbn [until_throw].
  destruct (f x); [|done]. cbn [fst snd]. intros H. by rewrite IH.
Qed.

Lemma until_throw_None {A B} (f : A -> outcome B) items :
  (until_throw f items).2 = None
  <-> forall x, x ∈ items -> exists b, f x = Normal b.
Proof.
  induction items as [|x items IH].
  - split; [by intros _ ? ?%elem_of_nil|done].
  - cbn [until_throw]. destruct (f x) as [b|e] eqn:E; cbn [snd].
    + rewrite IH. split.
      * intros H y [->|Hy]%elem_of_cons; [by exists b|by apply H].
      * intros H y Hy. apply H. by right.
    + split; [done|]. intros H. destruct (H x) as [b Hb]; [by left|].
      congruence.
Qed.

(** Where the loop stops: the items before are matched, the item it
    stops at throws. *)
Lemma until_throw_Some {A B} (f : A -> outcome B) items e :
  (until_throw f items).2 = Some e ->
  exists x rest,
    items = (until_throw f items).1 ++ x :: rest /\ f x = Thrown e /\
    forall y, y ∈ (until_throw f items).1 -> exists b, f y = Normal b.
Proof.
  induction items as [|x items IH]; [done|]. cbn [until_throw].
  destruct (f x) as [b|e'] eqn:E; cbn [fst snd].
  - intros (y & rest & Hi & Hy & Hall)%IH. exists y, rest. split_and!.
    + cbn [app]. by rewrite <- Hi.
    + done.
    + intros z [->|Hz]%elem_of_cons; [by exists b|by apply Hall].
  - intros [= ->]. exists x, items. split_and!; [done..|].
    by intros ? ?%elem_of_nil.
Qed.

Lemma until_throw_sublist {A B} (f : A -> outcome B) items x :
  x ∈ (until_throw f items).1 -> x ∈ items.
Proof.
  induction items as [|y items IH]; [done|]. cbn [until_throw].
  destruct (f y); cbn [fst]; [|by intros ?%elem_of_nil].
  intros [->|H]%elem_of_cons; [by left|]. right. by apply IH.
Qed.

(** ** Store updates seen through the observations *)

Lemma lookup_with_hidden b l (h : gmap loc object) x :
  alter (with_hidden b) l h !! x
  = if decide (l = x) then with_hidden b <$> h !! x else h !! x.
Proof.
  destruct (decide (l = x)) as [->|Hne].
  - apply lookup_alter_eq.
  - by apply lookup_alter_ne.
Qed.

Lemma lookup_with_text t l (h : gmap loc object) x :
  alter (with_text t) l h !! x
  = if decide (l = x) then with_text t <$> h !! x else h !! x.
Proof.
  destruct (decide (l = x)) as [->|Hne].
  - apply lookup_alter_eq.
  - by apply lookup_alter_ne.
Qed.

Lemma insert_with_hidden b l n (h : gmap loc object) :
  h !! l = Some (Element n) ->
  <[l := Element {| dataset := dataset n; hidden := b;
                    textContent := textContent n |}]> h
  = alter (with_hidden b) l h.
Proof.
  intros Hl. apply map_eq. intros x. rewrite lookup_with_hidden.
  destruct (decide (l = x)) as [->|Hne].
  - rewrite lookup_insert_eq, Hl. reflexivity.
  - by rewrite lookup_insert_ne.
Qed.

Lemma insert_with_text t l n (h : gmap loc object) :
  h !! l = Some (Element n) ->
  <[l := Element {| dataset := dataset n; hidden := hidden n;
                    textContent := t |}]> h
  = alter (with_text t) l h.
Proof.
  intros Hl. apply map_eq. intros x. rewrite lookup_with_text.
  destruct (decide (l = x)) as [->|Hne].
  - rewrite lookup_insert_eq, Hl. reflexivity.
  - by rewrite lookup_insert_ne.
Qed.

Lemma core_with_hidden b o : core (with_hidden b o) = core o.
Proof. by destruct o. Qed.

Lemma core_with_text t o : core (with_text t o) = core o.
Proof. by destruct o. Qed.

Lemma same_core_refl h : same_core h h.
Proof. by intros l. Qed.

Lemma same_core_trans h1 h2 h3 :
  same_core h1 h2 -> same_core h2 h3 -> same_core h1 h3.
Proof. intros H12 H23 l. by rewrite H23, H12. Qed.

Lemma same_core_with_hidden b l h : same_core h (alter (with_hidden b) l h).
Proof.
  intros x. rewrite lookup_with_hidden. case_decide; [|done].
  destruct (h !! x) as [o|]; simpl; [|done]. by rewrite core_with_hidden.
Qed.

Lemma same_core_with_text t l h : same_core h (alter (with_text t) l h).
Proof.
  intros x. rewrite lookup_with_text. case_decide; [|done].
  destruct (h !! x) as [o|]; simpl; [|done]. by rewrite core_with_text.
Qed.

Lemma same_core_hide_all f items h : same_core h (hide_all f items h).
Proof.
  revert h. induction items as [|l items IH]; intros h; simpl.
  - apply same_core_refl.
  - eapply same_core_trans; [apply same_core_with_hidden|apply IH].
Qed.

Lemma same_core_settle this h : same_core h (settle this h).
Proof.
  unfold settle.
  destruct (statusElement this), (noResultsMessage this);
    repeat first [ apply same_core_hide_all
                 | eapply same_core_trans; [|apply same_core_with_text]
                 | eapply same_core_trans; [|apply same_core_with_hidden] ].
Qed.

(** Observations that depend on the core only. *)
Section same_core.
Context (h h' : gmap loc object) (Hc : same_core h h').

Lemma same_core_lookup_plain l props :
  h !! l = Some (PlainObject props) <-> h' !! l = Some (PlainObject props).
Proof using Hc.
  specialize (Hc l).
  destruct (h !! l) as [[]|], (h' !! l) as [[]|]; simpl in *;
    split; intros; simplify_eq; done.
Qed.

Lemma same_core_lookup_array l items :
  h !! l = Some (Array items) <-> h' !! l = Some (Array items).
Proof using Hc.
  specialize (Hc l).
  destruct (h !! l) as [[]|], (h' !! l) as [[]|]; simpl in *;
    split; intros; simplify_eq; done.
Qed.

Lemma same_core_is_element l : is_element h l <-> is_element h' l.
Proof using Hc.
  specialize (Hc l). unfold is_element.
  destruct (h !! l) as [[]|], (h' !! l) as [[]|]; simpl in *;
    split; intros [? ?]; simplify_eq; eauto.
Qed.

Lemma same_core_state this : state_of this h' = state_of this h.
Proof using Hc.
  unfold state_of. specialize (Hc (currentFilters this)).
  destruct (h !! _) as [[]|], (h' !! _) as [[]|]; simpl in *;
    simplify_eq; done.
Qed.

Lemma same_core_tracked this : tracked this h' = tracked this h.
Proof using Hc.
  unfold tracked. specialize (Hc (elements this)).
  destruct (h !! _) as [[]|], (h' !! _) as [[]|]; simpl in *;
    simplify_eq; done.
Qed.

Lemma same_core_dataset l : dataset_of h' l = dataset_of h l.
Proof using Hc.
  unfold dataset_of. specialize (Hc l).
  destruct (h !! _) as [[]|], (h' !! _) as [[]|]; simpl in *;
    simplify_eq; done.
Qed.

Lemma same_core_verdict this l : verdict this h' l = verdict this h l.
Proof using Hc.
  unfold verdict. by rewrite same_core_state, same_core_dataset.
Qed.

Lemma same_core_passes this l : passes this h' l = passes this h l.
Proof using Hc. unfold passes. by rewrite same_core_verdict. Qed.

Lemma same_core_handled this : handled this h' = handled this h.
Proof using Hc.
  unfold handled. rewrite same_core_tracked. apply until_throw_ext.
  intros l _. apply same_core_verdict.
Qed.

Lemma same_core_dom : dom h' = dom h.
Proof using Hc.
  apply set_eq. intros l. rewrite !elem_of_dom. specialize (Hc l).
  destruct (h !! l), (h' !! l); simpl in *; split; intros [? ?];
    simplify_eq; eauto.
Qed.

Lemma same_core_well_formed this : well_formed this h -> well_formed this h'.
Proof using Hc.
  intros (Hs & Ha & Ht & Hn & Hst). unfold well_formed.
  rewrite same_core_tracked. split_and!.
  - destruct Hs as [p Hp]. exists p. by apply same_core_lookup_plain.
  - destruct Ha as [p Hp]. exists p. by apply same_core_lookup_array.
  - intros l Hl. apply same_core_is_element; auto.
  - intros l Hl. apply same_core_is_element; auto.
  - intros l Hl. apply same_core_is_element; auto.
Qed.
End same_core.

(** ** Running the stages of a pass on a well-formed store *)

Lemma hide_all_cons f l items (h : gmap loc object) :
  hide_all f (l :: items) h = hide_all f items (alter (with_hidden (f l)) l h).
Proof. reflexivity. Qed.

Lemma hide_all_lookup_notin f items (h : gmap loc object) x :
  x ∉ items -> hide_all f items h !! x = h !! x.
Proof.
  revert h. induction items as [|l items IH]; intros h Hx; [done|].
  apply not_elem_of_cons in Hx as [Hne Hx].
  rewrite hide_all_cons, IH by done. by apply lookup_alter_ne.
Qed.

Lemma with_hidden_twice b o : with_hidden b (with_hidden b o) = with_hidden b o.
Proof. by destruct o. Qed.

Lemma hide_all_lookup_in f items (h : gmap loc object) x :
  x ∈ items -> hide_all f items h !! x = with_hidden (f x) <$> h !! x.
Proof.
  revert h. induction items as [|l items IH]; intros h Hx.
  - by apply not_elem_of_nil in Hx.
  - rewrite hide_all_cons. destruct (decide (x ∈ items)) as [Hin|Hin].
    + rewrite IH, lookup_with_hidden by done.
      destruct (decide (l = x)) as [->|]; [|done].
      destruct (h !! x); simpl; [|done]. by rewrite with_hidden_twice.
    + apply elem_of_cons in Hx as [->|?]; [|done].
      rewrite hide_all_lookup_notin by done. apply lookup_alter_eq.
Qed.

Lemma hide_all_lookup f items (h : gmap loc object) x :
  hide_all f items h !! x
  = if decide (x ∈ items) then with_hidden (f x) <$> h !! x else h !! x.
Proof.
  destruct (decide (x ∈ items)).
  - by apply hide_all_lookup_in.
  - by apply hide_all_lookup_notin.
Qed.

Lemma matchElement_run this st l w n :
  heap w !! currentFilters this = Some (PlainObject st) ->
  heap w !! l = Some (Element n) ->
  matchElement this l w
  = (matchesAllFilters (allValue this) (matchMode this) st (dataset n), w).
Proof.
  intros Hs Hl. unfold matchElement, bind, readObject, readElement.
  by rewrite Hs, Hl.
Qed.

Lemma setHidden_run l b w n :
  heap w !! l = Some (Element n) ->
  setHidden l b w
  = (Normal tt,
     {| heap := alter (with_hidden b) l (heap w); trace := trace w |}).
Proof.
  intros Hl. unfold setHidden, bind, readElement, writeElement.
  rewrite Hl. by rewrite (insert_with_hidden b l n).
Qed.

Lemma setTextContent_run l t w n :
  heap w !! l = Some (Element n) ->
  setTextContent l t w
  = (Normal tt,
     {| heap := alter (with_text t) l (heap w); trace := trace w |}).
Proof.
  intros Hl. unfold setTextContent, bind, readElement, writeElement.
  rewrite Hl. by rewrite (insert_with_text t l n).
Qed.

Lemma forEachElement_run this st (V : loc -> outcome bool) items :
  forall b k w,
    heap w !! currentFilters this = Some (PlainObject st) ->
    (forall l, l ∈ items -> is_element (heap w) l) ->
    (forall l, l ∈ items ->
       V l = matchesAllFilters (allValue this) (matchMode this) st
               (dataset_of (heap w) l)) ->
    let P l := match V l with Normal v => v | Thrown _ => false end in
    let r := until_throw V items in
    forEachElement this items b k w
    = (match r.2 with
       | None => Normal (b || existsb P items, k + length (List.filter P items))
       | Some e => Thrown e
       end,
       {| heap := hide_all (fun l => negb (P l)) r.1 (heap w);
          trace := trace w ++ map (fun l => HiddenSet l (negb (P l))) r.1 |}).
Proof.
  induction items as [|l items IH]; intros b k w Hs Hel HV P r.
  - simpl. unfold ret. rewrite orb_false_r, Nat.add_0_r, app_nil_r.
    by destruct w.
  - destruct (Hel l) as [n Hn]; [set_solver|].
    assert (HVl : V l = matchesAllFilters (allValue this) (matchMode this) st
                          (dataset n)).
    { rewrite HV by set_solver. unfold dataset_of. by rewrite Hn. }
    cbn [forEachElement]. unfold bind at 1.
    rewrite (matchElement_run this st l w n Hs Hn), <- HVl.
    subst r. cbn [until_throw].
    destruct (V l) as [v|e] eqn:EV.
    2:{ cbn [fst snd hide_all foldl map]. rewrite app_nil_r. by destruct w. }
    assert (EP : P l = v) by (unfold P; by rewrite EV).
    cbn [fst snd].
    set (w1 := {| heap := alter (with_hidden (negb v)) l (heap w);
                  trace := trace w ++ [HiddenSet l (negb v)] |}).
    assert (Hc : same_core (heap w) (heap w1))
      by apply same_core_with_hidden.
    assert (IH' : forall b' k',
      forEachElement this items b' k' w1
      = (match (until_throw V items).2 with
         | None => Normal (b' || existsb P items,
                           k' + length (List.filter P items))
         | Some e => Thrown e
         end,
         {| heap := hide_all (fun l => negb (P l))
                             (l :: (until_throw V items).1) (heap w);
            trace := trace w ++
                     map (fun l => HiddenSet l (negb (P l)))
                         (l :: (until_throw V items).1) |})).
    { intros b' k'. rewrite IH.
      - cbn [hide_all foldl map heap trace w1]. rewrite EP.
        by rewrite <- app_assoc.
      - by apply (same_core_lookup_plain _ _ Hc).
      - intros x Hx. apply (same_core_is_element _ _ Hc), Hel. set_solver.
      - intros x Hx. rewrite (same_core_dataset _ _ Hc). apply HV. set_solver. }
    destruct v.
    + unfold bind. rewrite (setHidden_run l false w n Hn). unfold emit.
      cbn [heap trace]. fold w1. rewrite IH'. cbn [List.filter existsb].
      rewrite EP. cbn [length]. rewrite orb_true_l, orb_true_r, Nat.add_succ_r.
      done.
    + unfold bind. rewrite (setHidden_run l true w n Hn). unfold emit.
      cbn [heap trace]. fold w1. rewrite IH'. cbn [List.filter existsb].
      rewrite EP. done.
Qed.

Lemma well_formed_state this h :
  well_formed this h ->
  h !! currentFilters this = Some (PlainObject (state_of this h)).
Proof. intros ([p Hp] & _). unfold state_of. by rewrite Hp. Qed.

Lemma well_formed_tracked this h :
  well_formed this h ->
  h !! elements this = Some (Array (tracked this h)).
Proof. intros (_ & [p Hp] & _). unfold tracked. by rewrite Hp. Qed.

Lemma well_formed_element this h l :
  well_formed this h -> l ∈ tracked this h -> is_element h l.
Proof. intros (_ & _ & H & _). apply H. Qed.

Lemma well_formed_noResults this h l :
  well_formed this h -> noResultsMessage this = Some l -> is_element h l.
Proof. intros (_ & _ & _ & H & _). apply H. Qed.

Lemma well_formed_status this h l :
  well_formed this h -> statusElement this = Some l -> is_element h l.
Proof. intros (_ & _ & _ & _ & H). apply H. Qed.

Lemma readArray_run this w :
  well_formed this (heap w) ->
  readArray (elements this) w = (Normal (tracked this (heap w)), w).
Proof.
  intros Hwf. unfold readArray. by rewrite (well_formed_tracked _ _ Hwf).
Qed.

Lemma readObject_run this w :
  well_formed this (heap w) ->
  readObject (currentFilters this) w = (Normal (state_of this (heap w)), w).
Proof.
  intros Hwf. unfold readObject. by rewrite (well_formed_state _ _ Hwf).
Qed.

Lemma loop_run this w :
  well_formed this (heap w) ->
  forEachElement this (tracked this (heap w)) false 0 w
  = (match (handled this (heap w)).2 with
     | None => Normal (hasVisible_of this (heap w), visibleCount_of this (heap w))
     | Some e => Thrown e
     end,
     aborted_world this w).
Proof.
  intros Hwf.
  rewrite (forEachElement_run this (state_of this (heap w))
             (verdict this (heap w))).
  - reflexivity.
  - by apply well_formed_state.
  - intros l. by apply well_formed_element.
  - reflexivity.
Qed.

(** When no match throws, the loop handles every tracked element. *)
Lemma aborted_world_total this w :
  matching_total this (heap w) ->
  aborted_world this w
  = {| heap := hide_all (fun l => negb (passes this (heap w) l))
                        (tracked this (heap w)) (heap w);
       trace := trace w ++ hidden_events this (heap w) |}.
Proof.
  intros Ht. unfold aborted_world, handled, hidden_events.
  by rewrite (until_throw_all _ _ Ht).
Qed.

Lemma updateNoResults_run this b w :
  (forall l, noResultsMessage this = Some l -> is_element (heap w) l) ->
  updateNoResults this b w
  = (Normal tt,
     {| heap := match noResultsMessage this with
                | Some t => alter (with_hidden b) t (heap w)
                | None => heap w
                end;
        trace := trace w ++ noResults_events this b |}).
Proof.
  intros Hel. unfold updateNoResults, noResults_events.
  destruct (noResultsMessage this) as [t|].
  - destruct (Hel t eq_refl) as [n Hn]. unfold bind.
    by rewrite (setHidden_run t b w n Hn).
  - unfold ret. rewrite app_nil_r. by destruct w.
Qed.

Lemma updateStatus_run this k w :
  (forall l, statusElement this = Some l -> is_element (heap w) l) ->
  updateStatus this k w
  = (Normal tt,
     {| heap := match statusElement this with
                | Some t => alter (with_text (statusFormatter this k)) t (heap w)
                | None => heap w
                end;
        trace := trace w ++ status_events this k |}).
Proof.
  intros Hel. unfold updateStatus, status_events.
  destruct (statusElement this) as [t|].
  - destruct (Hel t eq_refl) as [n Hn]. unfold bind.
    by rewrite (setTextContent_run t _ w n Hn).
  - unfold ret. rewrite app_nil_r. by destruct w.
Qed.

(** The three middle stages of a pass compute [settle], unless the
    match of an element throws. *)
Lemma settle_run this w :
  well_formed this (heap w) ->
  (items <- readArray (elements this) ;;
   counters <- forEachElement this items false 0 ;;
   updateNoResults this counters.1 ;;;
   updateStatus this counters.2 ;;;
   ret counters) w
  = match (handled this (heap w)).2 with
    | None =>
        (Normal (hasVisible_of this (heap w), visibleCount_of this (heap w)),
         settled_world this w)
    | Some e => (Thrown e, aborted_world this w)
    end.
Proof.
  intros Hwf. unfold bind at 1. rewrite readArray_run by done.
  unfold bind at 1. rewrite loop_run by done.
  destruct (handled this (heap w)).2 as [e|] eqn:Eh; [done|].
  rewrite aborted_world_total by done. cbn [fst snd].
  set (h1 := hide_all _ _ _).
  assert (Hc1 : same_core (heap w) h1) by apply same_core_hide_all.
  unfold bind at 1. rewrite updateNoResults_run; cbn [heap trace].
  2:{ intros l Hl. apply (same_core_is_element _ _ Hc1).
      by apply (well_formed_noResults this). }
  set (h2 := match noResultsMessage this with Some _ => _ | None => _ end).
  assert (Hc2 : same_core (heap w) h2).
  { subst h2. destruct (noResultsMessage this); [|done].
    eapply same_core_trans; [exact Hc1|apply same_core_with_hidden]. }
  unfold bind at 1. rewrite updateStatus_run; cbn [heap trace].
  2:{ intros l Hl. apply (same_core_is_element _ _ Hc2).
      by apply (well_formed_status this). }
  unfold ret, settled_world, settle, settle_events.
  rewrite <- !app_assoc. reflexivity.
Qed.

Lemma same_core_aborted this w : same_core (heap w) (heap (aborted_world this w)).
Proof. apply same_core_hide_all. Qed.

Lemma settle_lookup this h x :
  settle this h !! x = settle_at this h x (h !! x).
Proof.
  unfold settle, settle_at.
  destruct (statusElement this) as [s|], (noResultsMessage this) as [t|];
    rewrite ?lookup_with_text, ?lookup_with_hidden, hide_all_lookup;
    repeat case_decide; simplify_eq; try done.
Qed.

(** ** Stores that keep every existing object *)

Lemma preserved_refl h : preserved h h.
Proof. by intros l _. Qed.

Lemma preserved_trans h1 h2 h3 :
  preserved h1 h2 -> preserved h2 h3 -> preserved h1 h3.
Proof.
  intros H12 H23 l Hl. rewrite H23, H12; [done|done|].
  by rewrite H12.
Qed.

Lemma preserved_insert_fresh l o (h : gmap loc object) :
  h !! l = None -> preserved h (<[l := o]> h).
Proof.
  intros Hl x [v Hx]. apply lookup_insert_ne. intros ->. congruence.
Qed.

Lemma fresh_lookup (h : gmap loc object) : h !! fresh (dom h) = None.
Proof. apply not_elem_of_dom, is_fresh. Qed.

(** [hasVisibleElements] is true exactly when [visibleCount] is not 0. *)
Lemma existsb_count {A} (f : A -> bool) (l : list A) :
  existsb f l = negb (Nat.eqb (length (List.filter f l)) 0).
Proof.
  induction l as [|a l IH]; [done|]. simpl. destruct (f a); simpl; done.
Qed.

Lemma hasVisible_count this h :
  hasVisible_of this h = negb (Nat.eqb (visibleCount_of this h) 0).
Proof. apply existsb_count. Qed.

Section preserved.
Context (this : GenericElementFilter) (h h' : gmap loc object).
Context (Hp : preserved h h') (Hwf : well_formed this h).

Lemma preserved_is_element l : is_element h l -> is_element h' l.
Proof using Hp. intros [n Hn]. exists n. rewrite Hp; [done|]. by rewrite Hn. Qed.

Lemma preserved_state : state_of this h' = state_of this h.
Proof using Hp Hwf.
  unfold state_of. rewrite Hp; [done|].
  by rewrite (well_formed_state _ _ Hwf).
Qed.

Lemma preserved_tracked : tracked this h' = tracked this h.
Proof using Hp Hwf.
  unfold tracked. rewrite Hp; [done|].
  by rewrite (well_formed_tracked _ _ Hwf).
Qed.

Lemma preserved_well_formed : well_formed this h'.
Proof using Hp Hwf.
  unfold well_formed. rewrite preserved_tracked. split_and!.
  - exists (state_of this h). rewrite Hp; [|rewrite (well_formed_state _ _ Hwf)];
      [by apply well_formed_state|done].
  - exists (tracked this h).
    rewrite Hp; [|rewrite (well_formed_tracked _ _ Hwf)];
      [by apply well_formed_tracked|done].
  - intros l Hl. by apply preserved_is_element, (well_formed_element this).
  - intros l Hl. by apply preserved_is_element, (well_formed_noResults this).
  - intros l Hl. by apply preserved_is_element, (well_formed_status this).
Qed.

Lemma preserved_dataset l : is_Some (h !! l) -> dataset_of h' l = dataset_of h l.
Proof using Hp. intros Hl. unfold dataset_of. by rewrite Hp. Qed.

Lemma preserved_verdict l :
  is_Some (h !! l) -> verdict this h' l = verdict this h l.
Proof using Hp Hwf.
  intros Hl. unfold verdict. by rewrite preserved_state, preserved_dataset.
Qed.

Lemma preserved_verdict_tracked l :
  l ∈ tracked this h -> verdict this h' l = verdict this h l.
Proof using Hp Hwf.
  intros Hl. apply preserved_verdict.
  destruct (well_formed_element _ _ _ Hwf Hl) as [n Hn]. by rewrite Hn.
Qed.

Lemma preserved_passes_tracked l :
  l ∈ tracked this h -> passes this h' l = passes this h l.
Proof using Hp Hwf.
  intros Hl. unfold passes. by rewrite preserved_verdict_tracked.
Qed.

Lemma preserved_handled : handled this h' = handled this h.
Proof using Hp Hwf.
  unfold handled. rewrite preserved_tracked. apply until_throw_ext.
  intros l Hl. by apply preserved_verdict_tracked.
Qed.

Lemma preserved_matching_total :
  matching_total this h' <-> matching_total this h.
Proof using Hp Hwf. unfold matching_total. by rewrite preserved_handled. Qed.

Lemma preserved_visibleCount : visibleCount_of this h' = visibleCount_of this h.
Proof using Hp Hwf.
  unfold visibleCount_of. rewrite preserved_tracked. f_equal.
  apply filter_ext_in. intros l Hl%list_elem_of_In.
  by apply preserved_passes_tracked.
Qed.

Lemma preserved_hasVisible : hasVisible_of this h' = hasVisible_of this h.
Proof using Hp Hwf.
  by rewrite !hasVisible_count, preserved_visibleCount.
Qed.

Lemma preserved_hidden_events : hidden_events this h' = hidden_events this h.
Proof using Hp Hwf.
  unfold hidden_events. rewrite preserved_tracked.
  apply map_ext_in. intros l Hl%list_elem_of_In.
  by rewrite preserved_passes_tracked.
Qed.

Lemma preserved_settle_events : settle_events this h' = settle_events this h.
Proof using Hp Hwf.
  unfold settle_events.
  by rewrite preserved_hidden_events, preserved_hasVisible,
    preserved_visibleCount.
Qed.

Lemma preserved_settle_at x o : settle_at this h' x o = settle_at this h x o.
Proof using Hp Hwf.
  unfold settle_at.
  rewrite preserved_tracked, preserved_hasVisible, preserved_visibleCount.
  destruct (decide (x ∈ tracked this h)) as [Hx|]; [|done].
  by rewrite preserved_passes_tracked.
Qed.

Lemma preserved_settle : preserved (settle this h) (settle this h').
Proof using Hp Hwf.
  intros x Hx. rewrite !settle_lookup, preserved_settle_at.
  rewrite Hp; [done|].
  assert (Hd : dom (settle this h) = dom h)
    by apply same_core_dom, same_core_settle.
  apply elem_of_dom. rewrite <- Hd. by apply elem_of_dom.
Qed.
End preserved.

(** ** The hook calls *)

Lemma snapshot_preserved this h : preserved h (snapshot this h).2.
Proof.
  unfold snapshot. cbn [snd].
  eapply preserved_trans; apply preserved_insert_fresh, fresh_lookup.
Qed.

Lemma snapshot_fresh this h l :
  is_Some (h !! l) -> l ≠ (snapshot this h).1.1 /\ l ≠ (snapshot this h).1.2.
Proof.
  intros [o Ho]. unfold snapshot. cbn [fst snd]. split; intros ->.
  - by rewrite fresh_lookup in Ho.
  - pose proof (fresh_lookup (<[fresh (dom h) := PlainObject (state_of this h)]> h))
      as Hf.
    rewrite lookup_insert_ne in Hf; [congruence|].
    intros E. rewrite <- E in Ho. by rewrite fresh_lookup in Ho.
Qed.

Lemma alloc_copies_run this w :
  well_formed this (heap w) ->
  forall {A} (k : loc -> loc -> M A),
  (state <- readObject (currentFilters this) ;;
   stateCopy <- alloc (PlainObject state) ;;
   items <- readArray (elements this) ;;
   itemsCopy <- alloc (Array items) ;;
   k stateCopy itemsCopy) w
  = k (snapshot this (heap w)).1.1 (snapshot this (heap w)).1.2
      {| heap := (snapshot this (heap w)).2; trace := trace w |}.
Proof.
  intros Hwf A k. unfold bind at 1. rewrite readObject_run by done.
  unfold bind at 1. unfold alloc at 1. cbn [heap trace].
  unfold bind at 1. unfold readArray. cbn [heap].
  rewrite lookup_insert_ne.
  2:{ intros E. pose proof (well_formed_tracked _ _ Hwf) as Ht.
      rewrite <- E in Ht. by rewrite fresh_lookup in Ht. }
  rewrite (well_formed_tracked _ _ Hwf).
  unfold bind at 1. unfold alloc. cbn [heap trace]. reflexivity.
Qed.

Lemma runBeforeHook_run this w :
  well_formed this (heap w) ->
  runBeforeHook this w
  = match onBeforeFilter this with
    | None => (Normal tt, w)
    | Some hk => before_call this hk w
    end.
Proof.
  intros Hwf. unfold runBeforeHook. destruct (onBeforeFilter this) as [hk|]; [|done].
  rewrite (alloc_copies_run this w Hwf
             (fun c1 c2 => emit (BeforeHookCalled c1 c2) ;;;
                call hk {| before_currentFilters := c1; before_elements := c2 |})).
  reflexivity.
Qed.

Lemma runAfterHook_run this vc tc w :
  well_formed this (heap w) ->
  runAfterHook this vc tc w
  = match onAfterFilter this with
    | None => (Normal tt, w)
    | Some hk => after_call this hk vc tc w
    end.
Proof.
  intros Hwf. unfold runAfterHook. destruct (onAfterFilter this) as [hk|]; [|done].
  rewrite (alloc_copies_run this w Hwf
             (fun c1 c2 => emit (AfterHookCalled c1 vc tc c2) ;;;
                call hk {| after_currentFilters := c1; after_visibleCount := vc;
                           after_totalCount := tc; after_elements := c2 |})).
  reflexivity.
Qed.

Lemma before_call_preserved this hk w :
  mutates_only before_passed hk ->
  preserved (heap w) (heap (before_call this hk w).2).
Proof.
  intros Hd l Hl. unfold before_call. cbn [snd heap].
  destruct (snapshot_fresh this (heap w) l Hl) as [H1 H2].
  rewrite Hd.
  - by apply snapshot_preserved.
  - rewrite snapshot_preserved; done.
  - unfold before_passed. cbn [before_currentFilters before_elements].
    repeat (apply not_elem_of_cons; split; [done|]). apply not_elem_of_nil.
Qed.

Lemma after_call_preserved this hk vc tc w :
  mutates_only after_passed hk ->
  preserved (heap w) (heap (after_call this hk vc tc w).2).
Proof.
  intros Hd l Hl. unfold after_call. cbn [snd heap].
  destruct (snapshot_fresh this (heap w) l Hl) as [H1 H2].
  rewrite Hd.
  - by apply snapshot_preserved.
  - rewrite snapshot_preserved; done.
  - unfold after_passed. cbn [after_currentFilters after_elements].
    repeat (apply not_elem_of_cons; split; [done|]). apply not_elem_of_nil.
Qed.

Lemma runBeforeHook_preserved this w :
  well_formed this (heap w) -> disciplined this ->
  preserved (heap w) (heap (runBeforeHook this w).2).
Proof.
  intros Hwf [Hb _]. rewrite runBeforeHook_run by done.
  destruct (onBeforeFilter this) as [hk|] eqn:E.
  - apply before_call_preserved. by apply Hb.
  - apply preserved_refl.
Qed.

Lemma runAfterHook_preserved this vc tc w :
  well_formed this (heap w) -> disciplined this ->
  preserved (heap w) (heap (runAfterHook this vc tc w).2).
Proof.
  intros Hwf [_ Ha]. rewrite runAfterHook_run by done.
  destruct (onAfterFilter this) as [hk|] eqn:E.
  - apply after_call_preserved. by apply Ha.
  - apply preserved_refl.
Qed.

(** ** A pass, stage by stage *)

Lemma before_stage_preserved this w :
  disciplined this -> preserved (heap w) (heap (before_stage this w).2).
Proof.
  intros [Hb _]. unfold before_stage.
  destruct (onBeforeFilter this) as [hk|] eqn:E.
  - apply (before_call_preserved this hk
             {| heap := heap w; trace := trace w ++ [PassStarted] |}).
    by apply Hb.
  - apply preserved_refl.
Qed.

Lemma after_stage_preserved this vc tc w :
  disciplined this -> preserved (heap w) (heap (after_stage this vc tc w).2).
Proof.
  intros [_ Ha]. unfold after_stage.
  destruct (onAfterFilter this) as [hk|] eqn:E.
  - apply after_call_preserved. by apply Ha.
  - apply preserved_refl.
Qed.

(** [filterElements] on a well-formed store: the before hook, then
    [settle], then the after hook; a hook that throws ends the pass. *)
Lemma filterElements_run this w :
  well_formed this (heap w) -> disciplined this ->
  filterElements this w
  = match before_stage this w with
    | (Thrown e, w1) => (Thrown e, w1)
    | (Normal _, w1) =>
        match (handled this (heap w)).2 with
        | Some e => (Thrown e, aborted_world this w1)
        | None =>
            let vc := visibleCount_of this (heap w) in
            let tc := length (tracked this (heap w)) in
            match after_stage this vc tc (settled_world this w1) with
            | (Thrown e, w2) => (Thrown e, w2)
            | (Normal _, w2) => (Normal (vc, tc), w2)
            end
        end
    end.
Proof.
  intros Hwf Hd. unfold filterElements.
  unfold bind at 1. unfold emit at 1.
  set (w0 := {| heap := heap w; trace := trace w ++ [PassStarted] |}).
  assert (Hwf0 : well_formed this (heap w0)) by done.
  unfold bind at 1. rewrite readArray_run by done.
  unfold bind at 1. rewrite runBeforeHook_run by done.
  pose proof (before_stage_preserved this w Hd) as Hp.
  unfold before_stage in *. fold w0 in Hp |- *.
  destruct (match onBeforeFilter this with
            | Some hk => before_call this hk w0
            | None => (Normal (), w0)
            end) as [[[]|e] w1] eqn:Eb; [|done].
  cbn [snd] in Hp.
  assert (Hwf1 : well_formed this (heap w1))
    by (by eapply preserved_well_formed).
  pose proof (settle_run this w1 Hwf1) as Hs.
  rewrite (preserved_handled this (heap w) (heap w1)) in Hs by done.
  unfold bind in Hs |- *.
  destruct (handled this (heap w)).2 as [e0|] eqn:Eh.
  { destruct (readArray (elements this) w1) as [[items|e] w2];
      [|by simplify_eq].
    destruct (forEachElement this items false 0 w2) as [[c|e] w3];
      [|by simplify_eq].
    destruct (updateNoResults this c.1 w3) as [[[]|e] w4]; [|by simplify_eq].
    destruct (updateStatus this c.2 w4) as [[[]|e] w5]; [|by simplify_eq].
    done. }
  destruct (readArray (elements this) w1) as [[items|e] w2]; [|done].
  destruct (forEachElement this items false 0 w2) as [[c|e] w3]; [|done].
  destruct (updateNoResults this c.1 w3) as [[[]|e] w4]; [|done].
  destruct (updateStatus this c.2 w4) as [[[]|e] w5]; [|done].
  unfold ret in Hs. injection Hs as -> ->. cbn [fst snd heap].
  rewrite (preserved_visibleCount this (heap w) (heap w1)) by done.
  rewrite runAfterHook_run.
  2:{ apply (same_core_well_formed (heap w1)); [apply same_core_settle|done]. }
  unfold after_stage.
  destruct (match onAfterFilter this with
            | Some hk => _
            | None => _
            end) as [[[]|e] w6]; done.
Qed.

(** ** What a pass reads *)

Lemma same_inputs_refl this h : same_inputs this h h.
Proof. by split_and!. Qed.

Lemma same_inputs_trans this h1 h2 h3 :
  same_inputs this h1 h2 -> same_inputs this h2 h3 -> same_inputs this h1 h3.
Proof.
  intros (Hs1 & Ht1 & Hd1) (Hs2 & Ht2 & Hd2). split_and!.
  - by rewrite Hs2.
  - by rewrite Ht2.
  - intros l Hl. rewrite Hd2, Hd1; [done|done|]. by rewrite Ht1.
Qed.

Lemma preserved_same_inputs this h h' :
  well_formed this h -> preserved h h' -> same_inputs this h h'.
Proof.
  intros Hwf Hp. split_and!.
  - by apply preserved_state.
  - by apply preserved_tracked.
  - intros l Hl. apply preserved_dataset; [done|].
    destruct (well_formed_element _ _ _ Hwf Hl) as [n Hn]. by rewrite Hn.
Qed.

Lemma same_core_same_inputs this h h' :
  same_core h h' -> same_inputs this h h'.
Proof.
  intros Hc. split_and!.
  - by apply same_core_state.
  - by apply same_core_tracked.
  - intros l _. by apply same_core_dataset.
Qed.

Section same_inputs.
Context (this : GenericElementFilter) (h h' : gmap loc object).
Context (Hi : same_inputs this h h').

Lemma same_inputs_verdict l :
  l ∈ tracked this h -> verdict this h' l = verdict this h l.
Proof using Hi.
  destruct Hi as (Hs & Ht & Hd). intros Hl. unfold verdict.
  by rewrite Hs, Hd.
Qed.

Lemma same_inputs_passes l :
  l ∈ tracked this h -> passes this h' l = passes this h l.
Proof using Hi. intros Hl. unfold passes. by rewrite same_inputs_verdict. Qed.

Lemma same_inputs_handled : handled this h' = handled this h.
Proof using Hi.
  unfold handled. rewrite (proj1 (proj2 Hi)). apply until_throw_ext.
  intros l Hl. by apply same_inputs_verdict.
Qed.

Lemma same_inputs_visibleCount :
  visibleCount_of this h' = visibleCount_of this h.
Proof using Hi.
  unfold visibleCount_of. rewrite (proj1 (proj2 Hi)). f_equal.
  apply filter_ext_in. intros l Hl%list_elem_of_In.
  by apply same_inputs_passes.
Qed.

Lemma same_inputs_hasVisible : hasVisible_of this h' = hasVisible_of this h.
Proof using Hi. by rewrite !hasVisible_count, same_inputs_visibleCount. Qed.

Lemma same_inputs_settled_flag l :
  l ∈ tracked this h -> settled_flag this h' l = settled_flag this h l.
Proof using Hi.
  intros Hl. unfold settled_flag.
  by rewrite same_inputs_hasVisible, same_inputs_passes.
Qed.
End same_inputs.

(** ** The flags and the text a pass leaves *)

Lemma preserved_hidden h h' l :
  preserved h h' -> is_Some (h !! l) -> hidden_of h' l = hidden_of h l.
Proof. intros Hp Hl. unfold hidden_of. by rewrite Hp. Qed.

Lemma preserved_text h h' l :
  preserved h h' -> is_Some (h !! l) -> text_of h' l = text_of h l.
Proof. intros Hp Hl. unfold text_of. by rewrite Hp. Qed.

Lemma is_element_is_Some h l : is_element h l -> is_Some (h !! l).
Proof. intros [n Hn]. by rewrite Hn. Qed.

Lemma settle_is_Some this h l : is_Some (h !! l) -> is_Some (settle this h !! l).
Proof.
  intros Hl. apply elem_of_dom.
  rewrite (same_core_dom h (settle this h)) by apply same_core_settle.
  by apply elem_of_dom.
Qed.

Lemma settle_hidden_tracked this h l :
  well_formed this h -> l ∈ tracked this h ->
  hidden_of (settle this h) l = Some (settled_flag this h l).
Proof.
  intros Hwf Hl. destruct (well_formed_element _ _ _ Hwf Hl) as [n Hn].
  unfold hidden_of, settled_flag. rewrite settle_lookup. unfold settle_at.
  rewrite Hn, (decide_True (P := l ∈ tracked this h)) by done.
  destruct (decide (noResultsMessage this = Some l));
    destruct (decide (statusElement this = Some l)); done.
Qed.

Lemma settle_hidden_noResults this h t :
  well_formed this h -> noResultsMessage this = Some t ->
  hidden_of (settle this h) t = Some (hasVisible_of this h).
Proof.
  intros Hwf Ht. destruct (well_formed_noResults _ _ _ Hwf Ht) as [n Hn].
  unfold hidden_of. rewrite settle_lookup. unfold settle_at.
  rewrite Hn, (decide_True (P := noResultsMessage this = Some t)) by done.
  destruct (decide (t ∈ tracked this h));
    destruct (decide (statusElement this = Some t)); done.
Qed.

Lemma settle_text_status this h t :
  well_formed this h -> statusElement this = Some t ->
  text_of (settle this h) t
  = Some (statusFormatter this (visibleCount_of this h)).
Proof.
  intros Hwf Ht. destruct (well_formed_status _ _ _ Hwf Ht) as [n Hn].
  unfold text_of. rewrite settle_lookup. unfold settle_at.
  rewrite Hn, (decide_True (P := statusElement this = Some t)) by done.
  destruct (decide (t ∈ tracked this h));
    destruct (decide (noResultsMessage this = Some t)); done.
Qed.

(** ** The two ways a pass can go *)

(** An aborted pass leaves the flags of the elements it reached. *)
Lemma aborted_lookup this w x :
  heap (aborted_world this w) !! x
  = (if decide (x ∈ (handled this (heap w)).1)
     then with_hidden (negb (passes this (heap w) x)) <$> heap w !! x
     else heap w !! x).
Proof. unfold aborted_world. cbn [heap]. apply hide_all_lookup. Qed.

Lemma preserved_aborted this w w1 :
  well_formed this (heap w) -> preserved (heap w) (heap w1) ->
  preserved (heap (aborted_world this w)) (heap (aborted_world this w1)).
Proof.
  intros Hwf Hp x Hx. rewrite !aborted_lookup.
  rewrite (preserved_handled this (heap w) (heap w1)) by done.
  assert (Hx0 : is_Some (heap w !! x)).
  { apply elem_of_dom.
    rewrite <- (same_core_dom _ _ (same_core_aborted this w)).
    by apply elem_of_dom. }
  rewrite (Hp x Hx0). case_decide as Hin; [|done].
  rewrite (preserved_passes_tracked this (heap w) (heap w1)); [done..|].
  by apply (until_throw_sublist (verdict this (heap w))).
Qed.

Lemma filterElements_cases this w o w' :
  well_formed this (heap w) -> disciplined this ->
  filterElements this w = (o, w') ->
  (exists e, o = Thrown e /\ before_stage this w = (Thrown e, w') /\
             preserved (heap w) (heap w'))
  \/
  (exists e w1,
     o = Thrown e /\ before_stage this w = (Normal tt, w1) /\
     (handled this (heap w)).2 = Some e /\
     w' = aborted_world this w1 /\
     preserved (heap w) (heap w1) /\
     preserved (heap (aborted_world this w)) (heap w'))
  \/
  (exists w1 o',
     before_stage this w = (Normal tt, w1) /\
     matching_total this (heap w) /\
     after_stage this (visibleCount_of this (heap w))
       (length (tracked this (heap w))) (settled_world this w1) = (o', w') /\
     o = match o' with
         | Normal _ => Normal (visibleCount_of this (heap w),
                               length (tracked this (heap w)))
         | Thrown e => Thrown e
         end /\
     preserved (heap w) (heap w1) /\
     preserved (settle this (heap w)) (heap w')).
Proof.
  intros Hwf Hd Hrun. rewrite filterElements_run in Hrun by done.
  pose proof (before_stage_preserved this w Hd) as Hp.
  destruct (before_stage this w) as [[[]|e] w1] eqn:Eb; cbn [snd] in Hp.
  - destruct (handled this (heap w)).2 as [e|] eqn:Eh.
    { right. left. injection Hrun as <- <-. exists e, w1.
      split_and!; try done. by apply preserved_aborted. }
    right. right. cbn zeta in Hrun.
    pose proof (after_stage_preserved this (visibleCount_of this (heap w))
                  (length (tracked this (heap w))) (settled_world this w1) Hd)
      as Hp2.
    destruct (after_stage _ _ _ _) as [o' w2] eqn:Ea. cbn [snd] in Hp2.
    exists w1, o'. split_and!; try done.
    + destruct o' as [[]|e]; by injection Hrun as <- <-.
    + destruct o' as [[]|e]; by injection Hrun as <- <-.
    + assert (w2 = w') as <- by (destruct o' as [[]|e]; by injection Hrun).
      eapply preserved_trans; [|exact Hp2].
      by apply preserved_settle.
  - left. injection Hrun as <- <-. eauto.
Qed.

(** ** The matching rule *)

Lemma dataset_read_undefined ds k :
  dataset_read ds k = IsUndefined <-> ds !! k = None /\ is_inherited k = false.
Proof.
  unfold dataset_read. destruct (ds !! k); [by split; [|intros [? _]]|].
  destruct (is_inherited k); by split; [|intros [_ ?]].
Qed.

Lemma dataset_read_declared ds k d :
  ds !! k = Some d -> dataset_read ds k = IsString d.
Proof. intros H. unfold dataset_read. by rewrite H. Qed.

(** What one key contributes, case by case. *)
Lemma filterContributes_true all mode ds k v :
  filterContributes all mode ds k v = Normal true
  <-> v = all \/ dataset_read ds k = IsUndefined \/
      exists declared, ds !! k = Some declared /\ value_matches mode declared v.
Proof.
  unfold filterContributes.
  destruct (bool_decide (v = all)) eqn:Ev.
  - apply bool_decide_eq_true in Ev. tauto.
  - apply bool_decide_eq_false in Ev. unfold dataset_read.
    destruct (ds !! k) as [d|].
    + split.
      * intros H. right. right. exists d. split; [done|].
        destruct mode; simpl; injection H as H;
          [by apply bool_decide_eq_true in H|done].
      * intros [?|[?|(d' & [= <-] & H)]]; [done..|].
        destruct mode; simpl in *; f_equal;
          [by apply bool_decide_eq_true|done].
    + destruct (is_inherited k).
      * split; [by destruct mode|]. by intros [?|[?|(d' & ? & _)]].
      * tauto.
Qed.

Lemma filterContributes_iff all mode ds k v :
  (v ≠ all -> ds !! k = None -> is_inherited k = false) ->
  filterContributes all mode ds k v = Normal true
  <-> key_contributes all mode ds k v.
Proof.
  intros Hord. rewrite filterContributes_true. unfold key_contributes.
  rewrite dataset_read_undefined. split.
  - intros [?|[[? _]|?]]; auto.
  - intros [?|[?|?]]; auto.
    destruct (decide (v = all)); [by left|]. right. left. auto.
Qed.

Lemma matchesAllFilters_true all mode st ds :
  matchesAllFilters all mode st ds = Normal true
  <-> forall k v, (k, v) ∈ st -> filterContributes all mode ds k v = Normal true.
Proof.
  unfold matchesAllFilters. rewrite every_true, Forall_forall. split.
  - intros H k v Hin. apply (H (k, v) Hin).
  - intros H [k v] Hin. by apply H.
Qed.

Lemma passes_true this h l :
  passes this h l = true <-> verdict this h l = Normal true.
Proof.
  unfold passes. destruct (verdict this h l) as [[]|]; by split.
Qed.

Lemma verdict_iff this h l :
  ordinary_keys this h l ->
  verdict this h l = Normal true <-> every_key_contributes this h l.
Proof.
  intros Hord. unfold verdict. rewrite matchesAllFilters_true.
  split; intros H k v Hin.
  - apply filterContributes_iff; [by apply (Hord k v)|by apply H].
  - apply filterContributes_iff; [by apply (Hord k v)|by apply H].
Qed.

Lemma verdict_vacuous this h l :
  ordinary_keys this h l -> no_constrained_attribute this h l ->
  verdict this h l = Normal true.
Proof.
  intros Hord Hno. apply verdict_iff; [done|]. intros k v Hin.
  destruct (decide (v = allValue this)) as [->|Hne]; [by left|].
  right. left. by apply (Hno k v).
Qed.

(** Sample page: the store is well formed and the hooks keep to what
    they are handed. *)
Lemma sample_tracked before after fs :
  tracked (Sample.instance before after fs) Sample.store = [1%positive; 2%positive].
Proof. reflexivity. Qed.

Lemma sample_well_formed before after fs :
  well_formed (Sample.instance before after fs) Sample.store.
Proof.
  unfold well_formed. rewrite sample_tracked. split_and!.
  - eexists. reflexivity.
  - eexists. reflexivity.
  - intros l [->|[->|[]%elem_of_nil]%elem_of_cons]%elem_of_cons;
      eexists; reflexivity.
  - intros l [= <-]. eexists. reflexivity.
  - intros l [= <-]. eexists. reflexivity.
Qed.

Lemma scribble_before_disciplined :
  mutates_only before_passed Sample.scribble_before.
Proof.
  intros args σ l _ Hl. unfold Sample.scribble_before. cbn [snd].
  apply not_elem_of_cons in Hl as [H1 Hl].
  apply not_elem_of_cons in Hl as [H2 _].
  by rewrite !lookup_insert_ne.
Qed.

Lemma scribble_after_disciplined :
  mutates_only after_passed Sample.scribble_after.
Proof.
  intros args σ l _ Hl. unfold Sample.scribble_after. cbn [snd].
  apply not_elem_of_cons in Hl as [H1 Hl].
  apply not_elem_of_cons in Hl as [H2 _].
  by rewrite !lookup_insert_ne.
Qed.

Lemma sample_disciplined fs : disciplined (Sample.instance
  (Some Sample.scribble_before) (Some Sample.scribble_after) fs).
Proof.
  split; intros hk [= <-];
    [apply scribble_before_disciplined|apply scribble_after_disciplined].
Qed.

Lemma no_hooks_disciplined this :
  onBeforeFilter this = None -> onAfterFilter this = None -> disciplined this.
Proof. intros Hb Ha. split; intros hk; rewrite ?Hb, ?Ha; discriminate. Qed.

(** The flag a completed pass leaves on a tracked element. *)
Lemma completed_flag this w r w' l :
  well_formed this (heap w) -> disciplined this ->
  filterElements this w = (Normal r, w') ->
  l ∈ tracked this (heap w) ->
  hidden_of (heap w') l = Some (settled_flag this (heap w) l).
Proof.
  intros Hwf Hd Hrun Hl.
  destruct (filterElements_cases this w _ w' Hwf Hd Hrun)
    as [(e & [=] & _)|[(e & w1 & [=] & _)|(w1 & o' & _ & _ & _ & _ & _ & Hp)]].
  rewrite (preserved_hidden _ _ l Hp).
  - by apply settle_hidden_tracked.
  - apply settle_is_Some, is_element_is_Some.
    by apply (well_formed_element this).
Qed.

(** C1 (amended). After a completed pass, a tracked element that is not
    also the no-results target is visible iff every key of the filter state
    contributes true: the value is the match-all sentinel, or the
    element has no attribute for the key, or the declared value matches
    (in equals mode: is the same string). An element with no attribute
    for any constraining key is visible. This is for a state in which
    no constraining key is a name the element's dataset inherits
    without declaring it. The same holds right after the element
    loop, for the no-results target too. *)
Theorem visible_iff_every_key_contributes this w l :
  well_formed this (heap w) ->
  l ∈ tracked this (heap w) ->
  ordinary_keys this (heap w) l ->
  (forall c w1,
     forEachElement this (tracked this (heap w)) false 0 w = (Normal c, w1) ->
     (visible (heap w1) l <-> every_key_contributes this (heap w) l) /\
     (no_constrained_attribute this (heap w) l -> visible (heap w1) l)) /\
  (disciplined this -> forall r w',
     filterElements this w = (Normal r, w') ->
     noResultsMessage this ≠ Some l ->
     (visible (heap w') l <-> every_key_contributes this (heap w) l) /\
     (no_constrained_attribute this (heap w) l -> visible (heap w') l)).
Proof.
  intros Hwf Hl Hord.
  assert (Hflag : forall h,
    hidden_of h l = Some (negb (passes this (heap w) l)) ->
    (visible h l <-> every_key_contributes this (heap w) l) /\
    (no_constrained_attribute this (heap w) l -> visible h l)).
  { intros h Hh. unfold visible. rewrite Hh.
    rewrite <- (verdict_iff this (heap w) l Hord), <- passes_true. split.
    - destruct (passes this (heap w) l); simpl; split; congruence.
    - intros Hno. apply (verdict_vacuous _ _ _ Hord), passes_true in Hno.
      by rewrite Hno. }
  split.
  - intros c w1 Hloop. apply Hflag.
    rewrite loop_run in Hloop by done.
    destruct (handled this (heap w)).2 eqn:Eh; [done|].
    injection Hloop as _ <-. rewrite aborted_world_total by done. cbn [heap].
    destruct (well_formed_element _ _ _ Hwf Hl) as [n Hn].
    unfold hidden_of. rewrite hide_all_lookup_in, Hn by done. done.
  - intros Hd r w' Hrun Hnr. apply Hflag.
    rewrite (completed_flag this w r w' l Hwf Hd Hrun Hl).
    unfold settled_flag. by rewrite decide_False.
Qed.

Lemma visible_iff_witness :
  let run := filterElements Sample.this Sample.start in
  (well_formed Sample.this (heap Sample.start) /\
   2%positive ∈ tracked Sample.this (heap Sample.start) /\
   ordinary_keys Sample.this (heap Sample.start) 2%positive) /\
  (visible (heap run.2) 2%positive
   <-> every_key_contributes Sample.this (heap Sample.start) 2%positive) /\
  ~ visible (heap run.2) 2%positive.
Proof.
  intros run.
  pose proof (sample_well_formed (Some Sample.scribble_before)
                (Some Sample.scribble_after) [Sample.season_select]) as Hwf.
  assert (Hl : 2%positive ∈ tracked Sample.this (heap Sample.start))
    by (apply list_elem_of_In; vm_compute; auto).
  assert (Hord : ordinary_keys Sample.this (heap Sample.start) 2%positive).
  { intros k v [[= -> ->]|[]%elem_of_nil]%elem_of_cons _ _. reflexivity. }
  split; [done|].
  destruct (visible_iff_every_key_contributes Sample.this Sample.start
              2%positive Hwf Hl Hord) as [_ Hpass].
  assert (Hrun : run = (Normal (1, 2), run.2)) by (vm_compute; reflexivity).
  assert (Hnr : noResultsMessage Sample.this ≠ Some 2%positive)
    by discriminate.
  destruct (Hpass (sample_disciplined _) _ _ Hrun Hnr) as [Hiff _].
  split; [exact Hiff|].
  assert (Hh : hidden_of (heap run.2) 2%positive = Some true)
    by (vm_compute; reflexivity).
  unfold visible. rewrite Hh. discriminate.
Defined.

(** The rule as first written fails where the first card is also the
    no-results target: the card matches, and the indicator update that
    follows the loop hides it again. *)
Lemma matching_as_first_written_fails :
  ~ matching_as_first_written Sample.overlapping Sample.start.
Proof.
  intros H. specialize (H 1%positive).
  assert (Hl : 1%positive ∈ tracked Sample.overlapping (heap Sample.start))
    by (apply list_elem_of_In; vm_compute; auto).
  apply H in Hl as [_ Hl].
  assert (Hh : hidden_of
                 (heap (filterElements Sample.overlapping Sample.start).2)
                 1%positive = Some true) by (vm_compute; reflexivity).
  unfold visible in Hl. rewrite Hh in Hl.
  assert (Hc : every_key_contributes Sample.overlapping (heap Sample.start)
                                     1%positive).
  { intros k v [[= -> ->]|[]%elem_of_nil]%elem_of_cons.
    right. right. exists (js "spring"). by split. }
  specialize (Hl Hc). discriminate Hl.
Qed.

(** A key that every object inherits. The card has no [data-constructor]
    attribute, but the lookup of the attribute finds the constructor of
    the dataset object: in equals mode the card is hidden, in contains
    mode the match throws. *)
Example inherited_key_is_not_ignored :
  let ds : gmap jsstring jsstring := {[ js "season" := js "spring" ]} in
  let state := [(js "constructor", js "x")] in
  ds !! js "constructor" = None /\
  matchesAllFilters (js "all") Equals state ds = Normal false /\
  matchesAllFilters (js "all") Contains state ds = Thrown typeError.
Proof. vm_compute. done. Qed.

(** ** The order of the steps *)

Lemma before_stage_trace this w o w1 :
  before_stage this w = (o, w1) ->
  exists evs, trace w1 = trace w ++ [PassStarted] ++ evs /\
              before_logged this evs.
Proof.
  unfold before_stage, before_logged, before_call.
  destruct (onBeforeFilter this) as [hk|]; intros [= <- <-]; cbn [trace].
  - eexists. rewrite <- app_assoc. split; [reflexivity|]. eauto.
  - exists []. by rewrite app_nil_r.
Qed.

Lemma after_stage_trace this vc tc w o w1 :
  after_stage this vc tc w = (o, w1) ->
  exists evs, trace w1 = trace w ++ evs /\ after_logged this vc tc evs.
Proof.
  unfold after_stage, after_logged, after_call.
  destruct (onAfterFilter this) as [hk|]; intros [= <- <-]; cbn [trace].
  - eexists. split; [reflexivity|]. eauto.
  - exists []. by rewrite app_nil_r.
Qed.

(** The copies a hook is handed. *)
Lemma snapshot_copies this h :
  let s := snapshot this h in
  h !! s.1.1 = None /\ h !! s.1.2 = None /\
  s.2 !! s.1.1 = Some (PlainObject (state_of this h)) /\
  s.2 !! s.1.2 = Some (Array (tracked this h)).
Proof.
  unfold snapshot. cbn [fst snd].
  pose proof (fresh_lookup h) as H1.
  pose proof (fresh_lookup (<[fresh (dom h) := PlainObject (state_of this h)]> h))
    as H2.
  assert (Hne : fresh (dom h)
                ≠ fresh (dom (<[fresh (dom h)
                                := PlainObject (state_of this h)]> h))).
  { intros E. rewrite <- E in H2. by rewrite lookup_insert_eq in H2. }
  rewrite lookup_insert_ne in H2 by done.
  split_and!; [done|done| |by rewrite lookup_insert_eq].
  rewrite lookup_insert_ne by done. by rewrite lookup_insert_eq.
Qed.

Lemma before_stage_runs this w w1 :
  before_stage this w = (Normal tt, w1) ->
  before_hook_runs this (heap w) (heap w1).
Proof.
  unfold before_stage, before_hook_runs, before_call.
  destruct (onBeforeFilter this) as [hk|]; [|by intros [= <-]].
  cbn [heap]. intros [= Ho <-]. cbn [heap].
  destruct (snapshot_copies this (heap w)) as (? & ? & ? & ?).
  split_and!; [done..|].
  by destruct (hk _ _) as [[[]|] ?]; simplify_eq.
Qed.

Lemma after_stage_runs this vc tc w w1 :
  after_stage this vc tc w = (Normal tt, w1) ->
  after_hook_runs this vc tc (heap w) (heap w1).
Proof.
  unfold after_stage, after_hook_runs, after_call.
  destruct (onAfterFilter this) as [hk|]; [|by intros [= <-]].
  intros [= Ho <-]. cbn [heap].
  destruct (snapshot_copies this (heap w)) as (? & ? & ? & ?).
  split_and!; [done..|].
  by destruct (hk _ _) as [[[]|] ?]; simplify_eq.
Qed.

(** The digits of the default status text read back as the count. *)
Lemma decimal_fuel_acc fuel n acc :
  decimal_fuel fuel n acc = decimal_fuel fuel n [] ++ acc.
Proof.
  revert n acc. induction fuel as [|fuel IH]; intros n acc; [done|].
  cbn [decimal_fuel]. destruct (Nat.ltb n 10); [done|].
  rewrite IH, (IH _ [_]), <- app_assoc. done.
Qed.

Lemma decimal_value_snoc s d :
  d < 10 -> decimal_value (s ++ [digit d]) = 10 * decimal_value s + d.
Proof.
  intros Hd. unfold decimal_value. rewrite foldl_app. cbn [foldl].
  unfold digit. rewrite N2Nat.inj_add, Nat2N.id. simpl. lia.
Qed.

Lemma decimal_fuel_value fuel n :
  n < fuel -> decimal_value (decimal_fuel fuel n []) = n.
Proof.
  revert n. induction fuel as [|fuel IH]; intros n Hn; [lia|].
  cbn [decimal_fuel]. destruct (Nat.ltb_spec n 10) as [Hlt|Hge].
  - rewrite Nat.mod_small by done.
    change [digit n] with ([] ++ [digit n]).
    rewrite decimal_value_snoc by done. done.
  - rewrite decimal_fuel_acc, decimal_value_snoc.
    + rewrite IH.
      * symmetry. apply Nat.div_mod_eq.
      * assert (n / 10 < n) by (apply Nat.div_lt; lia). lia.
    + apply Nat.mod_upper_bound. lia.
Qed.

Lemma number_to_string_value n : decimal_value (number_to_string n) = n.
Proof. apply decimal_fuel_value. lia. Qed.

Lemma is_digit_digit d : d < 10 -> is_digit (digit d) = true.
Proof.
  intros Hd. unfold is_digit, digit.
  apply andb_true_iff. split; apply N.leb_le; lia.
Qed.

Lemma decimal_fuel_digits fuel n acc :
  forallb is_digit acc = true ->
  forallb is_digit (decimal_fuel fuel n acc) = true.
Proof.
  revert n acc. induction fuel as [|fuel IH]; intros n acc Hacc; [done|].
  cbn [decimal_fuel].
  assert (Hd : forallb is_digit (digit (n mod 10) :: acc) = true).
  { cbn [forallb]. rewrite Hacc, is_digit_digit; [done|].
    apply Nat.mod_upper_bound. lia. }
  destruct (Nat.ltb n 10); [done|by apply IH].
Qed.

Lemma decimal_fuel_head fuel n acc :
  0 < n < fuel ->
  exists c rest, decimal_fuel fuel n acc = c :: rest /\ N.eqb c 48 = false.
Proof.
  revert n acc. induction fuel as [|fuel IH]; intros n acc Hn; [lia|].
  cbn [decimal_fuel]. destruct (Nat.ltb_spec n 10) as [Hlt|Hge].
  - eexists _, _. split; [done|]. rewrite Nat.mod_small by done.
    apply N.eqb_neq. unfold digit. lia.
  - apply IH. assert (n / 10 < n) by (apply Nat.div_lt; lia).
    assert (0 < n / 10) by (apply Nat.div_str_pos; lia). lia.
Qed.

Lemma number_to_string_canonical n :
  canonical_decimal (number_to_string n) = true.
Proof.
  unfold canonical_decimal, number_to_string.
  rewrite decimal_fuel_digits by done. cbn [andb].
  destruct n as [|n]; [done|].
  destruct (decimal_fuel_head (S (S n)) (S n) []) as (c & rest & -> & Hc);
    [lia|]. by rewrite Hc.
Qed.

(** C3. A completed pass does its steps in this order. The before
    hook runs on the store as the pass found it. Then the [hidden] flag
    of every tracked element is written in discovery order, then the
    no-results indicator (shown iff the visible count is 0), then the
    status text (the formatter applied to the visible count; with the
    default formatter the count in decimal followed by " results
    found"). The store [settled] that holds all of these is the one the
    after hook is called on, with the visible and the total count and
    with fresh copies of the state and of the tracked array; what the
    hook returns is the store the pass leaves, and every object of
    [settled] is in it unchanged. The log of the pass lists the same
    steps in the same order. *)
Theorem pass_steps_in_order this w vc tc w' :
  well_formed this (heap w) ->
  disciplined this ->
  filterElements this w = (Normal (vc, tc), w') ->
  vc = visibleCount_of this (heap w) /\
  tc = length (tracked this (heap w)) /\
  exists started settled before after,
    before_hook_runs this (heap w) started /\
    (forall l, l ∈ tracked this (heap w) ->
       hidden_of settled l
       = Some (if decide (noResultsMessage this = Some l)
               then negb (Nat.eqb vc 0)
               else negb (passes this (heap w) l))) /\
    (forall t, noResultsMessage this = Some t ->
       hidden_of settled t = Some (negb (Nat.eqb vc 0))) /\
    (forall t, statusElement this = Some t ->
       text_of settled t = Some (statusFormatter this vc)) /\
    (statusFormatter this = defaultStatusFormatter ->
     exists digits,
       statusFormatter this vc = digits ++ js " results found" /\
       canonical_decimal digits = true /\ decimal_value digits = vc) /\
    after_hook_runs this vc tc settled (heap w') /\
    preserved settled (heap w') /\
    trace w' = trace w ++ [PassStarted] ++ before
               ++ hidden_events this (heap w)
               ++ noResults_events this (negb (Nat.eqb vc 0))
               ++ status_events this vc
               ++ after /\
    before_logged this before /\
    after_logged this vc tc after.
Proof.
  intros Hwf Hd Hrun.
  destruct (filterElements_cases this w _ w' Hwf Hd Hrun)
    as [(e & [=] & _)|[(e & w1 & [=] & _)
       |(w1 & o' & Hb & Ht & Ha & Ho & Hp1 & Hp)]].
  destruct o' as [[]|]; [|done]. injection Ho as Hvc Htc.
  split; [done|]. split; [done|].
  destruct (before_stage_trace _ _ _ _ Hb) as (bev & Htb & Hbl).
  destruct (after_stage_trace _ _ _ _ _ _ Ha) as (aev & Hta & Hal).
  assert (Hps : preserved (settle this (heap w)) (settle this (heap w1)))
    by (by apply preserved_settle).
  assert (Hel : forall l, is_element (heap w) l ->
                          is_Some (settle this (heap w) !! l))
    by (intros l Hl; by apply settle_is_Some, is_element_is_Some).
  exists (heap w1), (settle this (heap w1)), bev, aev.
  rewrite <- Hvc, <- Htc in *. split_and!.
  - by apply before_stage_runs.
  - intros l Hl. rewrite (preserved_hidden _ _ l Hps)
      by (by apply Hel, (well_formed_element this)).
    rewrite settle_hidden_tracked by done.
    unfold settled_flag. by rewrite Hvc, hasVisible_count.
  - intros t Hnr. rewrite (preserved_hidden _ _ t Hps)
      by (by apply Hel, (well_formed_noResults this)).
    rewrite settle_hidden_noResults by done.
    by rewrite Hvc, hasVisible_count.
  - intros t Hst. rewrite (preserved_text _ _ t Hps)
      by (by apply Hel, (well_formed_status this)).
    by rewrite settle_text_status, Hvc.
  - intros ->. exists (number_to_string vc).
    split_and!; [done|apply number_to_string_canonical
                |apply number_to_string_value].
  - by apply (after_stage_runs _ _ _ (settled_world this w1)).
  - pose proof (after_stage_preserved this vc tc (settled_world this w1) Hd)
      as Hpa. by rewrite Ha in Hpa.
  - rewrite Hta. unfold settled_world. cbn [trace]. rewrite Htb.
    rewrite (preserved_settle_events this (heap w) (heap w1)) by done.
    unfold settle_events. rewrite Hvc, <- hasVisible_count.
    rewrite <- !app_assoc. reflexivity.
  - done.
  - done.
Qed.

Lemma pass_steps_witness :
  let run := filterElements Sample.this Sample.start in
  (well_formed Sample.this (heap Sample.start) /\
   disciplined Sample.this /\
   run = (Normal (1, 2), run.2)) /\
  exists settled,
    hidden_of settled 1%positive = Some false /\
    hidden_of settled 2%positive = Some true /\
    hidden_of settled 3%positive = Some true /\
    text_of settled 4%positive = Some (js "1 results found") /\
    after_hook_runs Sample.this 1 2 settled (heap run.2).
Proof.
  intros run.
  pose proof (sample_well_formed (Some Sample.scribble_before)
                (Some Sample.scribble_after) [Sample.season_select]) as Hwf.
  assert (Hrun : run = (Normal (1, 2), run.2)) by (vm_compute; reflexivity).
  split; [split_and!; [exact Hwf|apply sample_disciplined|exact Hrun]|].
  destruct (pass_steps_in_order Sample.this Sample.start 1 2 _ Hwf
              (sample_disciplined _) Hrun)
    as (_ & _ & started & settled & before & after & _ & Hfl & Hnr & Hst
        & _ & Hafter & _).
  exists settled. split_and!.
  - apply (Hfl 1%positive). apply list_elem_of_In. vm_compute. auto.
  - apply (Hfl 2%positive). apply list_elem_of_In. vm_compute. auto.
  - exact (Hnr 3%positive eq_refl).
  - exact (Hst 4%positive eq_refl).
  - exact Hafter.
Defined.

Example sample_trace :
  trace (filterElements Sample.this Sample.start).2
  = [PassStarted; BeforeHookCalled 7 8; HiddenSet 1 false; HiddenSet 2 true;
     NoResultsHiddenSet 3 true; StatusTextSet 4 (js "1 results found");
     AfterHookCalled 9 1 2 10].
Proof. vm_compute. reflexivity. Qed.

(** What the sample hooks leave in the copies they were handed. *)
Example sample_hooks_ran :
  let h := heap (filterElements Sample.this Sample.start).2 in
  h !! 7%positive = Some (PlainObject []) /\
  h !! 9%positive = Some (PlainObject []) /\
  h !! 5%positive = Some (PlainObject [(js "season", js "spring")]).
Proof. vm_compute. done. Qed.

(** ** What a pass leaves for the next one *)

Lemma filterElements_same_inputs this w o w' :
  well_formed this (heap w) -> disciplined this ->
  filterElements this w = (o, w') ->
  well_formed this (heap w') /\ same_inputs this (heap w) (heap w').
Proof.
  intros Hwf Hd Hrun.
  destruct (filterElements_cases this w _ w' Hwf Hd Hrun)
    as [(e & _ & _ & Hp)|[(e & w1 & _ & _ & _ & _ & _ & Hp)
       |(w1 & o' & _ & _ & _ & _ & _ & Hp)]].
  - split; [by eapply preserved_well_formed|by apply preserved_same_inputs].
  - assert (Hc : same_core (heap w) (heap (aborted_world this w)))
      by apply same_core_aborted.
    assert (Hwfs : well_formed this (heap (aborted_world this w)))
      by (by eapply same_core_well_formed).
    split; [by eapply preserved_well_formed|].
    eapply same_inputs_trans; [by apply same_core_same_inputs|].
    by apply preserved_same_inputs.
  - assert (Hc : same_core (heap w) (settle this (heap w)))
      by apply same_core_settle.
    assert (Hwfs : well_formed this (settle this (heap w)))
      by (by eapply same_core_well_formed).
    split; [by eapply preserved_well_formed|].
    eapply same_inputs_trans; [by apply same_core_same_inputs|].
    by apply preserved_same_inputs.
Qed.

(** The flags a pass leaves on the tracked elements: none when the
    before hook throws, those of the elements reached when a match
    throws, all of them otherwise. *)
Lemma filterElements_flags this w o w' :
  well_formed this (heap w) -> disciplined this ->
  filterElements this w = (o, w') ->
  (exists e, o = Thrown e /\ preserved (heap w) (heap w')) \/
  (exists e, o = Thrown e /\ (handled this (heap w)).2 = Some e /\
     forall l, l ∈ tracked this (heap w) ->
       hidden_of (heap w') l
       = if decide (l ∈ (handled this (heap w)).1)
         then Some (negb (passes this (heap w) l))
         else hidden_of (heap w) l) \/
  (matching_total this (heap w) /\
   forall l, l ∈ tracked this (heap w) ->
     hidden_of (heap w') l = Some (settled_flag this (heap w) l)).
Proof.
  intros Hwf Hd Hrun.
  destruct (filterElements_cases this w _ w' Hwf Hd Hrun)
    as [(e & -> & _ & Hp)|[(e & w1 & -> & _ & He & _ & _ & Hp)
       |(w1 & o' & _ & Ht & _ & _ & _ & Hp)]]; [left; eauto| |].
  - right. left. exists e. split_and!; [done..|]. intros l Hl.
    destruct (well_formed_element _ _ _ Hwf Hl) as [n Hn].
    rewrite (preserved_hidden _ _ l Hp).
    + unfold hidden_of. rewrite aborted_lookup, Hn. by case_decide.
    + rewrite aborted_lookup, Hn. by case_decide.
  - right. right. split; [done|]. intros l Hl.
    rewrite (preserved_hidden _ _ l Hp).
    + by apply settle_hidden_tracked.
    + apply settle_is_Some, is_element_is_Some.
      by apply (well_formed_element this).
Qed.

(** C5. A second pass over the same state and the same tracked
    elements leaves every element's [hidden] flag as the first pass left
    it and, when it completes, reports the same visible and total
    counts. *)
Theorem pass_twice_same_result this w r1 w1 o2 w2 :
  well_formed this (heap w) ->
  disciplined this ->
  filterElements this w = (Normal r1, w1) ->
  filterElements this w1 = (o2, w2) ->
  (forall l, l ∈ tracked this (heap w) ->
     hidden_of (heap w2) l = hidden_of (heap w1) l) /\
  (forall r2, o2 = Normal r2 -> r2 = r1).
Proof.
  intros Hwf Hd Hrun1 Hrun2.
  destruct (filterElements_same_inputs this w _ w1 Hwf Hd Hrun1)
    as [Hwf1 Hin].
  assert (Ht : tracked this (heap w1) = tracked this (heap w)) by apply Hin.
  assert (Hh : handled this (heap w1) = handled this (heap w))
    by (by apply same_inputs_handled).
  split.
  - intros l Hl.
    destruct (filterElements_flags this w _ w1 Hwf Hd Hrun1)
      as [(e & [=] & _)|[(e & [=] & _)|[Htot Hf1]]].
    destruct (filterElements_flags this w1 _ w2 Hwf1 Hd Hrun2)
      as [(e & _ & Hp)|[(e & _ & He & _)|[_ Hf2]]].
    + apply preserved_hidden; [done|].
      apply is_element_is_Some, (well_formed_element this); [done|].
      by rewrite Ht.
    + rewrite Hh in He. unfold matching_total in Htot. congruence.
    + rewrite Hf2, Hf1 by (by rewrite ?Ht).
      by rewrite (same_inputs_settled_flag this (heap w) (heap w1)).
  - intros r2 ->.
    destruct (filterElements_cases this w _ w1 Hwf Hd Hrun1)
      as [(e & [=] & _)|[(e & ? & [=] & _)|(? & o1' & _ & _ & _ & Ho1 & _)]].
    destruct (filterElements_cases this w1 _ w2 Hwf1 Hd Hrun2)
      as [(e & [=] & _)|[(e & ? & [=] & _)|(? & o2' & _ & _ & _ & Ho2 & _)]].
    destruct o1', o2'; simplify_eq.
    by rewrite Ht, (same_inputs_visibleCount this (heap w) (heap w1)).
Qed.

Lemma pass_twice_witness :
  let first := filterElements Sample.this Sample.start in
  let second := filterElements Sample.this first.2 in
  (well_formed Sample.this (heap Sample.start) /\
   disciplined Sample.this /\
   first = (Normal (1, 2), first.2) /\
   second = (second.1, second.2)) /\
  hidden_of (heap second.2) 2%positive = hidden_of (heap first.2) 2%positive /\
  (forall r2, second.1 = Normal r2 -> r2 = (1, 2)).
Proof.
  intros first second.
  pose proof (sample_well_formed (Some Sample.scribble_before)
                (Some Sample.scribble_after) [Sample.season_select]) as Hwf.
  assert (Hrun1 : first = (Normal (1, 2), first.2)) by (vm_compute; reflexivity).
  assert (Hrun2 : second = (second.1, second.2)) by (by destruct second).
  split; [split_and!; [exact Hwf|apply sample_disciplined|done..]|].
  destruct (pass_twice_same_result Sample.this Sample.start _ _ _ _ Hwf
              (sample_disciplined _) Hrun1 Hrun2) as [Hflags Hcount].
  split.
  - apply Hflags. apply list_elem_of_In. vm_compute. auto.
  - exact Hcount.
Defined.

Example sample_second_pass :
  (filterElements Sample.this (filterElements Sample.this Sample.start).2).1
  = Normal (1, 2).
Proof. vm_compute. reflexivity. Qed.

(** ** Hooks that throw *)

Lemma filterElements_before_thrown this w e w1 :
  well_formed this (heap w) ->
  runBeforeHook this {| heap := heap w; trace := trace w ++ [PassStarted] |}
  = (Thrown e, w1) ->
  filterElements this w = (Thrown e, w1).
Proof.
  intros Hwf Hb. unfold filterElements.
  unfold bind at 1. unfold emit at 1.
  unfold bind at 1. rewrite readArray_run by done.
  unfold bind at 1. by rewrite Hb.
Qed.

Lemma before_stage_runBeforeHook this w :
  well_formed this (heap w) ->
  before_stage this w
  = runBeforeHook this {| heap := heap w; trace := trace w ++ [PassStarted] |}.
Proof. intros Hwf. by rewrite runBeforeHook_run. Qed.

(** A before hook that returns normally lets the pass go on from the
    store it leaves. *)
Lemma before_hook_runs_stage this w started :
  before_hook_runs this (heap w) started ->
  exists w1, before_stage this w = (Normal tt, w1) /\ heap w1 = started.
Proof.
  unfold before_hook_runs, before_stage, before_call.
  destruct (onBeforeFilter this) as [hk|].
  - cbn [heap trace]. intros (_ & _ & _ & _ & Hhk). rewrite Hhk.
    eexists. split; reflexivity.
  - intros ->. eexists. split; reflexivity.
Qed.

(** C7. An error thrown by the before callback or by the after
    callback ends the pass with that error. When the before callback
    throws, the pass ends in the store the callback left, and no
    element has been touched if the callback wrote only to its
    arguments. When the after callback throws, the engine does nothing
    more: the pass ends in the store the callback left, the flags, the
    indicator and the status text set by the pass stay, and the
    callback has been called once. *)
Theorem hook_failure_propagates this w :
  well_formed this (heap w) ->
  (forall hk e σ',
     onBeforeFilter this = Some hk ->
     (let s := snapshot this (heap w) in
      hk {| before_currentFilters := s.1.1; before_elements := s.1.2 |} s.2)
     = (Thrown e, σ') ->
     filterElements this w
     = (Thrown e,
        {| heap := σ';
           trace := trace w ++
                    [PassStarted;
                     BeforeHookCalled (snapshot this (heap w)).1.1
                                      (snapshot this (heap w)).1.2] |}) /\
     (mutates_only before_passed hk -> preserved (heap w) σ')) /\
  (disciplined this -> matching_total this (heap w) ->
   forall started hk e σ',
     before_hook_runs this (heap w) started ->
     onAfterFilter this = Some hk ->
     let vc := visibleCount_of this (heap w) in
     let tc := length (tracked this (heap w)) in
     let s := snapshot this (settle this started) in
     hk {| after_currentFilters := s.1.1;
           after_visibleCount := vc;
           after_totalCount := tc;
           after_elements := s.1.2 |} s.2
     = (Thrown e, σ') ->
     exists w2,
       filterElements this w = (Thrown e, w2) /\ heap w2 = σ' /\
       (forall l, l ∈ tracked this (heap w) ->
          hidden_of σ' l = Some (settled_flag this (heap w) l)) /\
       (forall t, noResultsMessage this = Some t ->
          hidden_of σ' t = Some (negb (Nat.eqb vc 0))) /\
       (forall t, statusElement this = Some t ->
          text_of σ' t = Some (statusFormatter this vc)) /\
       exists before,
         before_logged this before /\
         trace w2 = trace w ++ [PassStarted] ++ before
                    ++ hidden_events this (heap w)
                    ++ noResults_events this (negb (Nat.eqb vc 0))
                    ++ status_events this vc
                    ++ [AfterHookCalled s.1.1 vc tc s.1.2]).
Proof.
  intros Hwf. split.
  - intros hk e σ' Hhk Hthrow. cbv zeta in Hthrow. split.
    + apply filterElements_before_thrown; [done|].
      rewrite runBeforeHook_run, Hhk by done.
      unfold before_call. cbn [heap trace]. rewrite Hthrow. cbn [fst snd].
      by rewrite <- app_assoc.
    + intros Hm.
      pose proof (before_call_preserved this hk w Hm) as Hp.
      unfold before_call in Hp. cbn [snd heap] in Hp.
      by rewrite Hthrow in Hp.
  - intros Hd Htot started hk e σ' Hb Hhk vc tc s Hthrow.
    destruct (before_hook_runs_stage this w started Hb) as (w1 & Hbs & <-).
    pose proof (before_stage_preserved this w Hd) as Hp1.
    rewrite Hbs in Hp1. cbn [snd] in Hp1.
    assert (Ha : after_stage this vc tc (settled_world this w1)
                 = (Thrown e,
                    {| heap := σ';
                       trace := trace (settled_world this w1) ++
                                [AfterHookCalled s.1.1 vc tc s.1.2] |})).
    { unfold after_stage, after_call. rewrite Hhk.
      change (heap (settled_world this w1)) with (settle this (heap w1)).
      fold s. by rewrite Hthrow. }
    eexists. split.
    { rewrite filterElements_run, Hbs by done.
      unfold matching_total in Htot. rewrite Htot. cbv zeta.
      fold vc tc. rewrite Ha. reflexivity. }
    cbn [heap trace]. split; [done|].
    pose proof (after_stage_preserved this vc tc (settled_world this w1) Hd)
      as Hp2.
    rewrite Ha in Hp2. cbn [snd heap] in Hp2.
    assert (Hps : preserved (settle this (heap w)) σ').
    { eapply preserved_trans; [|exact Hp2]. by apply preserved_settle. }
    assert (Hel : forall l, is_element (heap w) l ->
                            is_Some (settle this (heap w) !! l))
      by (intros l Hl; by apply settle_is_Some, is_element_is_Some).
    split_and!.
    + intros l Hl. rewrite (preserved_hidden _ _ l Hps)
        by (by apply Hel, (well_formed_element this)).
      by apply settle_hidden_tracked.
    + intros t Ht. rewrite (preserved_hidden _ _ t Hps)
        by (by apply Hel, (well_formed_noResults this)).
      rewrite settle_hidden_noResults by done.
      by rewrite hasVisible_count.
    + intros t Ht. rewrite (preserved_text _ _ t Hps)
        by (by apply Hel, (well_formed_status this)).
      by rewrite settle_text_status.
    + destruct (before_stage_trace _ _ _ _ Hbs) as (bev & Htb & Hbl).
      exists bev. split; [done|]. unfold settled_world. cbn [trace].
      rewrite Htb.
      rewrite (preserved_settle_events this (heap w) (heap w1)) by done.
      unfold settle_events, vc. rewrite <- hasVisible_count.
      rewrite <- !app_assoc. reflexivity.
Qed.

Lemma hook_failure_witness :
  let failing_first :=
    Sample.instance (Some Sample.failing_before) None [Sample.season_select] in
  let failing_last :=
    Sample.instance None (Some Sample.failing_after) [Sample.season_select] in
  (well_formed failing_first (heap Sample.start) /\
   well_formed failing_last (heap Sample.start) /\
   disciplined failing_last /\
   matching_total failing_last (heap Sample.start)) /\
  (filterElements failing_first Sample.start).1 = Thrown (js "boom") /\
  (forall l, is_Some (Sample.store !! l) ->
     heap (filterElements failing_first Sample.start).2 !! l
     = Sample.store !! l) /\
  (filterElements failing_last Sample.start).1 = Thrown (js "boom") /\
  hidden_of (heap (filterElements failing_last Sample.start).2) 2%positive
  = Some true.
Proof.
  intros failing_first failing_last.
  pose proof (sample_well_formed (Some Sample.failing_before) None
                [Sample.season_select]) as Hwf1.
  pose proof (sample_well_formed None (Some Sample.failing_after)
                [Sample.season_select]) as Hwf2.
  assert (Hd : disciplined failing_last).
  { split; intros hk [= <-]. intros args σ l _ _. reflexivity. }
  assert (Htot : matching_total failing_last (heap Sample.start))
    by (vm_compute; reflexivity).
  split; [by split_and!|].
  destruct (hook_failure_propagates failing_first Sample.start Hwf1)
    as [Hbefore _].
  destruct (Hbefore Sample.failing_before (js "boom")
              (snapshot failing_first Sample.store).2 eq_refl eq_refl)
    as [Hrun1 Hkept].
  destruct (hook_failure_propagates failing_last Sample.start Hwf2)
    as [_ Hafter].
  destruct (Hafter Hd Htot Sample.store Sample.failing_after (js "boom")
              (snapshot failing_last (settle failing_last Sample.store)).2
              eq_refl eq_refl eq_refl)
    as (w2 & Hrun2 & Hheap & Hflags & _).
  split_and!.
  - by rewrite Hrun1.
  - rewrite Hrun1. apply Hkept. intros args σ l _ _. reflexivity.
  - by rewrite Hrun2.
  - rewrite Hrun2. cbn [snd]. rewrite Hheap.
    rewrite (Hflags 2%positive)
      by (apply list_elem_of_In; vm_compute; auto).
    vm_compute. reflexivity.
Defined.

Example failing_before_stops_the_pass :
  let this :=
    Sample.instance (Some Sample.failing_before) None [Sample.season_select] in
  (filterElements this Sample.start).1 = Thrown (js "boom") /\
  trace (filterElements this Sample.start).2
  = [PassStarted; BeforeHookCalled 7 8].
Proof. vm_compute. done. Qed.

(** ** Hooks that write to what they are handed *)

Lemma settle_without_hooks this h : settle (without_hooks this) h = settle this h.
Proof. reflexivity. Qed.

Lemma well_formed_without_hooks this h :
  well_formed this h -> well_formed (without_hooks this) h.
Proof. done. Qed.

Lemma filterElements_without_hooks this w :
  well_formed this (heap w) ->
  filterElements (without_hooks this) w
  = let w0 := {| heap := heap w; trace := trace w ++ [PassStarted] |} in
    match (handled this (heap w)).2 with
    | Some e => (Thrown e, aborted_world (without_hooks this) w0)
    | None =>
        (Normal (visibleCount_of this (heap w), length (tracked this (heap w))),
         settled_world (without_hooks this) w0)
    end.
Proof.
  intros Hwf. rewrite filterElements_run.
  - unfold before_stage. cbn [onBeforeFilter without_hooks].
    change (handled (without_hooks this) (heap w)) with (handled this (heap w)).
    by destruct (handled this (heap w)).2.
  - by apply well_formed_without_hooks.
  - by apply no_hooks_disciplined.
Qed.

(** C9. The hooks are handed copies: the state copy and the array copy
    are new objects with the contents of the filter's own. Whatever a
    hook writes into them, the filter's state object and tracked array
    are the same after the pass, and every object that existed before
    the pass ends up as after a pass without hooks, with the same
    counts. *)
Theorem hooks_get_copies this w o w' :
  well_formed this (heap w) ->
  disciplined this ->
  filterElements this w = (o, w') ->
  state_of this (heap w') = state_of this (heap w) /\
  tracked this (heap w') = tracked this (heap w) /\
  (forall r, o = Normal r ->
     exists w0,
       filterElements (without_hooks this) w = (Normal r, w0) /\
       forall l, is_Some (heap w !! l) -> heap w' !! l = heap w0 !! l) /\
  (let s := snapshot this (heap w) in
   heap w !! s.1.1 = None /\ heap w !! s.1.2 = None /\
   s.2 !! s.1.1 = Some (PlainObject (state_of this (heap w))) /\
   s.2 !! s.1.2 = Some (Array (tracked this (heap w)))) /\
  (forall hk, onBeforeFilter this = Some hk ->
     runBeforeHook this w = before_call this hk w) /\
  (forall hk vc tc, onAfterFilter this = Some hk ->
     runAfterHook this vc tc w = after_call this hk vc tc w).
Proof.
  intros Hwf Hd Hrun.
  destruct (filterElements_same_inputs this w o w' Hwf Hd Hrun)
    as (_ & Hs & Ht & _).
  split_and!; try done.
  - intros r ->.
    destruct (filterElements_cases this w _ w' Hwf Hd Hrun)
      as [(e & [=] & _)|[(e & ? & [=] & _)
         |(w1 & o' & _ & Htot & _ & Ho & _ & Hp)]].
    eexists. split.
    + rewrite filterElements_without_hooks by done.
      unfold matching_total in Htot. rewrite Htot. cbv zeta.
      destruct o'; simplify_eq. reflexivity.
    + intros l Hl. unfold settled_world. cbn [heap].
      rewrite settle_without_hooks.
      apply Hp. by apply settle_is_Some.
  - apply snapshot_copies.
  - intros hk Hhk. by rewrite runBeforeHook_run, Hhk.
  - intros hk vc tc Hhk. by rewrite runAfterHook_run, Hhk.
Qed.

Lemma hooks_get_copies_witness :
  let final := (filterElements Sample.this Sample.start).2 in
  (well_formed Sample.this (heap Sample.start) /\
   disciplined Sample.this /\
   filterElements Sample.this Sample.start = (Normal (1, 2), final)) /\
  state_of Sample.this (heap final) = [(js "season", js "spring")] /\
  tracked Sample.this (heap final) = [1%positive; 2%positive] /\
  heap final !! 7%positive = Some (PlainObject []) /\
  heap final !! 8%positive = Some (Array []).
Proof.
  intros final.
  pose proof (sample_well_formed (Some Sample.scribble_before)
                (Some Sample.scribble_after) [Sample.season_select]) as Hwf.
  assert (Hrun : filterElements Sample.this Sample.start = (Normal (1, 2), final))
    by (vm_compute; reflexivity).
  split; [split_and!; [exact Hwf|apply sample_disciplined|exact Hrun]|].
  destruct (hooks_get_copies Sample.this Sample.start _ _ Hwf
              (sample_disciplined _) Hrun) as (Hs & Ht & _).
  split_and!; [exact Hs|exact Ht|vm_compute; reflexivity..].
Defined.

(** ** Writing the filter state *)

Lemma setProperty_run l st k v w :
  heap w !! l = Some (PlainObject st) ->
  setProperty l k v w
  = (Normal tt,
     {| heap := <[l := PlainObject (set k v st)]> (heap w);
        trace := trace w |}).
Proof. intros Hl. unfold setProperty, bind, readObject. by rewrite Hl. Qed.

Section with_state.
Context (this : GenericElementFilter) (h : gmap loc object).
Context (st : properties) (Hwf : well_formed this h).

Lemma with_state_lookup_ne l :
  l ≠ currentFilters this -> with_state this st h !! l = h !! l.
Proof. intros Hl. unfold with_state. by rewrite lookup_insert_ne. Qed.

Lemma with_state_state : state_of this (with_state this st h) = st.
Proof. unfold state_of, with_state. by rewrite lookup_insert_eq. Qed.

Lemma not_state_of_array :
  elements this ≠ currentFilters this.
Proof using Hwf.
  intros E. pose proof (well_formed_state _ _ Hwf) as Hs.
  pose proof (well_formed_tracked _ _ Hwf) as Ht. congruence.
Qed.

Lemma not_state_of_element l : is_element h l -> l ≠ currentFilters this.
Proof using Hwf.
  intros [n Hn] ->. pose proof (well_formed_state _ _ Hwf) as Hs. congruence.
Qed.

Lemma with_state_is_element l :
  is_element h l -> is_element (with_state this st h) l.
Proof using Hwf.
  intros Hl. pose proof Hl as [n Hn]. exists n.
  by rewrite with_state_lookup_ne by (by apply not_state_of_element).
Qed.

Lemma with_state_tracked : tracked this (with_state this st h) = tracked this h.
Proof using Hwf.
  unfold tracked. by rewrite with_state_lookup_ne by apply not_state_of_array.
Qed.

Lemma with_state_well_formed : well_formed this (with_state this st h).
Proof using Hwf.
  unfold well_formed. rewrite with_state_tracked. split_and!.
  - exists st. apply lookup_insert_eq.
  - exists (tracked this h).
    rewrite with_state_lookup_ne by apply not_state_of_array.
    by apply well_formed_tracked.
  - intros l Hl. by apply with_state_is_element, (well_formed_element this).
  - intros l Hl. by apply with_state_is_element, (well_formed_noResults this).
  - intros l Hl. by apply with_state_is_element, (well_formed_status this).
Qed.

Lemma with_state_dataset l :
  is_element h l -> dataset_of (with_state this st h) l = dataset_of h l.
Proof using Hwf.
  intros Hl. unfold dataset_of.
  by rewrite with_state_lookup_ne by (by apply not_state_of_element).
Qed.

Lemma with_state_same : with_state this (state_of this h) h = h.
Proof using Hwf. apply insert_id. by apply well_formed_state. Qed.

Lemma with_state_twice st' :
  with_state this st' (with_state this st h) = with_state this st' h.
Proof. apply insert_insert_eq. Qed.
End with_state.

Lemma setProperty_state this k v w :
  well_formed this (heap w) ->
  setProperty (currentFilters this) k v w
  = (Normal tt,
     {| heap := with_state this (set k v (state_of this (heap w))) (heap w);
        trace := trace w |}).
Proof. intros Hwf. by apply setProperty_run, well_formed_state. Qed.

(** ** [reset] *)

Lemma first_option_lookup v options :
  existsb (fun opt => bool_decide (opt = v)) options = true ->
  exists i, first_option v options = Some i /\ options !! i = Some v.
Proof.
  induction options as [|o options IH]; [done|]. simpl.
  destruct (bool_decide (o = v)) eqn:E.
  - apply bool_decide_eq_true in E as ->. by exists 0.
  - simpl. intros (i & Hi & Ho)%IH. exists (S i). by rewrite Hi.
Qed.

Lemma resetFilter_run this c w :
  well_formed this (heap w) ->
  exists c',
    resetFilter this c w
    = (Normal c',
       {| heap := with_state this
                    (reset_entry (allValue this) (state_of this (heap w)) c)
                    (heap w);
          trace := trace w |}) /\
    name c' = name c.
Proof.
  intros Hwf. unfold resetFilter, reset_entry.
  destruct (falsy_name (name c)) eqn:En.
  { exists c. rewrite with_state_same by done. by destruct w. }
  unfold neutral_value.
  destruct (kind c) as [options selected|type value checked emptied|value]
    eqn:Ek.
  - destruct (existsb _ options) eqn:Eall.
    + destruct (first_option_lookup _ _ Eall) as (i & Hi & Ho).
      eexists. split; [unfold bind; rewrite setProperty_state by done|].
      * unfold control_value. cbn [kind]. by rewrite Hi, Ho.
      * reflexivity.
    + destruct options as [|first rest]; cbn [length Nat.ltb Nat.leb].
      * eexists. split; [unfold bind; rewrite setProperty_state by done|].
        -- unfold control_value. rewrite Ek. by destruct selected.
        -- reflexivity.
      * eexists. split; [unfold bind; by rewrite setProperty_state|].
        reflexivity.
  - destruct (_ || _); eexists;
      (split; [unfold bind; by rewrite setProperty_state|reflexivity]).
  - eexists. split; [unfold bind; by rewrite setProperty_state|reflexivity].
Qed.

Lemma resetFilters_run this fs :
  forall w,
    well_formed this (heap w) ->
    exists fs',
      resetFilters this fs w
      = (Normal fs',
         {| heap := with_state this
                      (reset_state (allValue this) fs (state_of this (heap w)))
                      (heap w);
            trace := trace w |}) /\
      map name fs' = map name fs.
Proof.
  induction fs as [|c fs IH]; intros w Hwf.
  - exists []. unfold reset_state. cbn [resetFilters foldl].
    rewrite with_state_same by done. by destruct w.
  - destruct (resetFilter_run this c w Hwf) as (c' & Hc & Hn).
    cbn [resetFilters]. unfold bind at 1. rewrite Hc.
    set (w1 := {| heap := with_state this _ (heap w); trace := trace w |}).
    assert (Hwf1 : well_formed this (heap w1))
      by (by apply with_state_well_formed).
    destruct (IH w1 Hwf1) as (fs' & Hfs & Hns).
    exists (c' :: fs'). unfold bind. rewrite Hfs. split.
    + unfold ret. f_equal. f_equal. subst w1. cbn [heap].
      by rewrite with_state_state, with_state_twice.
    + cbn [map]. by rewrite Hn, Hns.
Qed.

Lemma reset_entry_lookup all st c k :
  get k (reset_entry all st c)
  = if named k c then Some (neutral_value all c) else get k st.
Proof.
  unfold reset_entry, named. destruct (falsy_name (name c)); [done|].
  cbn [negb andb]. rewrite get_set.
  case_bool_decide as E1; case_bool_decide as E2; try congruence; [|done].
  by subst k.
Qed.



Lemma reset_state_snoc all fs c st :
  reset_state all (fs ++ [c]) st = reset_entry all (reset_state all fs st) c.
Proof. unfold reset_state. by rewrite foldl_app. Qed.

Lemma last_named_snoc k fs c :
  last_named k (fs ++ [c])
  = if named k c then Some c else last_named k fs.
Proof.
  unfold last_named. rewrite List.filter_app. cbn [List.filter].
  destruct (named k c).
  - by rewrite last_snoc.
  - by rewrite app_nil_r.
Qed.

Lemma reset_state_lookup all fs st k :
  get k (reset_state all fs st)
  = match last_named k fs with
    | Some c => Some (neutral_value all c)
    | None => get k st
    end.
Proof.
  induction fs as [|c fs IH] using rev_ind; [done|].
  rewrite reset_state_snoc, reset_entry_lookup, last_named_snoc, IH.
  by destruct (named k c).
Qed.


(** The three shapes of a neutral value. *)
Lemma neutral_value_cases all c :
  neutral_value all c = all \/
  (exists first rest selected,
     kind c = HTMLSelectElement (first :: rest) selected /\
     (forall opt, opt ∈ first :: rest -> opt ≠ all) /\
     neutral_value all c = first) \/
  (exists selected,
     kind c = HTMLSelectElement [] selected /\ neutral_value all c = []).
Proof.
  unfold neutral_value. destruct (kind c) as [options selected| |]; auto.
  destruct (existsb _ options) eqn:E; auto.
  destruct options as [|first rest].
  - right. right. by exists selected.
  - right. left. exists first, rest, selected. split_and!; try done.
    intros opt Hopt%list_elem_of_In ->.
    assert (existsb (fun o => bool_decide (o = all)) (first :: rest) = true);
      [|congruence].
    apply existsb_exists. exists all. split; [done|].
    by apply bool_decide_eq_true.
Qed.

(** ** One pass per call *)

Lemma passes_started_app evs1 evs2 :
  passes_started (evs1 ++ evs2) = passes_started evs1 + passes_started evs2.
Proof. unfold passes_started. by rewrite List.filter_app, length_app. Qed.

Lemma passes_started_hidden (f : loc -> bool) ls :
  passes_started (map (fun l => HiddenSet l (f l)) ls) = 0.
Proof. induction ls; simpl; done. Qed.

Lemma passes_started_settle this h : passes_started (settle_events this h) = 0.
Proof.
  unfold settle_events, hidden_events, noResults_events, status_events.
  rewrite !passes_started_app, passes_started_hidden.
  by destruct (noResultsMessage this), (statusElement this).
Qed.

Lemma passes_started_before this evs :
  before_logged this evs -> passes_started evs = 0.
Proof.
  unfold before_logged. destruct (onBeforeFilter this).
  - by intros (c1 & c2 & ->).
  - by intros ->.
Qed.

Lemma passes_started_after this vc tc evs :
  after_logged this vc tc evs -> passes_started evs = 0.
Proof.
  unfold after_logged. destruct (onAfterFilter this).
  - by intros (c1 & c2 & ->).
  - by intros ->.
Qed.

Lemma filterElements_one_pass this w o w' :
  well_formed this (heap w) -> disciplined this ->
  filterElements this w = (o, w') ->
  exists evs, trace w' = trace w ++ evs /\ passes_started evs = 1.
Proof.
  intros Hwf Hd Hrun.
  destruct (filterElements_cases this w _ w' Hwf Hd Hrun)
    as [(e & _ & Hb & _)|[(e & w1 & _ & Hb & _ & -> & _)
       |(w1 & o' & Hb & _ & Ha & _ & _ & _)]].
  - destruct (before_stage_trace _ _ _ _ Hb) as (bev & Ht & Hl).
    eexists. split; [exact Ht|].
    by rewrite passes_started_app, (passes_started_before this bev Hl).
  - destruct (before_stage_trace _ _ _ _ Hb) as (bev & Ht & Hl).
    eexists. split.
    + unfold aborted_world. cbn [trace]. rewrite Ht, <- !app_assoc.
      reflexivity.
    + rewrite !passes_started_app, (passes_started_before this bev Hl).
      by rewrite passes_started_hidden.
  - destruct (before_stage_trace _ _ _ _ Hb) as (bev & Ht & Hl).
    destruct (after_stage_trace _ _ _ _ _ _ Ha) as (aev & Hta & Hal).
    exists ([PassStarted] ++ bev ++ settle_events this (heap w1) ++ aev).
    split.
    + rewrite Hta. unfold settled_world. cbn [trace]. rewrite Ht.
      by rewrite <- !app_assoc.
    + rewrite !passes_started_app, passes_started_settle.
      by rewrite (passes_started_before this bev Hl),
        (passes_started_after this _ _ aev Hal).
Qed.

(** A completed pass shows exactly the elements that match the state
    it leaves behind. *)
Lemma pass_shows_matching this w r w' l :
  well_formed this (heap w) -> disciplined this ->
  filterElements this w = (Normal r, w') ->
  l ∈ tracked this (heap w) -> noResultsMessage this ≠ Some l ->
  hidden_of (heap w') l = Some (negb (passes this (heap w') l)).
Proof.
  intros Hwf Hd Hrun Hl Hnr.
  destruct (filterElements_same_inputs this w _ w' Hwf Hd Hrun) as [_ Hin].
  rewrite (completed_flag this w r w' l) by done.
  unfold settled_flag. rewrite decide_False by done.
  by rewrite (same_inputs_passes this (heap w) (heap w')).
Qed.

Lemma verdict_all_sentinel this h l :
  (forall k v, (k, v) ∈ state_of this h -> v = allValue this) ->
  verdict this h l = Normal true.
Proof.
  intros Hall. apply matchesAllFilters_true. intros k v Hin.
  apply filterContributes_true. left. by apply (Hall k v).
Qed.

Lemma visible_passes h l b :
  hidden_of h l = Some (negb b) -> visible h l <-> b = true.
Proof.
  intros Hh. unfold visible. rewrite Hh.
  destruct b; simpl; split; congruence.
Qed.

Lemma reset_run this w :
  well_formed this (heap w) -> filters this ≠ [] ->
  exists fs',
    map name fs' = map name (filters this) /\
    reset this w
    = (setFilters this fs',
       (filterElements (setFilters this fs') ;;; ret tt)
         {| heap := with_state this
                      (reset_state (allValue this) (filters this)
                                   (state_of this (heap w)))
                      (heap w);
            trace := trace w |}).
Proof.
  intros Hwf Hne.
  destruct (resetFilters_run this (filters this) w Hwf) as (fs' & Hfs & Hn).
  exists fs'. split; [done|]. unfold reset.
  destruct (filters this) as [|c fs] eqn:E; [done|]. by rewrite Hfs.
Qed.

Lemma discard_result {A} (m : M A) w o w' :
  (m ;;; ret tt) w = (o, w') ->
  exists o1, m w = (o1, w') /\
             o = match o1 with Normal _ => Normal tt | Thrown e => Thrown e end.
Proof.
  unfold bind, ret. destruct (m w) as [[a|e] w1]; intros [= <- <-]; eauto.
Qed.

(** C4 (amended). After [reset] on a filter with at least one control:
    the state entry under a non-empty control name other than
    [__proto__] is the neutral value of the last control of that name
    (the sentinel; for a select without a sentinel option its first
    option, or the empty string if it has no option); entries under
    other keys are unchanged; one pass runs; and when it completes, a
    tracked element that is not also the no-results target is visible
    iff it matches the new state, so all such elements are visible if
    every value of the state is the sentinel. *)
Theorem reset_sets_neutral_values this w this' o w' :
  well_formed this (heap w) ->
  disciplined this ->
  filters this ≠ [] ->
  reset this w = (this', (o, w')) ->
  (forall k c, last_named k (filters this) = Some c ->
     get k (state_of this (heap w')) = Some (neutral_value (allValue this) c)) /\
  (forall k, last_named k (filters this) = None ->
     get k (state_of this (heap w')) = get k (state_of this (heap w))) /\
  (forall c,
     neutral_value (allValue this) c = allValue this \/
     (exists first rest selected,
        kind c = HTMLSelectElement (first :: rest) selected /\
        (forall opt, opt ∈ first :: rest -> opt ≠ allValue this) /\
        neutral_value (allValue this) c = first) \/
     (exists selected,
        kind c = HTMLSelectElement [] selected /\
        neutral_value (allValue this) c = [])) /\
  (exists evs, trace w' = trace w ++ evs /\ passes_started evs = 1) /\
  (o = Normal tt ->
   forall l, l ∈ tracked this (heap w) -> noResultsMessage this ≠ Some l ->
     (visible (heap w') l <-> verdict this (heap w') l = Normal true) /\
     (ordinary_keys this (heap w') l ->
      (visible (heap w') l <-> every_key_contributes this (heap w') l)) /\
     ((forall k v, (k, v) ∈ state_of this (heap w') -> v = allValue this) ->
      visible (heap w') l)).
Proof.
  intros Hwf Hd Hne Hreset.
  destruct (reset_run this w Hwf Hne) as (fs' & Hn & Hrun).
  rewrite Hrun in Hreset. injection Hreset as <- Hpass.
  apply discard_result in Hpass as (o1 & Hpass & Ho).
  set (st := reset_state (allValue this) (filters this) (state_of this (heap w)))
    in *.
  set (w1 := {| heap := with_state this st (heap w); trace := trace w |}) in *.
  assert (Hwf1 : well_formed (setFilters this fs') (heap w1))
    by (by apply (with_state_well_formed this)).
  assert (Hd1 : disciplined (setFilters this fs')) by done.
  destruct (filterElements_same_inputs _ _ _ _ Hwf1 Hd1 Hpass) as [_ Hin].
  assert (Hst : state_of this (heap w') = st).
  { destruct Hin as (Hs & _). etrans; [exact Hs|].
    apply (with_state_state this). }
  split_and!.
  - intros k c Hk. rewrite Hst. unfold st.
    by rewrite reset_state_lookup, Hk.
  - intros k Hk. rewrite Hst. unfold st.
    by rewrite reset_state_lookup, Hk.
  - intros c. apply neutral_value_cases.
  - apply (filterElements_one_pass _ _ _ _ Hwf1 Hd1 Hpass).
  - intros -> l Hl Hnr. destruct o1 as [r|]; [|done].
    assert (Hl1 : l ∈ tracked (setFilters this fs') (heap w1)).
    { change (l ∈ tracked this (with_state this st (heap w))).
      by rewrite with_state_tracked. }
    pose proof (pass_shows_matching _ _ _ _ l Hwf1 Hd1 Hpass Hl1 Hnr) as Hh.
    change (passes (setFilters this fs') (heap w') l)
      with (passes this (heap w') l) in Hh.
    apply visible_passes in Hh. rewrite passes_true in Hh.
    split_and!.
    + done.
    + intros Hord. by rewrite <- verdict_iff.
    + intros Hall. by apply Hh, verdict_all_sentinel.
Qed.

Lemma reset_witness :
  let this := Sample.instance None None [Sample.plain_select] in
  let r := reset this Sample.start in
  (well_formed this (heap Sample.start) /\ disciplined this /\
   filters this ≠ [] /\ r = (r.1, (Normal tt, r.2.2))) /\
  get (js "season") (state_of this (heap r.2.2)) = Some (js "spring") /\
  exists evs, trace r.2.2 = trace Sample.start ++ evs /\ passes_started evs = 1.
Proof.
  intros this r.
  pose proof (sample_well_formed None None [Sample.plain_select]) as Hwf.
  assert (Hd : disciplined this) by (by apply no_hooks_disciplined).
  assert (Hne : filters this ≠ []) by done.
  assert (Hr : r = (r.1, (Normal tt, r.2.2))) by (vm_compute; reflexivity).
  split; [by split_and!|].
  destruct (reset_sets_neutral_values this Sample.start _ _ _ Hwf Hd Hne Hr)
    as (Hval & _ & _ & Hone & _).
  split; [|exact Hone].
  assert (Hl : last_named (js "season") (filters this)
               = Some Sample.plain_select) by (vm_compute; reflexivity).
  exact (Hval (js "season") Sample.plain_select Hl).
Defined.

(** C4, as first written, fails on a select without a
    match-all option: the reset selects "spring", the summer card is
    hidden, and a pass in which no filter constrains shows it. *)
Lemma reset_as_first_written_fails :
  ~ reset_as_first_written
      (Sample.instance None None [Sample.plain_select]) Sample.start.
Proof.
  set (this := Sample.instance None None [Sample.plain_select]).
  intros (_ & _ & Hsame).
  assert (Hin : 2%positive ∈ tracked this (heap Sample.start))
    by (apply list_elem_of_In; vm_compute; auto).
  destruct (Hsame 2%positive Hin) as [_ Hback].
  assert (Hhidden : hidden_of (heap (reset this Sample.start).2.2) 2%positive
                    = Some true)
    by (vm_compute; reflexivity).
  assert (Hshown : visible
    (heap (filterElements (reset this Sample.start).1
             {| heap := neutral_store this (heap (reset this Sample.start).2.2);
                trace := trace (reset this Sample.start).2.2 |}).2) 2%positive)
    by (vm_compute; reflexivity).
  specialize (Hback Hshown). unfold visible in Hback.
  rewrite Hhidden in Hback. discriminate Hback.
Qed.

(** C10. [reset] on a filter with no controls returns at once: the
    instance, the store (state, flags, indicator, status text) and the
    log of passes are what they were. *)
Theorem reset_without_controls_does_nothing this w :
  filters this = [] ->
  reset this w = (this, (Normal tt, w)).
Proof. intros Hf. unfold reset. by rewrite Hf. Qed.

Lemma reset_without_controls_witness :
  let this := Sample.instance None None [] in
  filters this = [] /\ reset this Sample.start = (this, (Normal tt, Sample.start)).
Proof.
  intros this. split; [reflexivity|].
  by apply reset_without_controls_does_nothing.
Defined.

(** C6. Constructing with a missing or an empty selector throws at
    once: no instance is returned and the world is untouched — no state
    object, no tracked array, no pass. *)
Theorem constructor_requires_selector doc options w :
  constructor doc None options w = (Thrown selectorRequired, w) /\
  constructor doc (Some []) options w = (Thrown selectorRequired, w).
Proof. split; reflexivity. Qed.

(** ** The registered keys *)



Lemma set_keeps key value props k :
  is_Some (get k props) -> is_Some (get k (set key value props)).
Proof. intros Hk. rewrite get_set. by destruct (_ && _). Qed.

Lemma _initializeFilters_run state all fs :
  forall st w,
    heap w !! state = Some (PlainObject st) ->
    _initializeFilters state all fs w
    = (Normal tt,
       {| heap := <[state := PlainObject (foldl (register_entry all) st fs)]>
                    (heap w);
          trace := trace w |}).
Proof.
  induction fs as [|c fs IH]; intros st w Hs.
  - cbn [_initializeFilters foldl]. rewrite insert_id by done. by destruct w.
  - cbn [_initializeFilters foldl]. unfold bind.
    rewrite (setProperty_run state st) by done.
    rewrite (IH (register_entry all st c)); cbn [heap trace].
    + by rewrite insert_insert_eq.
    + apply lookup_insert_eq.
Qed.



Lemma register_entries_NoDup all fs st :
  NoDup (map fst st) -> NoDup (map fst (foldl (register_entry all) st fs)).
Proof.
  revert st. induction fs as [|c fs IH]; intros st Hnd; [done|].
  cbn [foldl]. apply IH. by apply NoDup_keys_set.
Qed.

Lemma querySelector_in doc sel l :
  querySelector doc sel = Some l -> l ∈ querySelectorAll doc sel.
Proof.
  unfold querySelector. destruct (querySelectorAll doc sel); [done|].
  intros [= ->]. apply elem_of_cons. by left.
Qed.

Lemma is_element_insert_fresh h l l' o :
  h !! l' = None -> is_element h l -> is_element (<[l' := o]> h) l.
Proof.
  intros Hf [n Hn]. exists n. rewrite lookup_insert_ne; [done|]. congruence.
Qed.

(** What [_initializeElements] builds is well formed for any instance
    that points at it. *)
Lemma initialized_well_formed doc this h l :
  h !! l = None ->
  document_in_store doc h ->
  (exists props, h !! currentFilters this = Some (PlainObject props)) ->
  elements this = l ->
  (forall t, noResultsMessage this = Some t -> is_element h t) ->
  (forall t, statusElement this = Some t -> is_element h t) ->
  well_formed this
    (<[l := Array (querySelectorAll doc (elementsSelector this))]> h).
Proof.
  intros Hf Hdoc [props Hs] He Hnr Hst.
  assert (Ht : tracked this
                 (<[l := Array (querySelectorAll doc (elementsSelector this))]> h)
               = querySelectorAll doc (elementsSelector this)).
  { unfold tracked. by rewrite He, lookup_insert_eq. }
  unfold well_formed. rewrite Ht. split_and!.
  - exists props. rewrite lookup_insert_ne; [done|]. congruence.
  - eexists. rewrite He. apply lookup_insert_eq.
  - intros x Hx. apply is_element_insert_fresh; [done|]. by eapply Hdoc.
  - intros x Hx. apply is_element_insert_fresh; auto.
  - intros x Hx. apply is_element_insert_fresh; auto.
Qed.

Lemma filterElements_keeps_state this w o w' :
  well_formed this (heap w) -> disciplined this ->
  filterElements this w = (o, w') ->
  well_formed this (heap w') /\
  state_of this (heap w') = state_of this (heap w).
Proof.
  intros Hwf Hd Hrun.
  destruct (filterElements_same_inputs this w o w' Hwf Hd Hrun)
    as (Hwf' & Hs & _).
  done.
Qed.

(** The constructor up to its first pass, for any options. *)
Lemma constructor_run doc selector options w :
  document_in_store doc (heap w) -> falsy selector = false ->
  exists this0 w0,
    constructor doc (Some selector) options w
    = (filterElements this0 ;;; ret this0) w0 /\
    well_formed this0 (heap w0) /\
    trace w0 = trace w /\
    (forall l, is_Some (heap w !! l) -> heap w0 !! l = heap w !! l) /\
    state_of this0 (heap w0)
    = foldl (register_entry (allValue this0)) [] (filters this0) /\
    tracked this0 (heap w0) = querySelectorAll doc selector /\
    filters this0 = querySelectorAll_controls doc (filtersSelector this0) /\
    noResultsMessage this0 = querySelector doc (noResultsSelector this0) /\
    elementsSelector this0 = selector /\
    filtersSelector this0
    = default (js "select[name]") (opt_filtersSelector options) /\
    noResultsSelector this0
    = default (js ".no-results-message") (opt_noResultsSelector options) /\
    statusSelector this0
    = match opt_statusSelector options with
      | Some sel => if falsy sel then None else Some sel
      | None => None
      end /\
    allValue this0 = default (js "all") (opt_allValue options) /\
    matchMode this0
    = (if bool_decide (opt_matchMode options = Some (js "contains"))
       then Contains else Equals) /\
    onBeforeFilter this0 = opt_onBeforeFilter options /\
    onAfterFilter this0 = opt_onAfterFilter options.
Proof.
  intros Hdoc Hsel. unfold constructor. rewrite Hsel.
  unfold bind at 1. unfold alloc at 1.
  set (state := fresh (dom (heap w))).
  set (h1 := <[state := PlainObject []]> (heap w)).
  unfold bind at 1. unfold _initializeElements.
  unfold bind at 1. unfold alloc at 1. cbn [heap trace].
  set (array := fresh (dom h1)).
  unfold ret at 1. cbn [fst snd].
  unfold bind at 1.
  assert (Hstate : heap w !! state = None) by apply fresh_lookup.
  assert (Harr : h1 !! array = None) by apply fresh_lookup.
  assert (Hne : array ≠ state).
  { intros E. subst h1. rewrite E, lookup_insert_eq in Harr. done. }
  rewrite (_initializeFilters_run state _ _ []).
  2:{ cbn [heap]. rewrite lookup_insert_ne by done. apply lookup_insert_eq. }
  cbn [heap trace].
  match goal with
  | |- context [filterElements ?t] => set (this0 := t)
  end.
  match goal with
  | |- context [bind (filterElements this0) _ ?x] => set (w0 := x)
  end.
  exists this0, w0.
  assert (Hst : h1 !! state = Some (PlainObject [])) by apply lookup_insert_eq.
  assert (Hshape : heap w0
            = with_state this0 (foldl (register_entry (allValue this0)) []
                                      (filters this0))
                (<[array := Array (querySelectorAll doc (elementsSelector this0))]>
                   h1)) by reflexivity.
  assert (Hwf1 : well_formed this0
            (<[array := Array (querySelectorAll doc (elementsSelector this0))]>
               h1)).
  { assert (Hdoc1 : document_in_store doc h1).
    { intros s l Hl. apply is_element_insert_fresh; [apply fresh_lookup|].
      by eapply Hdoc. }
    apply (initialized_well_formed doc this0 h1 array); try done.
    - eexists. exact Hst.
    - intros t Ht. eapply Hdoc1, querySelector_in, Ht.
    - intros t Ht. cbn [statusElement this0] in Ht.
      destruct (match opt_statusSelector options with
                | Some sel => _ | None => _ end) as [s|]; [|done].
      eapply Hdoc1, querySelector_in, Ht. }
  split_and!; try done.
  - rewrite Hshape. by apply with_state_well_formed.
  - intros l Hl. rewrite Hshape. unfold with_state.
    change (currentFilters this0) with state.
    assert (Hl1 : l ≠ state) by (intros ->; rewrite Hstate in Hl; by destruct Hl).
    assert (Hl2 : l ≠ array).
    { intros ->. subst h1. rewrite lookup_insert_ne in Harr by done.
      rewrite Harr in Hl. by destruct Hl. }
    rewrite lookup_insert_ne by done. rewrite lookup_insert_ne by done.
    subst h1. by rewrite lookup_insert_ne.
  - rewrite Hshape. by rewrite with_state_state.
  - rewrite Hshape. rewrite with_state_tracked by done.
    unfold tracked. change (elements this0) with array.
    by rewrite lookup_insert_eq.
Qed.


Lemma updateFilter_run doc this e w :
  well_formed this (heap w) ->
  updateFilter doc this e w
  = let w1 := {| heap := with_state this
                           (set (property_key (target_name e)) (target_value e)
                                (state_of this (heap w)))
                           (heap w);
                 trace := trace w |} in
    if has_startViewTransition doc
    then (Normal (Some (fun this => filterElements this)), w1)
    else match filterElements this w1 with
         | (Normal _, w2) => (Normal None, w2)
         | (Thrown err, w2) => (Thrown err, w2)
         end.
Proof.
  intros Hwf. unfold updateFilter. unfold bind at 1.
  rewrite setProperty_state by done. cbv zeta.
  destruct (has_startViewTransition doc); cbn [negb]; [done|].
  unfold bind, ret. by destruct (filterElements this _) as [[r|err] w1].
Qed.








Lemma sample_document_in_store fs :
  document_in_store (Sample.page fs) (heap Sample.bare).
Proof.
  intros sel l. unfold Sample.page. cbn [querySelectorAll].
  repeat case_bool_decide;
    repeat (intros [->|Hl]%elem_of_cons; [eexists; reflexivity|revert Hl]);
    by intros ?%elem_of_nil.
Qed.



(** ** Completion, defaults and shared elements *)

(** In equals mode no match throws. *)
Lemma filterContributes_equals all ds k v :
  exists b, filterContributes all Equals ds k v = Normal b.
Proof.
  unfold filterContributes. destruct (bool_decide (v = all)); [by eexists|].
  destruct (dataset_read ds k); by eexists.
Qed.

Lemma equals_mode_total this h :
  matchMode this = Equals -> matching_total this h.
Proof.
  intros Hm. apply until_throw_None. intros l _.
  unfold verdict, matchesAllFilters. rewrite Hm.
  eexists. apply every_total, Forall_forall.
  intros [k v] _. apply filterContributes_equals.
Qed.

(** Nor does it when every constraining key is an ordinary one. *)
Lemma filterContributes_ordinary all mode ds k v :
  (v ≠ all -> ds !! k = None -> is_inherited k = false) ->
  exists b, filterContributes all mode ds k v = Normal b.
Proof.
  intros Hord. unfold filterContributes.
  case_bool_decide as Ev; [by eexists|]. unfold dataset_read.
  destruct (ds !! k) as [d|] eqn:E.
  - destruct mode; by eexists.
  - rewrite Hord by done. by eexists.
Qed.

Lemma ordinary_keys_total this h :
  (forall l, l ∈ tracked this h -> ordinary_keys this h l) ->
  matching_total this h.
Proof.
  intros Hord. apply until_throw_None. intros l Hl.
  unfold verdict, matchesAllFilters.
  eexists. apply every_total, Forall_forall.
  intros [k v] Hin. apply filterContributes_ordinary.
  by apply (Hord l Hl k v).
Qed.

(** With hooks that do not throw, a pass on a well-formed store in
    which no match throws always completes. *)
Lemma pass_completes this w :
  well_formed this (heap w) -> disciplined this -> never_throw this ->
  matching_total this (heap w) ->
  exists w',
    filterElements this w
    = (Normal (visibleCount_of this (heap w), length (tracked this (heap w))),
       w').
Proof.
  intros Hwf Hd [Hnb Hna] Htot. rewrite filterElements_run by done.
  assert (Hb : (before_stage this w).1 = Normal tt).
  { unfold before_stage. destruct (onBeforeFilter this) as [hk|] eqn:E; [|done].
    unfold before_call. cbn [fst]. by apply Hnb. }
  destruct (before_stage this w) as [ob w1]. cbn [fst] in Hb. subst ob.
  unfold matching_total in Htot. rewrite Htot. cbn zeta.
  assert (Ha : forall vc tc w2, (after_stage this vc tc w2).1 = Normal tt).
  { intros vc tc w2. unfold after_stage.
    destruct (onAfterFilter this) as [hk|] eqn:E; [|done].
    unfold after_call. cbn [fst]. by apply Hna. }
  specialize (Ha (visibleCount_of this (heap w))
                 (length (tracked this (heap w))) (settled_world this w1)).
  destruct (after_stage _ _ _ _) as [oa w2]. cbn [fst] in Ha. subst oa.
  by exists w2.
Qed.

(** What the constructor stores: the defaults of the omitted options. *)
Lemma constructor_defaults doc selector w this w' :
  let omitted :=
    {| opt_filtersSelector := None; opt_noResultsSelector := None;
       opt_statusSelector := None; opt_allValue := None;
       opt_statusFormatter := None; opt_matchMode := None;
       opt_onBeforeFilter := None; opt_onAfterFilter := None |} in
  constructor doc (Some selector) omitted w = (Normal this, w') ->
  allValue this = js "all" /\
  matchMode this = Equals /\
  statusFormatter this = defaultStatusFormatter /\
  filtersSelector this = js "select[name]" /\
  noResultsSelector this = js ".no-results-message" /\
  statusElement this = None /\
  onBeforeFilter this = None /\ onAfterFilter this = None.
Proof.
  intros omitted Hnew. unfold constructor in Hnew.
  destruct (falsy selector); [done|].
  unfold _initializeElements, bind, alloc, ret in Hnew.
  cbn [heap trace fst snd] in Hnew.
  destruct (_initializeFilters _ _ _ _) as [[[]|e] w1]; [|done].
  destruct (filterElements _ _) as [[r|e] w2]; [|done].
  by injection Hnew as <- _.
Qed.

(** The copies are shallow: a hook that reaches an element through the
    array copy and rewrites its attributes changes what the pass shows.
    Such a hook writes outside what it was handed. *)
Example elements_are_shared :
  let quiet := Sample.instance None None [Sample.season_select] in
  let meddled :=
    Sample.instance (Some Sample.relabel_before) None [Sample.season_select] in
  (filterElements quiet Sample.start).1 = Normal (1, 2) /\
  (filterElements meddled Sample.start).1 = Normal (2, 2) /\
  ~ mutates_only before_passed Sample.relabel_before.
Proof.
  split_and!; [vm_compute; reflexivity..|].
  intros Hm.
  specialize (Hm {| before_currentFilters := 7%positive;
                    before_elements := 8%positive |}
                 (<[8%positive := Array [1%positive; 2%positive]]> Sample.store)
                 2%positive).
  assert (Hneq : (Sample.relabel_before
                    {| before_currentFilters := 7%positive;
                       before_elements := 8%positive |}
                    (<[8%positive := Array [1%positive; 2%positive]]>
                       Sample.store)).2 !! 2%positive
                 ≠ <[8%positive := Array [1%positive; 2%positive]]>
                     Sample.store !! 2%positive)
    by (vm_compute; discriminate).
  apply Hneq, Hm.
  - eexists. vm_compute. reflexivity.
  - unfold before_passed. cbn [before_currentFilters before_elements].
    repeat (apply not_elem_of_cons; split; [discriminate|]).
    apply not_elem_of_nil.
Qed.

(** [reset] skips a control whose name is empty, although the
    constructor registered it: its entry keeps the old value. A select
    without options stores the empty string. *)
Example reset_skips_unnamed :
  let unnamed :=
    {| name := Some [];
       kind := HTMLSelectElement [js "all"; js "spring"] (Some 1) |} in
  let empty_select :=
    {| name := Some (js "season"); kind := HTMLSelectElement [] None |} in
  let built :=
    constructor (Sample.page [unnamed; empty_select]) (Some (js ".card"))
                Sample.no_options Sample.bare in
  match built with
  | (Normal this, w) =>
      get [] (state_of this (heap w)) = Some (js "spring") /\
      get [] (state_of this (heap (reset this w).2.2)) = Some (js "spring") /\
      get (js "season") (state_of this (heap (reset this w).2.2)) = Some []
  | _ => False
  end.
Proof. vm_compute. repeat split; reflexivity. Qed.

(** ** The written scenarios, run on the sample page *)

Example split_probe :
  split_ws (js "a  b") = [js "a"; js "b"] /\
  split_ws (js " a") = [[]; js "a"] /\
  split_ws (js "a ") = [js "a"; []] /\
  split_comma (js "a, b,") = [js "a"; js " b"; []] /\
  trim (js "  forest meadow ") = js "forest meadow" /\
  number_to_string 0 = js "0" /\
  number_to_string 1203 = js "1203".
Proof. repeat split; reflexivity. Qed.

Example scenario_spring_then_all :
  let this := Sample.instance None None [Sample.season_select] in
  let doc := Sample.page [Sample.season_select] in
  let pick v := {| target_name := Some (js "season"); target_value := v |} in
  let spring := (updateFilter doc this (pick (js "spring")) Sample.start).2 in
  let all := (updateFilter doc this (pick (js "all")) spring).2 in
  hidden_of (heap spring) 1%positive = Some false /\
  hidden_of (heap spring) 2%positive = Some true /\
  text_of (heap spring) 4%positive = Some (js "1 results found") /\
  hidden_of (heap all) 1%positive = Some false /\
  hidden_of (heap all) 2%positive = Some false /\
  text_of (heap all) 4%positive = Some (js "2 results found").
Proof. vm_compute. repeat split; reflexivity. Qed.

Example scenario_no_match :
  let this := Sample.instance None None [Sample.season_select] in
  let doc := Sample.page [Sample.season_select] in
  let winter := {| target_name := Some (js "season");
                   target_value := js "winter" |} in
  let after := (updateFilter doc this winter Sample.start).2 in
  hidden_of (heap after) 3%positive = Some false /\
  text_of (heap after) 4%positive = Some (js "0 results found").
Proof. vm_compute. repeat split; reflexivity. Qed.

Example scenario_contains :
  let tagged : gmap jsstring jsstring := {[ js "tag" := js "forest meadow" ]} in
  let state v : properties := [(js "tag", v)] in
  matchesAllFilters (js "all") Contains (state (js "meadow")) tagged
  = Normal true /\
  matchesAllFilters (js "all") Contains (state (js "water")) tagged
  = Normal false /\
  matchesAllFilters (js "all") Equals (state (js "meadow")) tagged
  = Normal false.
Proof. vm_compute. repeat split; reflexivity. Qed.

(** * Further properties *)

(** ** More on the matching predicate *)

Lemma bool_eq_iff (a b : bool) : (a = true <-> b = true) -> a = b.
Proof. destruct a, b; intros [H1 H2]; auto; symmetry; auto. Qed.

Lemma elem_of_overwrite key value props k v :
  NoDup (map fst props) -> key ∈ map fst props ->
  (k, v) ∈ overwrite key value props
  <-> (k = key /\ v = value) \/ (k ≠ key /\ (k, v) ∈ props).
Proof.
  induction props as [|[k' v'] props IH]; [by intros _ ?%elem_of_nil|].
  cbn [map fst overwrite]. intros [Hk' Hnd]%NoDup_cons Hin.
  case_bool_decide as E.
  - subst k'. rewrite !elem_of_cons. split.
    + intros [[= -> ->]|H]; [by left|]. right. split; [|by right].
      intros ->. apply Hk', list_elem_of_In, in_map_iff.
      exists (key, v). split; [done|by apply list_elem_of_In].
    + intros [[-> ->]|[Hne [[= ? ?]|H]]]; [by left|done|by right].
  - apply elem_of_cons in Hin as [?|Hin]; [done|].
    rewrite !elem_of_cons, (IH Hnd Hin). split.
    + intros [[= -> ->]|[?|[? ?]]]; [right; split; [done|by left]|by left|].
      right. split; [done|by right].
    + intros [?|[Hne [?|?]]]; [right; by left|by left|right; by right].
Qed.

Lemma elem_of_create key value props kv :
  kv ∈ create key value props <-> kv = (key, value) \/ kv ∈ props.
Proof.
  induction props as [|[k' v'] props IH].
  - cbn [create]. rewrite elem_of_cons. done.
  - cbn [create]. destruct (listed_before key k').
    + by rewrite elem_of_cons.
    + rewrite !elem_of_cons, IH. tauto.
Qed.

(** The entries of a state after an assignment. *)
Lemma elem_of_set key value props k v :
  NoDup (map fst props) -> key ≠ proto ->
  (k, v) ∈ set key value props
  <-> (k = key /\ v = value) \/ (k ≠ key /\ (k, v) ∈ props).
Proof.
  intros Hnd Hp. unfold set. rewrite bool_decide_eq_false_2 by done.
  destruct (get key props) as [old|] eqn:E.
  - apply elem_of_overwrite; [done|]. apply get_is_Some. by rewrite E.
  - rewrite elem_of_create. split.
    + intros [[= -> ->]|H]; [by left|]. right. split; [|done].
      intros ->. assert (Hs : is_Some (get key props)); [|by rewrite E in Hs;
                                                           destruct Hs].
      apply get_is_Some, list_elem_of_In, in_map_iff.
      exists (key, v). split; [done|by apply list_elem_of_In].
    + intros [[-> ->]|[_ ?]]; [by left|by right].
Qed.

Lemma elem_of_without key props k v :
  (k, v) ∈ without key props <-> k ≠ key /\ (k, v) ∈ props.
Proof.
  unfold without. rewrite list_elem_of_In, filter_In, <- list_elem_of_In.
  cbn [fst]. rewrite negb_true_iff, bool_decide_eq_false. tauto.
Qed.

(** X1. The filters combine as a conjunction, key by key: an element
    passes a state in which [k] has been set to [v] exactly when the
    entry [k], [v] contributes true and the element passes the state
    without [k]; an entry holding the sentinel does not count, and an
    empty state accepts every element. In equals mode, in which no
    match throws, the verdict is the Boolean conjunction of the two.
    This is for a key other than [__proto__], under which nothing is
    stored. *)
Theorem matchesAllFilters_insert all mode st ds k v :
  NoDup (map fst st) -> k ≠ proto ->
  (matchesAllFilters all mode (set k v st) ds = Normal true
   <-> filterContributes all mode ds k v = Normal true /\
       matchesAllFilters all mode (without k st) ds = Normal true) /\
  (matchesAllFilters all mode (set k all st) ds = Normal true
   <-> matchesAllFilters all mode (without k st) ds = Normal true) /\
  matchesAllFilters all mode [] ds = Normal true /\
  (exists b1 b2,
     filterContributes all Equals ds k v = Normal b1 /\
     matchesAllFilters all Equals (without k st) ds = Normal b2 /\
     matchesAllFilters all Equals (set k v st) ds = Normal (b1 && b2)).
Proof.
  intros Hnd Hp.
  assert (Hins : forall m v',
    matchesAllFilters all m (set k v' st) ds = Normal true
    <-> filterContributes all m ds k v' = Normal true /\
        matchesAllFilters all m (without k st) ds = Normal true).
  { intros m v'. rewrite !matchesAllFilters_true. split.
    - intros H. split.
      + apply H. apply elem_of_set; auto.
      + intros k' u [Hne Hin]%elem_of_without.
        apply H. apply elem_of_set; auto.
    - intros [Hk Hrest] k' u Hin.
      apply (proj1 (elem_of_set _ _ _ _ _ Hnd Hp)) in Hin
        as [[-> ->]|[Hne Hin]]; [done|].
      apply Hrest. by apply elem_of_without. }
  split_and!.
  - apply Hins.
  - rewrite Hins. unfold filterContributes at 1.
    rewrite bool_decide_eq_true_2 by done. tauto.
  - reflexivity.
  - destruct (filterContributes_equals all ds k v) as [b1 Hb1].
    assert (Htot : forall props, exists b,
              matchesAllFilters all Equals props ds = Normal b).
    { intros props. eexists. apply every_total, Forall_forall.
      intros [k' u] _. apply filterContributes_equals. }
    destruct (Htot (without k st)) as [b2 Hb2].
    destruct (Htot (set k v st)) as [b Hb].
    exists b1, b2. split_and!; [done..|]. rewrite Hb. f_equal.
    apply bool_eq_iff. rewrite andb_true_iff.
    specialize (Hins Equals v). rewrite Hb, Hb1, Hb2 in Hins.
    split.
    + intros ->. destruct (proj1 Hins eq_refl) as [? ?]. by simplify_eq.
    + intros [-> ->]. pose proof (proj2 Hins (conj eq_refl eq_refl)).
      by simplify_eq.
Qed.

Lemma matchesAllFilters_insert_witness :
  let st := [(js "season", js "spring")] in
  let ds : gmap jsstring jsstring :=
    {[ js "season" := js "spring"; js "tag" := js "a b" ]} in
  (NoDup (map fst st) /\ js "tag" ≠ proto) /\
  (matchesAllFilters (js "all") Contains (set (js "tag") (js "b") st) ds
   = Normal true
   <-> filterContributes (js "all") Contains ds (js "tag") (js "b")
       = Normal true /\
       matchesAllFilters (js "all") Contains (without (js "tag") st) ds
       = Normal true) /\
  matchesAllFilters (js "all") Contains (set (js "tag") (js "b") st) ds
  = Normal true.
Proof.
  intros st ds.
  assert (Hnd : NoDup (map fst st)).
  { apply NoDup_cons. split; [by intros ?%elem_of_nil|apply NoDup_nil_2]. }
  assert (Hp : js "tag" ≠ proto) by discriminate.
  split; [done|].
  destruct (matchesAllFilters_insert (js "all") Contains st ds (js "tag")
              (js "b") Hnd Hp) as (Hiff & _).
  split; [exact Hiff|]. vm_compute. reflexivity.
Defined.

(** *** Tokens *)

Lemma trimEnd_idem s : trimEnd (trimEnd s) = trimEnd s.
Proof.
  induction s as [|c s IH]; [done|]. cbn [trimEnd].
  destruct (trimEnd s) as [|t ts] eqn:E.
  - destruct (is_ws c) eqn:Hc; [done|]. cbn [trimEnd]. by rewrite Hc.
  - cbn [trimEnd]. cbn [trimEnd] in IH. by rewrite IH.
Qed.

Lemma trimStart_head s c t :
  trimStart s = c :: t -> is_ws c = false.
Proof.
  induction s as [|c' s IH]; [done|]. cbn [trimStart].
  destruct (is_ws c') eqn:Hc; [done|]. by intros [= <- <-].
Qed.

Lemma trimEnd_head c s : is_ws c = false -> exists t, trimEnd (c :: s) = c :: t.
Proof.
  intros Hc. cbn [trimEnd]. destruct (trimEnd s); rewrite ?Hc; eauto.
Qed.

Lemma trim_idem s : trim (trim s) = trim s.
Proof.
  unfold trim. destruct (trimStart s) as [|c t] eqn:E; [done|].
  pose proof (trimStart_head _ _ _ E) as Hc.
  destruct (trimEnd_head c t Hc) as [t' Ht]. rewrite Ht.
  cbn [trimStart]. rewrite Hc, <- Ht. apply trimEnd_idem.
Qed.

Lemma has_comma_app a b : has_comma (a ++ b) = has_comma a || has_comma b.
Proof. unfold has_comma. apply existsb_app. Qed.

Lemma has_comma_trim s : has_comma s = false -> has_comma (trim s) = false.
Proof.
  destruct (trim_split s) as (a & b & Hs & _ & _). rewrite Hs at 1.
  rewrite !has_comma_app. by intros [_ [? _]%orb_false_iff]%orb_false_iff.
Qed.

Lemma split_comma_pieces s :
  Forall (fun p => has_comma p = false) (split_comma s).
Proof.
  induction s as [|c s IH]; cbn [split_comma].
  - by repeat constructor.
  - destruct (N.eqb c comma) eqn:Hc.
    + by constructor.
    + destruct (split_comma s) as [|p ps]; cbn [cons_head].
      * repeat constructor. by rewrite has_comma_cons, Hc.
      * inversion IH; subst. constructor; [|done].
        by rewrite has_comma_cons, Hc.
Qed.

Lemma split_ws_pieces_no_comma f s :
  has_comma s = false ->
  Forall (fun p => has_comma p = false) (split_ws_from f s).
Proof.
  revert f. induction s as [|c s IH]; intros f; cbn [split_ws_from].
  - by repeat constructor.
  - rewrite has_comma_cons. intros [Hc Hs]%orb_false_iff.
    destruct (is_ws c).
    + destruct f; [by apply IH|constructor; [done|by apply IH]].
    + specialize (IH false Hs).
      destruct (split_ws_from false s) as [|p ps]; cbn [cons_head].
      * repeat constructor. by rewrite has_comma_cons, Hc.
      * inversion IH; subst. constructor; [|done].
        by rewrite has_comma_cons, Hc.
Qed.

(** Every token is non-empty, trimmed and free of commas; the tokens of
    a value without a comma hold no white space. *)
Lemma spec_tokens_shape declared t :
  t ∈ spec_tokens declared ->
  t ≠ [] /\ trim t = t /\ has_comma t = false /\
  (has_comma declared = false ->
   forallb (fun c => negb (is_ws c)) t = true).
Proof.
  unfold spec_tokens. intros Ht%list_elem_of_In.
  apply filter_In in Ht as [Ht Hne].
  apply in_map_iff in Ht as (p & <- & Hp).
  split_and!.
  - by destruct (trim p).
  - apply trim_idem.
  - apply has_comma_trim.
    destruct (has_comma declared) eqn:Hc.
    + pose proof (split_comma_pieces declared) as Hall.
      rewrite Forall_forall in Hall. apply Hall. by apply list_elem_of_In.
    + pose proof (split_ws_pieces_no_comma false declared Hc) as Hall.
      rewrite Forall_forall in Hall. apply Hall. by apply list_elem_of_In.
  - intros Hc. rewrite Hc in Hp.
    pose proof (split_ws_pieces false declared) as Hall.
    rewrite Forall_forall in Hall.
    assert (Hp' : forallb (fun c => negb (is_ws c)) p = true)
      by (apply Hall; by apply list_elem_of_In).
    by rewrite trim_no_ws.
Qed.

(** X2. In contains mode a filter value can only match if it is a
    token itself: not empty, without surrounding white space and
    without a comma; and when the declared value has no comma, without
    any white space at all. *)
Theorem contains_match_needs_token declared v :
  containsToken declared v = true ->
  v ≠ [] /\ trim v = v /\ has_comma v = false /\
  (has_comma declared = false ->
   forallb (fun c => negb (is_ws c)) v = true).
Proof. intros Hv%containsToken_spec. by apply spec_tokens_shape. Qed.

Lemma contains_match_witness :
  containsToken (js "New York, Boston") (js "New York") = true /\
  (js "New York" ≠ [] /\ trim (js "New York") = js "New York" /\
   has_comma (js "New York") = false).
Proof.
  assert (H : containsToken (js "New York, Boston") (js "New York") = true)
    by (vm_compute; reflexivity).
  split; [exact H|].
  destruct (contains_match_needs_token _ _ H) as (H1 & H2 & H3 & _).
  by split_and!.
Defined.

(** A declared value with a space and no comma is split at the space:
    the same string as filter value matches in equals mode only. *)
Example contains_splits_at_spaces :
  containsToken (js "New York") (js "New York") = false /\
  containsToken (js "New York") (js "York") = true /\
  containsToken (js "New York,") (js "New York") = true.
Proof. vm_compute. by split_and!. Qed.

Lemma split_ws_single f p :
  forallb (fun c => negb (is_ws c)) p = true -> split_ws_from f p = [p].
Proof.
  revert f. induction p as [|c p IH]; intros f; [done|].
  intros [Hc Hp]%forallb_cons_true. cbn [split_ws_from].
  apply negb_true_iff in Hc. rewrite Hc. by rewrite (IH false Hp).
Qed.

(** X3. On a declared value that is a single token (not empty, no
    comma, no white space) contains mode and equals mode agree. *)
Theorem contains_equals_on_single_token all ds k declared v :
  ds !! k = Some declared ->
  declared ≠ [] ->
  has_comma declared = false ->
  forallb (fun c => negb (is_ws c)) declared = true ->
  filterContributes all Contains ds k v = filterContributes all Equals ds k v.
Proof.
  intros Hk Hne Hc Hws. unfold filterContributes, dataset_read. rewrite Hk.
  destruct (bool_decide (v = all)); [done|]. f_equal.
  unfold containsToken. rewrite trim_no_ws by done.
  destruct declared as [|c d]; [done|]. cbn [falsy].
  rewrite Hc. unfold split_ws. rewrite split_ws_single by done.
  cbn [map List.filter]. rewrite trim_no_ws by done.
  cbn [truthy falsy negb existsb]. by rewrite orb_false_r.
Qed.

Lemma contains_equals_witness :
  let ds : gmap jsstring jsstring := {[ js "season" := js "spring" ]} in
  (ds !! js "season" = Some (js "spring") /\ js "spring" ≠ [] /\
   has_comma (js "spring") = false /\
   forallb (fun c => negb (is_ws c)) (js "spring") = true) /\
  filterContributes (js "all") Contains ds (js "season") (js "summer")
  = filterContributes (js "all") Equals ds (js "season") (js "summer").
Proof.
  intros ds.
  assert (H1 : ds !! js "season" = Some (js "spring")) by reflexivity.
  assert (H2 : js "spring" ≠ []) by discriminate.
  assert (H3 : has_comma (js "spring") = false) by reflexivity.
  assert (H4 : forallb (fun c => negb (is_ws c)) (js "spring") = true)
    by reflexivity.
  split; [by split_and!|].
  exact (contains_equals_on_single_token _ ds _ _ _ H1 H2 H3 H4).
Defined.

(** ** More on a pass *)

Lemma same_core_preserved h h1 h2 :
  same_core h h1 -> preserved h1 h2 ->
  forall l, is_Some (h !! l) -> core <$> h2 !! l = core <$> h !! l.
Proof.
  intros Hc Hp l Hl. rewrite Hp; [apply Hc|].
  apply elem_of_dom. rewrite (same_core_dom h h1 Hc). by apply elem_of_dom.
Qed.

Lemma settle_untouched this h l :
  l ∉ tracked this h -> noResultsMessage this ≠ Some l ->
  statusElement this ≠ Some l ->
  settle this h !! l = h !! l.
Proof.
  intros Ht Hn Hs. rewrite settle_lookup. unfold settle_at.
  by rewrite !decide_False.
Qed.

(** What a pass leaves alone, however it ends. *)
Lemma filterElements_frame this w o w' :
  well_formed this (heap w) ->
  disciplined this ->
  filterElements this w = (o, w') ->
  (forall l, is_Some (heap w !! l) ->
     core <$> heap w' !! l = core <$> heap w !! l) /\
  (forall l, is_Some (heap w !! l) ->
     l ∉ tracked this (heap w) ->
     noResultsMessage this ≠ Some l -> statusElement this ≠ Some l ->
     heap w' !! l = heap w !! l).
Proof.
  intros Hwf Hd Hrun.
  destruct (filterElements_cases this w _ w' Hwf Hd Hrun)
    as [(e & _ & _ & Hp)|[(e & w1 & _ & _ & _ & _ & _ & Hp)
       |(w1 & o' & _ & _ & _ & _ & _ & Hp)]].
  - split; intros l Hl; [by rewrite Hp|intros _ _ _; by apply Hp].
  - split.
    + apply (same_core_preserved _ (heap (aborted_world this w))); [|done].
      apply same_core_aborted.
    + intros l Hl Ht Hn Hs. rewrite Hp.
      * rewrite aborted_lookup. rewrite decide_False; [done|].
        intros Hin. by apply Ht, (until_throw_sublist (verdict this (heap w))).
      * apply elem_of_dom.
        rewrite (same_core_dom _ _ (same_core_aborted this w)).
        by apply elem_of_dom.
  - split.
    + apply (same_core_preserved _ (settle this (heap w))); [|done].
      apply same_core_settle.
    + intros l Hl Ht Hn Hs.
      rewrite Hp by (by apply settle_is_Some). by apply settle_untouched.
Qed.



(** X5. The count a completed pass reports is the number of tracked
    elements it leaves visible, and never exceeds the total, provided
    the no-results target is not itself a tracked element. *)
Theorem visibleCount_is_accurate this w vc tc w' :
  well_formed this (heap w) ->
  disciplined this ->
  (forall t, noResultsMessage this = Some t -> t ∉ tracked this (heap w)) ->
  filterElements this w = (Normal (vc, tc), w') ->
  vc = length (List.filter (shown (heap w')) (tracked this (heap w))) /\
  tc = length (tracked this (heap w)) /\
  vc <= tc.
Proof.
  intros Hwf Hd Hnr Hrun.
  destruct (filterElements_cases this w _ w' Hwf Hd Hrun)
    as [(e & [=] & _)|[(e & ? & [=] & _)|(w1 & o' & _ & _ & _ & Ho & _ & _)]].
  assert (vc = visibleCount_of this (heap w) /\
          tc = length (tracked this (heap w))) as [-> ->]
    by (destruct o'; by simplify_eq).
  assert (Hsame : List.filter (shown (heap w')) (tracked this (heap w))
                  = List.filter (passes this (heap w)) (tracked this (heap w))).
  { apply filter_ext_in. intros l Hl%list_elem_of_In. unfold shown.
    rewrite (completed_flag this w _ w' l) by done. unfold settled_flag.
    rewrite decide_False by (intros Hn; by apply (Hnr l Hn)).
    by destruct (passes this (heap w) l). }
  split_and!; [by rewrite Hsame|done|].
  unfold visibleCount_of. apply List.filter_length_le.
Qed.

Lemma visibleCount_witness :
  let run := filterElements Sample.this Sample.start in
  (well_formed Sample.this (heap Sample.start) /\ disciplined Sample.this /\
   (forall t, noResultsMessage Sample.this = Some t ->
              t ∉ tracked Sample.this (heap Sample.start)) /\
   run = (Normal (1, 2), run.2)) /\
  1 = length (List.filter (shown (heap run.2))
                          (tracked Sample.this (heap Sample.start))).
Proof.
  intros run.
  pose proof (sample_well_formed (Some Sample.scribble_before)
                (Some Sample.scribble_after) [Sample.season_select]) as Hwf.
  assert (Hnr : forall t, noResultsMessage Sample.this = Some t ->
                          t ∉ tracked Sample.this (heap Sample.start)).
  { intros t [= <-] Hin%list_elem_of_In. vm_compute in Hin.
    destruct Hin as [Hin|[Hin|[]]]; discriminate Hin. }
  assert (Hrun : run = (Normal (1, 2), run.2)) by (vm_compute; reflexivity).
  split; [split_and!; [done|apply sample_disciplined|done..]|].
  by destruct (visibleCount_is_accurate Sample.this Sample.start 1 2 _ Hwf
                 (sample_disciplined _) Hnr Hrun) as (Hvc & _).
Defined.

(** X6. When no filter constrains (every value of the state is the
    sentinel, or the state is empty) a completed pass shows every
    tracked element that is not also the no-results target: the
    visible count is the total count, and the no-results target is
    hidden exactly when there is at least one tracked element. *)
Theorem unconstrained_pass_shows_all this w vc tc w' :
  well_formed this (heap w) ->
  disciplined this ->
  (forall k v, (k, v) ∈ state_of this (heap w) -> v = allValue this) ->
  filterElements this w = (Normal (vc, tc), w') ->
  vc = tc /\
  (forall l, l ∈ tracked this (heap w) -> noResultsMessage this ≠ Some l ->
     visible (heap w') l) /\
  (forall t, noResultsMessage this = Some t ->
     hidden_of (heap w') t = Some (negb (Nat.eqb tc 0))).
Proof.
  intros Hwf Hd Hall Hrun.
  assert (Hv : forall l, passes this (heap w) l = true)
    by (intros l; by apply passes_true, verdict_all_sentinel).
  destruct (filterElements_cases this w _ w' Hwf Hd Hrun)
    as [(e & [=] & _)|[(e & ? & [=] & _)
       |(w1 & o' & _ & _ & _ & Ho & _ & Hp)]].
  assert (vc = visibleCount_of this (heap w) /\
          tc = length (tracked this (heap w))) as [-> ->]
    by (destruct o'; by simplify_eq).
  assert (Hcount : visibleCount_of this (heap w)
                   = length (tracked this (heap w))).
  { unfold visibleCount_of. f_equal.
    generalize (tracked this (heap w)) as ls.
    induction ls as [|l ls IH]; [done|].
    simpl. rewrite Hv. by f_equal. }
  split_and!; [done| |].
  - intros l Hl Hn. unfold visible.
    rewrite (completed_flag this w _ w' l) by done. unfold settled_flag.
    by rewrite decide_False, Hv.
  - intros t Ht. rewrite (preserved_hidden _ _ t Hp).
    + rewrite settle_hidden_noResults by done.
      by rewrite hasVisible_count, Hcount.
    + apply settle_is_Some, is_element_is_Some.
      by apply (well_formed_noResults this).
Qed.

Lemma unconstrained_witness :
  let this := Sample.instance None None [] in
  let w := {| heap := <[5%positive := PlainObject []]> Sample.store;
              trace := [] |} in
  let run := filterElements this w in
  (well_formed this (heap w) /\ disciplined this /\
   (forall k v, (k, v) ∈ state_of this (heap w) -> v = allValue this) /\
   run = (Normal (2, 2), run.2)) /\
  visible (heap run.2) 2%positive /\
  hidden_of (heap run.2) 3%positive = Some true.
Proof.
  intros this w run.
  assert (Hwf : well_formed this (heap w)).
  { change (well_formed this (with_state this [] Sample.store)).
    apply with_state_well_formed, sample_well_formed. }
  assert (Hd : disciplined this) by (by apply no_hooks_disciplined).
  assert (Hall : forall k v, (k, v) ∈ state_of this (heap w) ->
                             v = allValue this).
  { intros k v. change (state_of this (heap w)) with
      (state_of this (with_state this [] Sample.store)).
    rewrite with_state_state. by intros ?%elem_of_nil. }
  assert (Hrun : run = (Normal (2, 2), run.2)) by (vm_compute; reflexivity).
  split; [by split_and!|].
  destruct (unconstrained_pass_shows_all this w 2 2 _ Hwf Hd Hall Hrun)
    as (_ & Hvis & Hnr).
  split.
  - apply Hvis; [|discriminate]. apply list_elem_of_In. vm_compute. auto.
  - exact (Hnr 3%positive eq_refl).
Defined.

(** ** The display a pass leaves *)

Lemma same_inputs_settled_display this h h' :
  same_inputs this h h' -> settled_display this h' = settled_display this h.
Proof.
  intros Hi. unfold settled_display.
  rewrite (same_inputs_hasVisible this h h' Hi),
          (same_inputs_visibleCount this h h' Hi), (proj1 (proj2 Hi)).
  do 2 f_equal. apply map_ext_in. intros l Hl%list_elem_of_In.
  by rewrite (same_inputs_settled_flag this h h' Hi).
Qed.

Lemma same_inputs_sym this h h' :
  same_inputs this h h' -> same_inputs this h' h.
Proof.
  intros (Hs & Ht & Hd). split_and!; [done..|].
  intros l Hl. symmetry. apply Hd. by rewrite <- Ht.
Qed.

Lemma pass_display this w r w' :
  well_formed this (heap w) -> disciplined this ->
  filterElements this w = (Normal r, w') ->
  display this (heap w') = settled_display this (heap w).
Proof.
  intros Hwf Hd Hrun.
  destruct (filterElements_same_inputs this w _ w' Hwf Hd Hrun)
    as (Hwf' & Hs & Ht & Hds).
  destruct (filterElements_cases this w _ w' Hwf Hd Hrun)
    as [(e & [=] & _)|[(e & ? & [=] & _)|(w1 & o' & _ & _ & _ & _ & _ & Hp)]].
  unfold display, settled_display. rewrite Ht. f_equal; [f_equal|].
  - apply map_ext_in. intros l Hl%list_elem_of_In.
    by apply (completed_flag this w r w' l).
  - destruct (noResultsMessage this) as [t|] eqn:Ht'; [|done]. simpl. f_equal.
    rewrite (preserved_hidden _ _ t Hp).
    + by apply settle_hidden_noResults.
    + apply settle_is_Some, is_element_is_Some.
      by apply (well_formed_noResults this).
  - destruct (statusElement this) as [t|] eqn:Ht'; [|done]. simpl. f_equal.
    rewrite (preserved_text _ _ t Hp).
    + by apply settle_text_status.
    + apply settle_is_Some, is_element_is_Some.
      by apply (well_formed_status this).
Qed.

(** Whether an element passes does not depend on the order of the
    entries of the state. *)
Lemma passes_entries this h h' l :
  dataset_of h' l = dataset_of h l ->
  (forall kv, kv ∈ state_of this h' <-> kv ∈ state_of this h) ->
  passes this h' l = passes this h l.
Proof.
  intros Hds Hst. apply bool_eq_iff. rewrite !passes_true. unfold verdict.
  rewrite !matchesAllFilters_true, Hds. split; intros H k v Hin.
  - by apply H, Hst.
  - by apply H, Hst.
Qed.

Lemma settled_display_entries this h h' :
  tracked this h' = tracked this h ->
  (forall l, l ∈ tracked this h -> dataset_of h' l = dataset_of h l) ->
  (forall kv, kv ∈ state_of this h' <-> kv ∈ state_of this h) ->
  settled_display this h' = settled_display this h.
Proof.
  intros Ht Hds Hst.
  assert (Hp : forall l, l ∈ tracked this h ->
                         passes this h' l = passes this h l)
    by (intros l Hl; apply passes_entries; auto).
  assert (Hvc : visibleCount_of this h' = visibleCount_of this h).
  { unfold visibleCount_of. rewrite Ht. f_equal. apply filter_ext_in.
    intros l Hl%list_elem_of_In. by apply Hp. }
  assert (Hhv : hasVisible_of this h' = hasVisible_of this h).
  { unfold hasVisible_of. rewrite Ht.
    apply bool_eq_iff. rewrite !existsb_exists.
    split; intros (l & Hl & Hpl); exists l; (split; [done|]);
      apply list_elem_of_In in Hl; by rewrite ?Hp in *. }
  unfold settled_display. rewrite Ht, Hvc, Hhv. do 2 f_equal.
  apply map_ext_in. intros l Hl%list_elem_of_In. unfold settled_flag.
  by rewrite Hhv, Hp.
Qed.

Lemma with_state_same_inputs this st h h' :
  well_formed this h -> well_formed this h' ->
  same_inputs this h h' ->
  same_inputs this (with_state this st h) (with_state this st h').
Proof.
  intros Hwf Hwf' (Hs & Ht & Hd). split_and!.
  - by rewrite !with_state_state.
  - by rewrite !with_state_tracked.
  - intros l. rewrite with_state_tracked by done. intros Hl.
    rewrite (with_state_dataset this h st Hwf)
      by (by apply (well_formed_element this)).
    rewrite (with_state_dataset this h' st Hwf')
      by (apply (well_formed_element this); [done|by rewrite Ht]).
    by apply Hd.
Qed.

Lemma same_inputs_matching_total this h h' :
  same_inputs this h h' -> matching_total this h' <-> matching_total this h.
Proof.
  intros Hi. unfold matching_total.
  by rewrite (same_inputs_handled this h h' Hi).
Qed.

(** ** [updateFilter] *)

(** The world in which the pass of an update runs, and the world it
    leaves, whether the pass runs at once or is handed to a view
    transition. *)
Lemma updated_run doc this e w :
  well_formed this (heap w) ->
  let st := set (property_key (target_name e)) (target_value e)
                (state_of this (heap w)) in
  let w0 := {| heap := with_state this st (heap w); trace := trace w |} in
  updated doc this e w = (filterElements this w0).2.
Proof.
  intros Hwf st w0. unfold updated.
  rewrite updateFilter_run by done. cbv zeta. fold st. fold w0.
  destruct (has_startViewTransition doc); [done|].
  by destruct (filterElements this w0) as [[r|err] w1].
Qed.

Lemma updated_inputs doc this e w :
  well_formed this (heap w) -> disciplined this ->
  let st := set (property_key (target_name e)) (target_value e)
                (state_of this (heap w)) in
  well_formed this (with_state this st (heap w)) /\
  well_formed this (heap (updated doc this e w)) /\
  same_inputs this (with_state this st (heap w))
                   (heap (updated doc this e w)) /\
  state_of this (heap (updated doc this e w)) = st /\
  tracked this (heap (updated doc this e w)) = tracked this (heap w).
Proof.
  intros Hwf Hd st. rewrite updated_run by done. fold st.
  set (w0 := {| heap := with_state this st (heap w); trace := trace w |}).
  assert (Hwf0 : well_formed this (heap w0))
    by (by apply with_state_well_formed).
  destruct (filterElements this w0) as [o w1] eqn:Hrun. cbn [snd].
  destruct (filterElements_same_inputs this w0 _ w1 Hwf0 Hd Hrun)
    as (Hwf1 & Hi).
  split_and!; try done.
  - destruct Hi as (Hs & _). rewrite Hs. apply with_state_state.
  - destruct Hi as (_ & Ht & _). rewrite Ht. by apply with_state_tracked.
Qed.

(** The display after an update in which no hook and no match
    throws. *)
Lemma updated_display doc this e w :
  well_formed this (heap w) -> disciplined this -> never_throw this ->
  let st := set (property_key (target_name e)) (target_value e)
                (state_of this (heap w)) in
  matching_total this (with_state this st (heap w)) ->
  display this (heap (updated doc this e w))
  = settled_display this (with_state this st (heap w)).
Proof.
  intros Hwf Hd Hn st Htot. rewrite updated_run by done. fold st.
  set (w0 := {| heap := with_state this st (heap w); trace := trace w |}).
  assert (Hwf0 : well_formed this (heap w0))
    by (by apply with_state_well_formed).
  destruct (pass_completes this w0 Hwf0 Hd Hn Htot) as [w1 Hrun].
  rewrite Hrun. cbn [snd].
  by rewrite (pass_display this w0 _ w1 Hwf0 Hd Hrun).
Qed.

(** X7. [updateFilter] writes the value of the event target under the
    target's name (nothing is stored under [__proto__]) and leaves
    every other entry of the state and the tracked elements as they
    are. Without [document.startViewTransition] it runs exactly one
    pass before it returns. With it, [updateFilter] returns normally
    and has run no pass: it has handed [runFilter] to the browser, and
    nothing but the state object has changed; when the browser calls
    the callback, exactly one pass runs, and what it throws reaches no
    caller. *)
Theorem updateFilter_writes_then_filters doc this e w o w' :
  well_formed this (heap w) ->
  disciplined this ->
  updateFilter doc this e w = (o, w') ->
  let key := property_key (target_name e) in
  let st := set key (target_value e) (state_of this (heap w)) in
  state_of this (heap w') = st /\
  get key st = (if storable key then Some (target_value e)
                else get key (state_of this (heap w))) /\
  (forall k, k ≠ key -> get k st = get k (state_of this (heap w))) /\
  tracked this (heap w') = tracked this (heap w) /\
  (has_startViewTransition doc = false ->
   (o = Normal None \/ exists err, o = Thrown err) /\
   exists evs, trace w' = trace w ++ evs /\ passes_started evs = 1) /\
  (has_startViewTransition doc = true ->
   o = Normal (Some (fun this => filterElements this)) /\
   w' = {| heap := with_state this st (heap w); trace := trace w |} /\
   forall o2 w'',
     updateCallback this (Some (fun this => filterElements this)) w'
     = (o2, w'') ->
     o2 = Normal tt /\
     state_of this (heap w'') = st /\
     tracked this (heap w'') = tracked this (heap w) /\
     exists evs, trace w'' = trace w ++ evs /\ passes_started evs = 1).
Proof.
  intros Hwf Hd Hu key st.
  rewrite updateFilter_run in Hu by done. cbv zeta in Hu.
  fold key in Hu. fold st in Hu.
  set (w0 := {| heap := with_state this st (heap w); trace := trace w |}) in *.
  assert (Hwf0 : well_formed this (heap w0))
    by (by apply with_state_well_formed).
  assert (Hpass : forall o1 w1, filterElements this w0 = (o1, w1) ->
    state_of this (heap w1) = st /\
    tracked this (heap w1) = tracked this (heap w) /\
    exists evs, trace w1 = trace w ++ evs /\ passes_started evs = 1).
  { intros o1 w1 Hrun.
    destruct (filterElements_same_inputs this w0 _ w1 Hwf0 Hd Hrun)
      as (_ & Hs & Ht & _).
    unfold w0 in Hs, Ht. cbn [heap] in Hs, Ht.
    rewrite with_state_state in Hs by done.
    rewrite with_state_tracked in Ht by done.
    split_and!; [done..|].
    apply (filterElements_one_pass this w0 _ w1 Hwf0 Hd Hrun). }
  assert (Hget : get key st
                 = (if storable key then Some (target_value e)
                    else get key (state_of this (heap w)))).
  { unfold st. by rewrite get_set, bool_decide_eq_true_2. }
  assert (Hother : forall k, k ≠ key ->
                             get k st = get k (state_of this (heap w))).
  { intros k Hk. unfold st. by rewrite get_set, bool_decide_eq_false_2. }
  destruct (has_startViewTransition doc) eqn:Hvt.
  - injection Hu as <- <-. split_and!; try done.
    + apply with_state_state.
    + by apply with_state_tracked.
    + intros _. split_and!; [done..|]. intros o2 w'' Hcall.
      cbn [updateCallback] in Hcall. injection Hcall as <- <-.
      destruct (filterElements this w0) as [o1 w1] eqn:Hrun. cbn [snd].
      split; [done|]. by apply (Hpass o1 w1).
  - destruct (filterElements this w0) as [o1 w1] eqn:Hrun.
    destruct (Hpass o1 w1 eq_refl) as (Hs & Ht & Hone).
    assert (w' = w1) as -> by (destruct o1; by simplify_eq).
    split_and!; try done. intros _. split; [|done].
    destruct o1; simplify_eq; eauto.
Qed.

Lemma updateFilter_writes_witness :
  let e := {| target_name := Some (js "season");
              target_value := js "summer" |} in
  let run := updateFilter Later.shrunk Sample.this e Sample.start in
  let later := updateCallback Sample.this
                 (Some (fun this => filterElements this)) run.2 in
  (well_formed Sample.this (heap Sample.start) /\ disciplined Sample.this /\
   run = (run.1, run.2)) /\
  state_of Sample.this (heap run.2) = [(js "season", js "summer")] /\
  trace run.2 = [] /\
  hidden_of (heap run.2) 2%positive = Some false /\
  passes_started (trace later.2) = 1.
Proof.
  intros e run later.
  pose proof (sample_well_formed (Some Sample.scribble_before)
                (Some Sample.scribble_after) [Sample.season_select]) as Hwf.
  assert (Hrun : run = (run.1, run.2)) by (by destruct run).
  split; [split_and!; [done|apply sample_disciplined|done]|].
  destruct (updateFilter_writes_then_filters Later.shrunk Sample.this e
              Sample.start _ _ Hwf (sample_disciplined _) Hrun)
    as (Hs & _ & _ & _ & _ & Hvt).
  destruct (Hvt eq_refl) as (_ & Hw & Hcb).
  split_and!.
  - rewrite Hs. vm_compute. reflexivity.
  - by rewrite Hw.
  - rewrite Hw. vm_compute. reflexivity.
  - destruct (Hcb later.1 later.2) as (_ & _ & _ & evs & Ht & Hone);
      [apply surjective_pairing|].
    rewrite Ht. exact Hone.
Defined.

(** X8. After [updateFilter] a tracked element (other than the
    no-results target) is visible exactly when it passes every filter
    of the old state with the new value written in: at once when
    [updateFilter] has run the pass itself and the pass has completed,
    and otherwise once the callback handed to the view transition has
    run and completed. *)
Theorem updateFilter_shows_matches doc this e w o w' l :
  well_formed this (heap w) ->
  disciplined this ->
  updateFilter doc this e w = (o, w') ->
  l ∈ tracked this (heap w) ->
  noResultsMessage this ≠ Some l ->
  let matches :=
    matchesAllFilters (allValue this) (matchMode this)
      (set (property_key (target_name e)) (target_value e)
           (state_of this (heap w)))
      (dataset_of (heap w) l) = Normal true in
  (o = Normal None -> visible (heap w') l <-> matches) /\
  (forall runFilter r w'',
     o = Normal (Some runFilter) ->
     runFilter this w' = (Normal r, w'') ->
     visible (heap w'') l <-> matches).
Proof.
  intros Hwf Hd Hu Hl Hnr matches.
  rewrite updateFilter_run in Hu by done. cbv zeta in Hu.
  set (st := set (property_key (target_name e)) (target_value e)
                 (state_of this (heap w))) in *.
  set (w0 := {| heap := with_state this st (heap w); trace := trace w |}) in *.
  assert (Hwf0 : well_formed this (heap w0))
    by (by apply with_state_well_formed).
  assert (Hpass : forall r w1, filterElements this w0 = (Normal r, w1) ->
                               visible (heap w1) l <-> matches).
  { intros r w1 Hrun.
    assert (Hl0 : l ∈ tracked this (heap w0))
      by (cbn [heap w0]; by rewrite with_state_tracked).
    pose proof (completed_flag this w0 r w1 l Hwf0 Hd Hrun Hl0) as Hf.
    unfold settled_flag in Hf. rewrite decide_False in Hf by done.
    apply visible_passes in Hf. rewrite Hf, passes_true.
    unfold verdict, matches. cbn [heap w0].
    rewrite with_state_state by done.
    by rewrite with_state_dataset
      by (done || by apply (well_formed_element this)). }
  destruct (has_startViewTransition doc).
  - injection Hu as <- <-. split; [done|].
    intros runFilter r w'' [= <-] Hrun. by apply (Hpass r w'').
  - destruct (filterElements this w0) as [[r|err] w1] eqn:Hrun;
      injection Hu as <- <-; [|by split].
    split; [|done]. intros _. by apply (Hpass r w1).
Qed.

Lemma updateFilter_shows_witness :
  let e := {| target_name := Some (js "season");
              target_value := js "summer" |} in
  let this := Sample.instance None None [Sample.season_select] in
  let run := updateFilter (Sample.page []) this e Sample.start in
  (well_formed this (heap Sample.start) /\ disciplined this /\
   run = (Normal None, run.2) /\
   2%positive ∈ tracked this (heap Sample.start) /\
   noResultsMessage this ≠ Some 2%positive) /\
  visible (heap run.2) 2%positive.
Proof.
  intros e this run.
  pose proof (sample_well_formed None None [Sample.season_select]) as Hwf.
  assert (Hd : disciplined this) by (by apply no_hooks_disciplined).
  assert (Hrun : run = (Normal None, run.2)) by (vm_compute; reflexivity).
  assert (Hl : 2%positive ∈ tracked this (heap Sample.start))
    by (apply list_elem_of_In; vm_compute; auto).
  assert (Hnr : noResultsMessage this ≠ Some 2%positive) by discriminate.
  split; [by split_and!|].
  destruct (updateFilter_shows_matches (Sample.page []) this e Sample.start
              _ _ 2%positive Hwf Hd Hrun Hl Hnr) as [Hnow _].
  apply (Hnow eq_refl). vm_compute. reflexivity.
Defined.

(** Two updates in a row, from the store before the first. *)
Lemma updated_twice doc this e1 e2 w :
  well_formed this (heap w) -> disciplined this ->
  let st := set (property_key (target_name e2)) (target_value e2)
              (set (property_key (target_name e1)) (target_value e1)
                   (state_of this (heap w))) in
  let w12 := updated doc this e2 (updated doc this e1 w) in
  state_of this (heap w12) = st /\
  same_inputs this (with_state this st (heap w)) (heap w12) /\
  (never_throw this -> matching_total this (heap w12) ->
   display this (heap w12)
   = settled_display this (with_state this st (heap w))).
Proof.
  intros Hwf Hd st w12.
  destruct (updated_inputs doc this e1 w Hwf Hd)
    as (Hwf0 & Hwf1 & Hi1 & Hs1 & _).
  destruct (updated_inputs doc this e2 _ Hwf1 Hd)
    as (Hwf2 & Hwf12 & Hi2 & Hs2 & _).
  rewrite Hs1 in Hs2, Hi2, Hwf2. fold st in Hs2, Hi2, Hwf2.
  fold w12 in Hs2, Hi2, Hwf12.
  pose proof (with_state_same_inputs this st _ _ Hwf0 Hwf1 Hi1) as Hi'.
  rewrite with_state_twice in Hi'.
  assert (Hi : same_inputs this (with_state this st (heap w)) (heap w12))
    by (eapply same_inputs_trans; [exact Hi'|exact Hi2]).
  split_and!; [done..|]. intros Hn Htot.
  pose proof (updated_display doc this e2 _ Hwf1 Hd Hn) as Hdisp.
  cbv zeta in Hdisp. rewrite Hs1 in Hdisp. fold st in Hdisp.
  fold w12 in Hdisp. rewrite Hdisp.
  - by apply same_inputs_settled_display.
  - by apply (same_inputs_matching_total this _ _ Hi2).
Qed.

Lemma elem_of_set_set k1 v1 k2 v2 st kv :
  NoDup (map fst st) -> k1 ≠ k2 ->
  kv ∈ set k2 v2 (set k1 v1 st) <-> kv ∈ set k1 v1 (set k2 v2 st).
Proof.
  intros Hnd Hne. destruct kv as [k v].
  assert (H : forall a va b vb, a ≠ b ->
    (k, v) ∈ set b vb (set a va st)
    <-> (if bool_decide (b = proto) then False else k = b /\ v = vb) \/
        (if bool_decide (a = proto) then False else
           k ≠ b /\ k = a /\ v = va) \/
        ((bool_decide (b = proto) = true \/ k ≠ b) /\
         (bool_decide (a = proto) = true \/ k ≠ a) /\ (k, v) ∈ st)).
  { intros a va b vb Hab.
    assert (Hnd' : NoDup (map fst (set a va st))) by (by apply NoDup_keys_set).
    destruct (decide (b = proto)) as [Hb|Hb];
      destruct (decide (a = proto)) as [Ha|Ha].
    - congruence.
    - rewrite bool_decide_eq_true_2, bool_decide_eq_false_2 by done.
      subst b. unfold set at 1. rewrite bool_decide_eq_true_2 by done.
      rewrite elem_of_set by done. intuition (subst; auto; congruence).
    - rewrite bool_decide_eq_false_2, bool_decide_eq_true_2 by done.
      subst a. unfold set at 2. rewrite bool_decide_eq_true_2 by done.
      rewrite elem_of_set by done. intuition (subst; auto; congruence).
    - rewrite !bool_decide_eq_false_2 by done.
      rewrite elem_of_set by done. rewrite elem_of_set by done.
      intuition (subst; auto; congruence). }
  rewrite (H k1 v1 k2 v2 Hne), (H k2 v2 k1 v1) by done.
  repeat case_bool_decide; intuition (subst; auto; congruence).
Qed.

(** X9. Updates of two different keys commute: in either order they
    leave a state with the same entries, and the same display (the
    flags of the tracked elements, the no-results flag and the status
    text) when no hook throws and, in the two states reached, no match
    throws. *)
Theorem updates_of_different_keys_commute doc this e1 e2 w :
  well_formed this (heap w) ->
  disciplined this ->
  NoDup (map fst (state_of this (heap w))) ->
  property_key (target_name e1) ≠ property_key (target_name e2) ->
  let w12 := updated doc this e2 (updated doc this e1 w) in
  let w21 := updated doc this e1 (updated doc this e2 w) in
  (forall kv, kv ∈ state_of this (heap w12) <-> kv ∈ state_of this (heap w21)) /\
  (forall k, get k (state_of this (heap w12))
             = get k (state_of this (heap w21))) /\
  (never_throw this ->
   matching_total this (heap w12) -> matching_total this (heap w21) ->
   display this (heap w12) = display this (heap w21)).
Proof.
  intros Hwf Hd Hnd Hk w12 w21.
  destruct (updated_twice doc this e1 e2 w Hwf Hd) as (Hs12 & Hi12 & Hd12).
  destruct (updated_twice doc this e2 e1 w Hwf Hd) as (Hs21 & Hi21 & Hd21).
  fold w12 in Hs12, Hi12, Hd12. fold w21 in Hs21, Hi21, Hd21.
  assert (Hent : forall kv, kv ∈ state_of this (heap w12)
                            <-> kv ∈ state_of this (heap w21)).
  { intros kv. rewrite Hs12, Hs21. by apply elem_of_set_set. }
  split_and!; [done| |].
  - intros k. rewrite Hs12, Hs21, !get_set.
    repeat case_bool_decide; simplify_eq; cbn [andb]; done.
  - intros Hn Ht12 Ht21. rewrite Hd12, Hd21 by done.
    apply settled_display_entries.
    + by rewrite !with_state_tracked.
    + intros l Hl. rewrite with_state_tracked in Hl by done.
      rewrite !with_state_dataset; try done;
        by apply (well_formed_element this).
    + intros kv. rewrite !with_state_state. by apply elem_of_set_set.
Qed.

Lemma updates_commute_witness :
  let e1 := {| target_name := Some (js "season");
               target_value := js "summer" |} in
  let e2 := {| target_name := Some (js "size");
               target_value := js "large" |} in
  let this := Sample.instance None None [Sample.season_select] in
  let doc := Sample.page [] in
  (well_formed this (heap Sample.start) /\ disciplined this /\
   NoDup (map fst (state_of this (heap Sample.start))) /\
   property_key (target_name e1) ≠ property_key (target_name e2) /\
   never_throw this /\
   matching_total this
     (heap (updated doc this e2 (updated doc this e1 Sample.start))) /\
   matching_total this
     (heap (updated doc this e1 (updated doc this e2 Sample.start)))) /\
  display this (heap (updated doc this e2 (updated doc this e1 Sample.start)))
  = display this (heap (updated doc this e1 (updated doc this e2 Sample.start))).
Proof.
  intros e1 e2 this doc.
  pose proof (sample_well_formed None None [Sample.season_select]) as Hwf.
  assert (Hd : disciplined this) by (by apply no_hooks_disciplined).
  assert (Hn : never_throw this) by (split; intros ? ? ? [=]).
  assert (Hnd : NoDup (map fst (state_of this (heap Sample.start)))).
  { apply NoDup_cons. split; [by intros ?%elem_of_nil|apply NoDup_nil_2]. }
  assert (Hk : property_key (target_name e1) ≠ property_key (target_name e2))
    by discriminate.
  assert (Ht12 : matching_total this
            (heap (updated doc this e2 (updated doc this e1 Sample.start))))
    by (by apply equals_mode_total).
  assert (Ht21 : matching_total this
            (heap (updated doc this e1 (updated doc this e2 Sample.start))))
    by (by apply equals_mode_total).
  split; [by split_and!|].
  destruct (updates_of_different_keys_commute doc this e1 e2 Sample.start
              Hwf Hd Hnd Hk) as (_ & _ & Hdisp).
  by apply Hdisp.
Defined.

Lemma overwrite_overwrite k v1 v2 st :
  overwrite k v2 (overwrite k v1 st) = overwrite k v2 st.
Proof.
  induction st as [|[k' v'] st IH]; [done|]. cbn [overwrite].
  case_bool_decide as E; cbn [overwrite].
  - by rewrite bool_decide_eq_true_2.
  - by rewrite bool_decide_eq_false_2, IH.
Qed.

Lemma overwrite_create k v1 v2 st :
  get k st = None -> overwrite k v2 (create k v1 st) = create k v2 st.
Proof.
  induction st as [|[k' v'] st IH].
  - intros _. cbn [create overwrite]. by rewrite bool_decide_eq_true_2.
  - rewrite get_cons. case_bool_decide as E; [done|]. intros Hk.
    cbn [create]. destruct (listed_before k k'); cbn [overwrite].
    + by rewrite bool_decide_eq_true_2.
    + by rewrite bool_decide_eq_false_2, IH.
Qed.

Lemma set_set k v1 v2 st : set k v2 (set k v1 st) = set k v2 st.
Proof.
  unfold set. case_bool_decide as Ep; [done|].
  destruct (get k st) as [old|] eqn:E.
  - rewrite get_overwrite_eq by (by rewrite E). apply overwrite_overwrite.
  - rewrite get_create_eq by done. by apply overwrite_create.
Qed.

(** X10. Of two updates under the same key the later one decides: the
    state is the same as if only the later update had been made, and
    so is the display when no hook throws and, in the state reached,
    no match throws. *)
Theorem later_update_overrides doc this e1 e2 w :
  well_formed this (heap w) ->
  disciplined this ->
  property_key (target_name e1) = property_key (target_name e2) ->
  let w12 := updated doc this e2 (updated doc this e1 w) in
  let w2 := updated doc this e2 w in
  state_of this (heap w12) = state_of this (heap w2) /\
  (never_throw this -> matching_total this (heap w2) ->
   display this (heap w12) = display this (heap w2)).
Proof.
  intros Hwf Hd Hk w12 w2.
  destruct (updated_twice doc this e1 e2 w Hwf Hd) as (Hs12 & Hi12 & Hd12).
  destruct (updated_inputs doc this e2 w Hwf Hd)
    as (Hwf0 & Hwf2 & Hi2 & Hs2 & _).
  fold w12 in Hs12, Hi12, Hd12. fold w2 in Hwf2, Hi2, Hs2.
  rewrite Hk, set_set in Hs12, Hi12, Hd12.
  split; [by rewrite Hs12, Hs2|]. intros Hn Htot.
  assert (Htot0 : matching_total this
                    (with_state this
                       (set (property_key (target_name e2)) (target_value e2)
                            (state_of this (heap w))) (heap w)))
    by (by apply (same_inputs_matching_total this _ _ Hi2)).
  rewrite Hd12.
  - unfold w2. by rewrite updated_display.
  - done.
  - by apply (same_inputs_matching_total this _ _ Hi12).
Qed.

Lemma later_update_witness :
  let e1 := {| target_name := Some (js "season");
               target_value := js "summer" |} in
  let e2 := {| target_name := Some (js "season");
               target_value := js "all" |} in
  let this := Sample.instance None None [Sample.season_select] in
  let doc := Sample.page [] in
  (well_formed this (heap Sample.start) /\ disciplined this /\
   property_key (target_name e1) = property_key (target_name e2)) /\
  state_of this (heap (updated doc this e2 (updated doc this e1 Sample.start)))
  = state_of this (heap (updated doc this e2 Sample.start)).
Proof.
  intros e1 e2 this doc.
  pose proof (sample_well_formed None None [Sample.season_select]) as Hwf.
  assert (Hd : disciplined this) by (by apply no_hooks_disciplined).
  assert (Hk : property_key (target_name e1) = property_key (target_name e2))
    by reflexivity.
  split; [by split_and!|].
  apply (later_update_overrides doc this e1 e2 Sample.start Hwf Hd Hk).
Defined.

(** A pass whose before hook always throws. *)
Lemma failing_before_pass this hk e w :
  well_formed this (heap w) -> disciplined this ->
  onBeforeFilter this = Some hk ->
  (forall args σ, (hk args σ).1 = Thrown e) ->
  (filterElements this w).1 = Thrown e /\
  preserved (heap w) (heap (filterElements this w).2).
Proof.
  intros Hwf Hd Hhk Hthrow.
  destruct (filterElements this w) as [o w'] eqn:Hrun.
  assert (Hb : (before_stage this w).1 = Thrown e).
  { unfold before_stage. rewrite Hhk. unfold before_call. cbn [fst].
    apply Hthrow. }
  destruct (filterElements_cases this w _ w' Hwf Hd Hrun)
    as [(e' & -> & Hb' & Hp)|[(e' & w1 & _ & Hb' & _)|(w1 & o' & Hb' & _)]];
    rewrite Hb' in Hb; cbn [fst] in Hb; simplify_eq.
  by split.
Qed.

(** X23. When the before hook throws, [updateFilter] has already
    stored the new value (unless the name is [__proto__]) and no
    element has changed: the state and the page disagree. Without
    [document.startViewTransition] the error reaches the caller. With
    it, [updateFilter] returns normally before any hook is called, and
    the error the hook throws when the browser calls the callback
    reaches no caller. *)
Theorem updateFilter_with_failing_hook doc this hk e ev w o w' :
  well_formed this (heap w) ->
  disciplined this ->
  onBeforeFilter this = Some hk ->
  (forall args σ, (hk args σ).1 = Thrown e) ->
  updateFilter doc this ev w = (o, w') ->
  let st := set (property_key (target_name ev)) (target_value ev)
                (state_of this (heap w)) in
  o = (if has_startViewTransition doc
       then Normal (Some (fun this => filterElements this))
       else Thrown e) /\
  state_of this (heap w') = st /\
  (forall l, is_element (heap w) l -> heap w' !! l = heap w !! l) /\
  (forall pending o2 w'',
     o = Normal pending ->
     updateCallback this pending w' = (o2, w'') ->
     o2 = Normal tt /\
     (filterElements this w').1 = Thrown e /\
     state_of this (heap w'') = st /\
     (forall l, is_element (heap w) l -> heap w'' !! l = heap w !! l)).
Proof.
  intros Hwf Hd Hhk Hthrow Hu st.
  rewrite updateFilter_run in Hu by done. cbv zeta in Hu. fold st in Hu.
  set (w0 := {| heap := with_state this st (heap w); trace := trace w |}) in *.
  assert (Hwf0 : well_formed this (heap w0))
    by (by apply with_state_well_formed).
  destruct (failing_before_pass this hk e w0 Hwf0 Hd Hhk Hthrow)
    as (Ho & Hp).
  assert (Hl0 : forall l, is_element (heap w) l -> heap w0 !! l = heap w !! l).
  { intros l Hl. apply with_state_lookup_ne. intros ->.
    destruct Hl as [n Hn]. pose proof (well_formed_state _ _ Hwf).
    congruence. }
  assert (Hafter : state_of this (heap (filterElements this w0).2) = st /\
    forall l, is_element (heap w) l ->
              heap (filterElements this w0).2 !! l = heap w !! l).
  { split.
    - rewrite (preserved_state this _ _ Hp Hwf0). apply with_state_state.
    - intros l Hl. rewrite Hp; [by apply Hl0|].
      rewrite Hl0 by done. by apply is_element_is_Some. }
  destruct (has_startViewTransition doc).
  - injection Hu as <- <-. split_and!; [done|apply with_state_state|done|].
    intros pending o2 w'' [= <-] Hcall. cbn [updateCallback] in Hcall.
    injection Hcall as <- <-. by split_and!; [..|apply Hafter|apply Hafter].
  - destruct (filterElements this w0) as [o1 w1] eqn:Hrun.
    cbn [fst snd] in Ho, Hafter. subst o1. injection Hu as <- <-.
    split_and!; [done|apply Hafter|apply Hafter|]. by intros ? ? ? [=].
Qed.

Lemma updateFilter_failing_witness :
  let this := Sample.instance (Some Sample.failing_before) None [] in
  let ev := {| target_name := Some (js "season");
               target_value := js "summer" |} in
  let run := updateFilter (Sample.page []) this ev Sample.start in
  (well_formed this (heap Sample.start) /\ disciplined this /\
   onBeforeFilter this = Some Sample.failing_before /\
   (forall args σ, (Sample.failing_before args σ).1 = Thrown (js "boom")) /\
   run = (run.1, run.2)) /\
  run.1 = Thrown (js "boom") /\
  state_of this (heap run.2) = [(js "season", js "summer")] /\
  hidden_of (heap run.2) 2%positive = Some false.
Proof.
  intros this ev run.
  pose proof (sample_well_formed (Some Sample.failing_before) None []) as Hwf.
  assert (Hd : disciplined this).
  { split; intros hk' [= <-]. intros args σ l Hl _. reflexivity. }
  assert (Hthrow : forall args σ,
            (Sample.failing_before args σ).1 = Thrown (js "boom")) by done.
  assert (Hrun : run = (run.1, run.2)) by (by destruct run).
  split; [by split_and!|].
  destruct (updateFilter_with_failing_hook (Sample.page []) this _ _ ev
              Sample.start _ _ Hwf Hd eq_refl Hthrow Hrun) as (Ho & Hs & Hl & _).
  split_and!.
  - exact Ho.
  - rewrite Hs. vm_compute. reflexivity.
  - unfold hidden_of. rewrite Hl; [reflexivity|]. eexists. reflexivity.
Defined.

(** ** [refreshElements] *)

Lemma refreshElements_run doc this w :
  let array := fresh (dom (heap w)) in
  let status :=
    match statusSelector this with
    | Some sel => querySelector doc sel
    | None => None
    end in
  let this1 :=
    setElements this
      (array, querySelector doc (noResultsSelector this), status) in
  let w1 :=
    {| heap := <[array := Array (querySelectorAll doc (elementsSelector this))]>
                 (heap w);
       trace := trace w |} in
  refreshElements doc this w = (this1, (filterElements this1 ;;; ret tt) w1).
Proof. reflexivity. Qed.

Lemma refreshed_well_formed doc this w :
  well_formed this (heap w) -> document_in_store doc (heap w) ->
  let array := fresh (dom (heap w)) in
  let status :=
    match statusSelector this with
    | Some sel => querySelector doc sel
    | None => None
    end in
  let this1 :=
    setElements this
      (array, querySelector doc (noResultsSelector this), status) in
  well_formed this1
    (<[array := Array (querySelectorAll doc (elementsSelector this))]> (heap w)).
Proof.
  intros Hwf Hdoc array status this1.
  apply (initialized_well_formed doc this1 (heap w) array); try done.
  - apply fresh_lookup.
  - eexists. exact (well_formed_state this _ Hwf).
  - intros t Ht. eapply Hdoc, querySelector_in, Ht.
  - intros t Ht. cbn [statusElement this1 setElements snd] in Ht.
    unfold status in Ht.
    destruct (statusSelector this) as [s|]; [|done].
    eapply Hdoc, querySelector_in, Ht.
Qed.

Lemma preserved_insert_fresh_trans (h h' : gmap loc object) l o :
  h !! l = None -> preserved (<[l := o]> h) h' -> preserved h h'.
Proof.
  intros Hl Hp. eapply preserved_trans; [|exact Hp].
  by apply preserved_insert_fresh.
Qed.

Lemma refreshed_state this h items :
  well_formed this h ->
  state_of this (<[fresh (dom h) := Array items]> h) = state_of this h.
Proof.
  intros Hwf. unfold state_of. rewrite lookup_insert_ne; [done|].
  intros E. pose proof (well_formed_state _ _ Hwf) as Hs.
  rewrite <- E in Hs. by rewrite fresh_lookup in Hs.
Qed.

(** X11. [refreshElements] tracks what the selectors find now and
    keeps the filter state. The old array is not changed, and an object
    the selectors no longer reach (an element that left the selection,
    for one) is left exactly as it was, hidden or not. *)
Theorem refreshElements_rescans doc this w this' o w' :
  well_formed this (heap w) ->
  disciplined this ->
  document_in_store doc (heap w) ->
  refreshElements doc this w = (this', (o, w')) ->
  tracked this' (heap w') = querySelectorAll doc (elementsSelector this) /\
  noResultsMessage this' = querySelector doc (noResultsSelector this) /\
  statusElement this'
  = (match statusSelector this with
     | Some sel => querySelector doc sel
     | None => None
     end) /\
  state_of this' (heap w') = state_of this (heap w) /\
  tracked this (heap w') = tracked this (heap w) /\
  (forall l, is_Some (heap w !! l) ->
     l ∉ querySelectorAll doc (elementsSelector this) ->
     noResultsMessage this' ≠ Some l -> statusElement this' ≠ Some l ->
     heap w' !! l = heap w !! l).
Proof.
  intros Hwf Hd Hdoc Href. rewrite refreshElements_run in Href.
  pose proof (refreshed_well_formed doc this w Hwf Hdoc) as Hwf1.
  cbv zeta in Href, Hwf1.
  set (array := fresh (dom (heap w))) in *.
  match type of Href with
  | context [filterElements ?t] => set (this1 := t) in *
  end.
  match type of Href with
  | context [bind (filterElements this1) _ ?x] => set (w1 := x) in *
  end.
  change (well_formed this1 (heap w1)) in Hwf1.
  assert (Harr : heap w !! array = None) by apply fresh_lookup.
  assert (Hd1 : disciplined this1) by done.
  injection Href as <- Hpass.
  apply discard_result in Hpass as (o2 & Hpass & _).
  destruct (filterElements_same_inputs this1 w1 _ w' Hwf1 Hd1 Hpass)
    as (Hwf2 & Hs & Ht & _).
  assert (Ht1 : tracked this1 (heap w1)
                = querySelectorAll doc (elementsSelector this)).
  { unfold tracked. cbn [heap w1]. change (elements this1) with array.
    by rewrite lookup_insert_eq. }
  assert (Hold : forall l, is_Some (heap w !! l) ->
                           heap w1 !! l = heap w !! l).
  { intros l Hl. cbn [heap w1]. apply lookup_insert_ne. intros <-.
    rewrite Harr in Hl. by destruct Hl. }
  assert (Hcore : forall l, is_Some (heap w !! l) ->
                            core <$> heap w' !! l = core <$> heap w !! l).
  { intros l Hl. rewrite <- (Hold l Hl).
    apply (filterElements_frame this1 w1 _ w' Hwf1 Hd1 Hpass).
    by rewrite Hold. }
  split_and!; [by rewrite Ht|done|done| | |].
  - rewrite Hs. unfold state_of. cbn [heap w1].
    change (currentFilters this1) with (currentFilters this).
    rewrite lookup_insert_ne; [done|].
    pose proof (well_formed_state _ _ Hwf). congruence.
  - pose proof (well_formed_tracked _ _ Hwf) as Harray.
    assert (Hsome : is_Some (heap w !! elements this)) by (by eexists).
    pose proof (Hcore _ Hsome) as Hc. rewrite Harray in Hc.
    unfold tracked. rewrite Harray.
    destruct (heap w' !! elements this) as [[| |]|]; by simplify_eq/=.
  - intros l Hl Hq Hn Hst. rewrite <- (Hold l Hl).
    apply (filterElements_frame this1 w1 _ w' Hwf1 Hd1 Hpass); try done.
    + by rewrite Hold.
    + by rewrite Ht1.
Qed.

Lemma later_document_in_store :
  document_in_store Later.shrunk Sample.store.
Proof.
  intros sel l. unfold Later.shrunk. cbn [querySelectorAll].
  repeat case_bool_decide;
    repeat (intros [->|Hl]%elem_of_cons; [eexists; reflexivity|revert Hl]);
    by intros ?%elem_of_nil.
Qed.

Lemma refreshElements_witness :
  let run := refreshElements Later.shrunk Sample.this Sample.start in
  (well_formed Sample.this (heap Sample.start) /\ disciplined Sample.this /\
   document_in_store Later.shrunk (heap Sample.start) /\
   run = (run.1, (run.2.1, run.2.2))) /\
  tracked run.1 (heap run.2.2) = [2%positive] /\
  heap run.2.2 !! 1%positive = heap Sample.start !! 1%positive.
Proof.
  intros run.
  pose proof (sample_well_formed (Some Sample.scribble_before)
                (Some Sample.scribble_after) [Sample.season_select]) as Hwf.
  assert (Hrun : run = (run.1, (run.2.1, run.2.2)))
    by (by destruct run as [? [? ?]]).
  split; [split_and!;
          [done|apply sample_disciplined|apply later_document_in_store|done]|].
  destruct (refreshElements_rescans Later.shrunk Sample.this Sample.start
              _ _ _ Hwf (sample_disciplined _) later_document_in_store Hrun)
    as (Ht & Hn & Hs & _ & _ & Hstale).
  split; [exact Ht|].
  assert (Hq : querySelectorAll Later.shrunk (elementsSelector Sample.this)
               = [2%positive]) by (vm_compute; reflexivity).
  assert (Hn' : querySelector Later.shrunk (noResultsSelector Sample.this)
                = Some 3%positive) by (vm_compute; reflexivity).
  assert (Hs' : querySelector Later.shrunk (js ".status") = Some 4%positive)
    by (vm_compute; reflexivity).
  apply Hstale.
  - eexists. reflexivity.
  - rewrite Hq. intros [E|[]%elem_of_nil]%elem_of_cons. discriminate E.
  - rewrite Hn, Hn'. intros E. discriminate E.
  - rewrite Hs. change (statusSelector Sample.this) with (Some (js ".status")).
    cbv iota beta. rewrite Hs'. intros E. discriminate E.
Defined.

(** X12. When the pass of [refreshElements] completes, every element
    the selector finds now is shown exactly when it passes every filter
    of the state as it was before the call. *)
Theorem refreshElements_filters_found doc this w this' w' l :
  well_formed this (heap w) ->
  disciplined this ->
  document_in_store doc (heap w) ->
  refreshElements doc this w = (this', (Normal tt, w')) ->
  l ∈ querySelectorAll doc (elementsSelector this) ->
  querySelector doc (noResultsSelector this) ≠ Some l ->
  visible (heap w') l <->
  matchesAllFilters (allValue this) (matchMode this)
    (state_of this (heap w)) (dataset_of (heap w) l) = Normal true.
Proof.
  intros Hwf Hd Hdoc Href Hl Hnr.
  rewrite refreshElements_run in Href.
  pose proof (refreshed_well_formed doc this w Hwf Hdoc) as Hwf1.
  cbv zeta in Href, Hwf1.
  set (array := fresh (dom (heap w))) in *.
  match type of Href with
  | context [filterElements ?t] => set (this1 := t) in *
  end.
  match type of Href with
  | context [bind (filterElements this1) _ ?x] => set (w1 := x) in *
  end.
  change (well_formed this1 (heap w1)) in Hwf1.
  assert (Hd1 : disciplined this1) by done.
  injection Href as <- Hpass.
  apply discard_result in Hpass as ([r|e] & Hpass & [=]).
  assert (Ht1 : tracked this1 (heap w1)
                = querySelectorAll doc (elementsSelector this)).
  { unfold tracked. cbn [heap w1]. change (elements this1) with array.
    by rewrite lookup_insert_eq. }
  destruct (filterElements_same_inputs this1 w1 _ w' Hwf1 Hd1 Hpass)
    as (_ & Hs & _ & Hds).
  assert (Hstate : state_of this1 (heap w') = state_of this (heap w)).
  { rewrite Hs. apply (refreshed_state this (heap w) _ Hwf). }
  assert (Hl1 : l ∈ tracked this1 (heap w1)) by (by rewrite Ht1).
  rewrite (visible_passes _ _ _
             (pass_shows_matching this1 w1 r w' l Hwf1 Hd1 Hpass Hl1 Hnr)).
  rewrite passes_true.
  unfold verdict. rewrite Hstate, (Hds l Hl1).
  assert (His : is_element (heap w) l) by (by eapply Hdoc).
  assert (Hds1 : dataset_of (heap w1) l = dataset_of (heap w) l).
  { unfold dataset_of. cbn [heap w1]. rewrite lookup_insert_ne; [done|].
    intros E. destruct His as [n Hn]. rewrite <- E in Hn. unfold array in Hn.
    by rewrite fresh_lookup in Hn. }
  rewrite Hds1.
  done.
Qed.

Lemma refreshElements_filters_witness :
  let this := Sample.instance None None [Sample.season_select] in
  let run := refreshElements Later.shrunk this Sample.start in
  (well_formed this (heap Sample.start) /\ disciplined this /\
   document_in_store Later.shrunk (heap Sample.start) /\
   run = (run.1, (Normal tt, run.2.2)) /\
   2%positive ∈ querySelectorAll Later.shrunk (elementsSelector this) /\
   querySelector Later.shrunk (noResultsSelector this) ≠ Some 2%positive) /\
  ~ visible (heap run.2.2) 2%positive.
Proof.
  intros this run.
  pose proof (sample_well_formed None None [Sample.season_select]) as Hwf.
  assert (Hd : disciplined this) by (by apply no_hooks_disciplined).
  assert (Hrun : run = (run.1, (Normal tt, run.2.2)))
    by (vm_compute; reflexivity).
  assert (Hl : 2%positive ∈ querySelectorAll Later.shrunk (elementsSelector this))
    by (apply list_elem_of_In; vm_compute; auto).
  assert (Hnr : querySelector Later.shrunk (noResultsSelector this)
                ≠ Some 2%positive).
  { assert (E : querySelector Later.shrunk (noResultsSelector this)
                = Some 3%positive) by (vm_compute; reflexivity).
    rewrite E. intros E'. discriminate E'. }
  split;
    [split_and!;
     [exact Hwf|exact Hd|apply later_document_in_store|exact Hrun|exact Hl
     |exact Hnr]|].
  intros Hvis.
  apply (refreshElements_filters_found Later.shrunk this Sample.start _ _
           2%positive Hwf Hd later_document_in_store Hrun Hl Hnr) in Hvis.
  assert (E : matchesAllFilters (allValue this) (matchMode this)
                (state_of this (heap Sample.start))
                (dataset_of (heap Sample.start) 2%positive) = Normal false)
    by (vm_compute; reflexivity).
  rewrite E in Hvis. discriminate Hvis.
Defined.

(** ** The constructor *)

Lemma register_entry_lookup all st c k :
  get k (register_entry all st c)
  = if bool_decide (property_key (name c) = k) && storable k
    then Some (default all (control_value c)) else get k st.
Proof.
  unfold register_entry. rewrite get_set.
  case_bool_decide as E1; case_bool_decide as E2; try congruence; [|done].
  by subst k.
Qed.

Lemma last_keyed_snoc k fs c :
  last_keyed k (fs ++ [c])
  = if bool_decide (property_key (name c) = k) && storable k then Some c
    else last_keyed k fs.
Proof.
  unfold last_keyed. rewrite List.filter_app. cbn [List.filter].
  destruct (_ && _).
  - by rewrite last_snoc.
  - by rewrite app_nil_r.
Qed.

Lemma register_entries_lookup all fs st k :
  get k (foldl (register_entry all) st fs)
  = match last_keyed k fs with
    | Some c => Some (default all (control_value c))
    | None => get k st
    end.
Proof.
  induction fs as [|c fs IH] using rev_ind; [done|].
  rewrite foldl_app. cbn [foldl].
  rewrite register_entry_lookup, last_keyed_snoc, IH.
  by destruct (_ && _).
Qed.

(** The constructor up to its first pass. *)
Lemma constructor_built doc selector options w this w' :
  document_in_store doc (heap w) ->
  constructor doc (Some selector) options w = (Normal this, w') ->
  disciplined this ->
  exists w0 r,
    filterElements this w0 = (Normal r, w') /\
    well_formed this (heap w0) /\
    trace w0 = trace w /\
    state_of this (heap w0)
    = foldl (register_entry (allValue this)) [] (filters this) /\
    tracked this (heap w0) = querySelectorAll doc selector /\
    filters this = querySelectorAll_controls doc (filtersSelector this) /\
    elementsSelector this = selector /\
    noResultsMessage this = querySelector doc (noResultsSelector this) /\
    (forall l, is_Some (heap w !! l) -> heap w0 !! l = heap w !! l).
Proof.
  intros Hdoc Hnew Hd.
  destruct (falsy selector) eqn:Hsel; [by unfold constructor in Hnew;
                                        rewrite Hsel in Hnew|].
  destruct (constructor_run doc selector options w Hdoc Hsel)
    as (this0 & w0 & Hrun & Hwf & Htr & Hold & Hst & Ht & Hfs & Hnr & Hes & _).
  rewrite Hrun in Hnew. unfold bind, ret in Hnew.
  destruct (filterElements this0 w0) as [[r|e] w1] eqn:Hpass; [|done].
  injection Hnew as <- <-.
  exists w0, r. by split_and!.
Qed.

(** X13. The constructor reads every control the filters selector
    finds: the state it leaves has, under each control's name other
    than [__proto__], the value of the last control with that name, or
    the sentinel where that control has no value; it has no other key,
    and no key twice. The tracked elements are those the elements
    selector finds. *)
Theorem constructor_reads_controls doc selector options w this w' :
  document_in_store doc (heap w) ->
  constructor doc (Some selector) options w = (Normal this, w') ->
  disciplined this ->
  filters this = querySelectorAll_controls doc (filtersSelector this) /\
  (forall k,
     get k (state_of this (heap w'))
     = (fun c => default (allValue this) (control_value c))
         <$> last_keyed k (filters this)) /\
  NoDup (map fst (state_of this (heap w'))) /\
  tracked this (heap w') = querySelectorAll doc selector.
Proof.
  intros Hdoc Hnew Hd.
  destruct (constructor_built doc selector options w this w' Hdoc Hnew Hd)
    as (w0 & r & Hpass & Hwf0 & _ & Hs0 & Ht0 & Hfs & _).
  destruct (filterElements_same_inputs this w0 _ w' Hwf0 Hd Hpass)
    as (_ & Hs & Ht & _).
  split_and!; [done| | |by rewrite Ht].
  - intros k. rewrite Hs, Hs0, register_entries_lookup.
    by destruct (last_keyed k (filters this)).
  - rewrite Hs, Hs0. apply register_entries_NoDup, NoDup_nil_2.
Qed.

Lemma constructor_reads_witness :
  let page := Sample.page [Sample.plain_select; Sample.proto_select;
                           Sample.season_select] in
  let this := Sample.instance (Some Sample.scribble_before)
                (Some Sample.scribble_after)
                [Sample.plain_select; Sample.proto_select;
                 Sample.season_select] in
  let built := constructor page (Some (js ".card")) Sample.no_options
                           Sample.bare in
  (document_in_store page (heap Sample.bare) /\
   built = (Normal this, built.2) /\
   disciplined this) /\
  get (js "season") (state_of this (heap built.2)) = Some (js "spring") /\
  get (js "size") (state_of this (heap built.2)) = None /\
  get proto (state_of this (heap built.2)) = None.
Proof.
  intros page this built.
  assert (Hb : built = (Normal this, built.2)) by (vm_compute; reflexivity).
  split; [split_and!;
          [apply sample_document_in_store|exact Hb|apply sample_disciplined]|].
  destruct (constructor_reads_controls page (js ".card") Sample.no_options
              Sample.bare this built.2 (sample_document_in_store _) Hb
              (sample_disciplined _)) as (_ & Hk & _).
  rewrite !Hk. split_and!; vm_compute; reflexivity.
Defined.

(** X14. The constructor runs exactly one pass, and when it returns
    every tracked element other than the no-results target is shown
    exactly when it passes every filter of the state read from the
    controls. *)
Theorem constructor_filters_once doc selector options w this w' :
  document_in_store doc (heap w) ->
  constructor doc (Some selector) options w = (Normal this, w') ->
  disciplined this ->
  (exists evs, trace w' = trace w ++ evs /\ passes_started evs = 1) /\
  (forall l, l ∈ querySelectorAll doc selector ->
     noResultsMessage this ≠ Some l ->
     visible (heap w') l <->
     matchesAllFilters (allValue this) (matchMode this)
       (foldl (register_entry (allValue this)) [] (filters this))
       (dataset_of (heap w) l) = Normal true).
Proof.
  intros Hdoc Hnew Hd.
  destruct (constructor_built doc selector options w this w' Hdoc Hnew Hd)
    as (w0 & r & Hpass & Hwf0 & Htr & Hs0 & Ht0 & _ & _ & _ & Hold).
  split.
  - rewrite <- Htr. apply (filterElements_one_pass this w0 _ w' Hwf0 Hd Hpass).
  - intros l Hl Hnr.
    destruct (filterElements_same_inputs this w0 _ w' Hwf0 Hd Hpass)
      as (_ & Hs & _ & Hds).
    assert (Hl0 : l ∈ tracked this (heap w0)) by (by rewrite Ht0).
    rewrite (visible_passes _ _ _
               (pass_shows_matching this w0 r w' l Hwf0 Hd Hpass Hl0 Hnr)).
    rewrite passes_true.
    unfold verdict. rewrite Hs, Hs0, (Hds l Hl0).
    assert (Hl1 : is_Some (heap w !! l))
      by (eapply is_element_is_Some, Hdoc, Hl).
    assert (Hds0 : dataset_of (heap w0) l = dataset_of (heap w) l)
      by (unfold dataset_of; by rewrite Hold).
    by rewrite Hds0.
Qed.

Lemma constructor_filters_witness :
  let page := Sample.page [Sample.season_select] in
  let built := constructor page (Some (js ".card")) Sample.no_options
                           Sample.bare in
  (document_in_store page (heap Sample.bare) /\
   built = (Normal Sample.this, built.2) /\
   disciplined Sample.this) /\
  visible (heap built.2) 1%positive.
Proof.
  intros page built.
  assert (Hb : built = (Normal Sample.this, built.2))
    by (vm_compute; reflexivity).
  split; [split_and!;
          [apply sample_document_in_store|exact Hb|apply sample_disciplined]|].
  destruct (constructor_filters_once page (js ".card") Sample.no_options
              Sample.bare Sample.this built.2 (sample_document_in_store _) Hb
              (sample_disciplined _)) as (_ & Hvis).
  apply Hvis.
  - apply list_elem_of_In. vm_compute. auto.
  - intros E. discriminate E.
  - vm_compute. reflexivity.
Defined.

(** ** The controls after [reset] *)

Lemma resetFilter_control this c w :
  well_formed this (heap w) ->
  (resetFilter this c w).1 = Normal (reset_control (allValue this) c).
Proof.
  intros Hwf. unfold resetFilter, reset_control.
  destruct (falsy_name (name c)); [done|].
  destruct (kind c) as [options selected|type value checked emptied|value].
  - destruct (existsb _ options);
      [|destruct (Nat.ltb 0 (length options))];
      unfold bind; by rewrite setProperty_state.
  - destruct (_ || _); unfold bind; by rewrite setProperty_state.
  - unfold bind; by rewrite setProperty_state.
Qed.

Lemma resetFilters_controls this fs :
  forall w,
    well_formed this (heap w) ->
    (resetFilters this fs w).1
    = Normal (map (reset_control (allValue this)) fs).
Proof.
  induction fs as [|c fs IH]; intros w Hwf; [done|].
  destruct (resetFilter_run this c w Hwf) as (c' & Hc & _).
  pose proof (resetFilter_control this c w Hwf) as Hc'.
  rewrite Hc in Hc'. cbn [fst] in Hc'. injection Hc' as ->.
  cbn [resetFilters]. unfold bind at 1. rewrite Hc.
  set (w1 := {| heap := with_state this _ (heap w); trace := trace w |}).
  assert (Hwf1 : well_formed this (heap w1))
    by (by apply with_state_well_formed).
  specialize (IH w1 Hwf1). unfold bind.
  destruct (resetFilters this fs w1) as [[fs'|e] w2]; [|done].
  cbn [fst] in IH. injection IH as ->. done.
Qed.

Lemma reset_result this w :
  well_formed this (heap w) -> filters this ≠ [] ->
  let this1 :=
    setFilters this (map (reset_control (allValue this)) (filters this)) in
  reset this w
  = (this1,
     (filterElements this1 ;;; ret tt)
       {| heap := with_state this
                    (reset_state (allValue this) (filters this)
                                 (state_of this (heap w)))
                    (heap w);
          trace := trace w |}).
Proof.
  intros Hwf Hne this1.
  destruct (reset_run this w Hwf Hne) as (fs' & _ & Hrun).
  pose proof (resetFilters_controls this (filters this) w Hwf) as Hfs.
  destruct (resetFilters_run this (filters this) w Hwf) as (fs2 & Hfs2 & _).
  rewrite Hfs2 in Hfs. cbn [fst] in Hfs. injection Hfs as ->.
  unfold reset. destruct (filters this) as [|c fs] eqn:E; [done|].
  by rewrite Hfs2.
Qed.

Lemma reset_control_name all c : name (reset_control all c) = name c.
Proof.
  unfold reset_control. destruct (falsy_name (name c)); [done|].
  destruct (kind c) as [options selected|type value checked emptied|value];
    [destruct (existsb _ options); [|destruct (Nat.ltb 0 (length options))]
    |destruct (_ || _)|]; done.
Qed.

Lemma reset_control_neutral all c :
  neutral_value all (reset_control all c) = neutral_value all c.
Proof.
  unfold reset_control. destruct (falsy_name (name c)); [done|].
  unfold neutral_value.
  destruct (kind c) as [options selected|type value checked emptied|value] eqn:Ek;
    [destruct (existsb _ options) eqn:Ea;
     [|destruct (Nat.ltb 0 (length options))]
    |destruct (_ || _)|]; cbn [kind]; rewrite ?Ek, ?Ea; done.
Qed.

Lemma reset_control_idem all c :
  reset_control all (reset_control all c) = reset_control all c.
Proof.
  unfold reset_control.
  destruct (falsy_name (name c)) eqn:En; [by rewrite En|].
  destruct (kind c) as [options selected|type value checked emptied|value] eqn:Ek;
    [destruct (existsb _ options) eqn:Ea;
     [|destruct (Nat.ltb 0 (length options)) eqn:El]
    |destruct (_ || _) eqn:Et|];
    cbn [name kind]; rewrite ?En, ?Ek; cbn [name kind];
    rewrite ?Ea, ?El, ?Et; done.
Qed.

Lemma named_reset_control all k c : named k (reset_control all c) = named k c.
Proof. unfold named. by rewrite reset_control_name. Qed.

Lemma last_named_reset all k fs :
  last_named k (map (reset_control all) fs)
  = reset_control all <$> last_named k fs.
Proof.
  induction fs as [|c fs IH] using rev_ind; [done|].
  rewrite map_app. cbn [map]. rewrite !last_named_snoc, named_reset_control.
  by destruct (named k c).
Qed.

Lemma set_same k v st : get k st = Some v -> set k v st = st.
Proof.
  intros Hk. unfold set. case_bool_decide; [done|]. rewrite Hk.
  induction st as [|[k' v'] st IH]; [done|].
  rewrite get_cons in Hk. cbn [overwrite].
  case_bool_decide as E; [by simplify_eq|]. by rewrite IH.
Qed.

Lemma reset_entry_again all st c :
  reset_entry all (reset_entry all st c) (reset_control all c)
  = reset_entry all st c.
Proof.
  unfold reset_entry at 1. rewrite reset_control_name, reset_control_neutral.
  unfold reset_entry. destruct (falsy_name (name c)); [done|].
  apply set_set.
Qed.

Lemma last_named_named k fs c : last_named k fs = Some c -> named k c = true.
Proof.
  unfold last_named. intros (l' & Hl')%last_Some.
  assert (Hin : In c (List.filter (named k) fs)).
  { rewrite Hl'. apply in_or_app. right. by left. }
  by apply filter_In in Hin as [_ Hn].
Qed.

Lemma overwrite_create_ne k1 k2 v1 v2 st :
  k1 ≠ k2 ->
  create k1 v1 (overwrite k2 v2 st) = overwrite k2 v2 (create k1 v1 st).
Proof.
  intros Hne. induction st as [|[k v] st IH].
  - cbn [overwrite create]. by rewrite bool_decide_eq_false_2.
  - cbn [overwrite create]. case_bool_decide as E.
    + subst k. cbn [create]. destruct (listed_before k1 k2); cbn [overwrite].
      * by rewrite bool_decide_eq_false_2, bool_decide_eq_true_2.
      * by rewrite bool_decide_eq_true_2.
    + cbn [create]. destruct (listed_before k1 k); cbn [overwrite].
      * by rewrite !bool_decide_eq_false_2.
      * by rewrite bool_decide_eq_false_2, IH.
Qed.

Lemma overwrite_overwrite_ne k1 k2 v1 v2 st :
  k1 ≠ k2 ->
  overwrite k1 v1 (overwrite k2 v2 st) = overwrite k2 v2 (overwrite k1 v1 st).
Proof.
  intros Hne. induction st as [|[k v] st IH]; [done|].
  cbn [overwrite]. case_bool_decide as E2; case_bool_decide as E1;
    cbn [overwrite]; try congruence.
  - by rewrite bool_decide_eq_false_2, bool_decide_eq_true_2 by congruence.
  - by rewrite bool_decide_eq_true_2, bool_decide_eq_false_2 by congruence.
  - by rewrite !bool_decide_eq_false_2, IH.
Qed.

Lemma set_overwrite_ne k1 k2 v1 v2 st :
  k1 ≠ k2 -> set k1 v1 (overwrite k2 v2 st) = overwrite k2 v2 (set k1 v1 st).
Proof.
  intros Hne. unfold set. case_bool_decide; [done|].
  rewrite get_overwrite_ne by done. destruct (get k1 st).
  - by apply overwrite_overwrite_ne.
  - by apply overwrite_create_ne.
Qed.

Lemma set_present k v st :
  k ≠ proto -> is_Some (get k st) -> set k v st = overwrite k v st.
Proof.
  intros Hp [old Hk]. unfold set. by rewrite bool_decide_eq_false_2, Hk.
Qed.

Lemma overwrite_keeps k k' v st :
  is_Some (get k' st) -> is_Some (get k' (overwrite k v st)).
Proof.
  intros Hk. destruct (decide (k' = k)) as [->|Hne].
  - rewrite get_overwrite_eq; eauto.
  - by rewrite get_overwrite_ne.
Qed.

Lemma reset_entry_keeps all st c k :
  is_Some (get k st) -> is_Some (get k (reset_entry all st c)).
Proof.
  intros Hk. unfold reset_entry. destruct (falsy_name (name c)); [done|].
  by apply set_keeps.
Qed.

Lemma named_not_proto k c : named k c = true -> k ≠ proto.
Proof.
  unfold named, storable. intros [_ Hs]%andb_true_iff.
  by apply negb_true_iff, bool_decide_eq_false in Hs.
Qed.

(** A write under [k] is absorbed by a later round that has a control
    named [k]. *)
Lemma reset_state_absorbs all fs k v st :
  is_Some (get k st) -> is_Some (last_named k fs) ->
  reset_state all fs (overwrite k v st) = reset_state all fs st.
Proof.
  unfold reset_state. revert st.
  induction fs as [|c fs IH]; intros st Hk Hlast; [by destruct Hlast|].
  cbn [foldl].
  assert (Hp : k ≠ proto).
  { destruct Hlast as [d Hd]. by apply (named_not_proto k d), last_named_named
      with (fs := c :: fs). }
  destruct (named k c) eqn:Hn.
  - pose proof Hn as Hn'. apply andb_true_iff in Hn' as [Hn' _].
    apply andb_true_iff in Hn' as [Hf%negb_true_iff Hkey%bool_decide_eq_true].
    unfold reset_entry. rewrite Hf, Hkey.
    rewrite !set_present by (done || by apply overwrite_keeps).
    by rewrite overwrite_overwrite.
  - assert (Hlast' : is_Some (last_named k fs)).
    { unfold last_named in *. cbn [List.filter] in Hlast.
      by rewrite Hn in Hlast. }
    assert (Hstep : reset_entry all (overwrite k v st) c
                    = overwrite k v (reset_entry all st c)).
    { unfold reset_entry. destruct (falsy_name (name c)) eqn:Hf; [done|].
      apply set_overwrite_ne. intros E.
      unfold named, storable in Hn.
      rewrite Hf, E, bool_decide_eq_true_2 in Hn by done.
      by rewrite bool_decide_eq_false_2 in Hn. }
    rewrite Hstep. apply IH; [by apply reset_entry_keeps|done].
Qed.

Lemma last_named_cons k c fs :
  last_named k (c :: fs)
  = match last_named k fs with
    | Some d => Some d
    | None => if named k c then Some c else None
    end.
Proof.
  unfold last_named. cbn [List.filter].
  destruct (named k c); [|by destruct (last _)].
  destruct (List.filter (named k) fs) as [|d ds] eqn:E; [done|].
  change (last (c :: d :: ds)) with (last (d :: ds)).
  destruct (last (d :: ds)) eqn:El; [done|].
  by apply last_None in El.
Qed.

(** A state that holds the neutral value of the last control of every
    name is left as it is by another round. *)
Lemma reset_state_settled all fs st :
  (forall k c, last_named k fs = Some c ->
               get k st = Some (neutral_value all c)) ->
  reset_state all fs st = st.
Proof.
  revert st. induction fs as [|c fs IH]; intros st Hlast; [done|].
  assert (Hrest : forall k d, last_named k fs = Some d ->
                              get k st = Some (neutral_value all d)).
  { intros k d Hd. apply Hlast. by rewrite last_named_cons, Hd. }
  change (reset_state all (c :: fs) st)
    with (reset_state all fs (reset_entry all st c)).
  unfold reset_entry. destruct (falsy_name (name c)) eqn:Hf; [by apply IH|].
  set (k := property_key (name c)).
  destruct (decide (k = proto)) as [Hp|Hp].
  { unfold set. rewrite bool_decide_eq_true_2 by done. by apply IH. }
  assert (Hn : named k c = true).
  { unfold named, storable. rewrite Hf.
    by rewrite bool_decide_eq_true_2, bool_decide_eq_false_2. }
  destruct (last_named k fs) as [d|] eqn:Hd.
  - assert (Hk : is_Some (get k st)) by (rewrite (Hrest k d Hd); eauto).
    rewrite set_present by done.
    rewrite reset_state_absorbs by (done || by rewrite Hd).
    by apply IH.
  - rewrite set_same; [by apply IH|].
    apply Hlast. by rewrite last_named_cons, Hd, Hn.
Qed.

Lemma reset_state_again all fs st :
  reset_state all (map (reset_control all) fs) (reset_state all fs st)
  = reset_state all fs st.
Proof.
  apply reset_state_settled. intros k c' Hc'.
  rewrite last_named_reset in Hc'.
  destruct (last_named k fs) as [c|] eqn:Hc; [|done]. injection Hc' as <-.
  by rewrite reset_state_lookup, Hc, reset_control_neutral.
Qed.


Lemma select_shows_neutral all c :
  falsy_name (name c) = false -> is_select c ->
  control_value (reset_control all c) = Some (neutral_value all c).
Proof.
  intros En (options & selected & Ek).
  unfold reset_control, neutral_value. rewrite En, Ek.
  destruct (existsb _ options) eqn:Ea.
  - destruct (first_option_lookup _ _ Ea) as (i & Hi & Ho).
    unfold control_value. cbn [kind]. by rewrite Hi, Ho.
  - destruct options as [|first rest]; cbn [length Nat.ltb Nat.leb].
    + unfold control_value. rewrite Ek. by destruct selected.
    + done.
Qed.

(** The store and the instance after [reset], whatever the pass does. *)
Lemma reset_outcome this w this' o w' :
  well_formed this (heap w) -> disciplined this -> filters this ≠ [] ->
  reset this w = (this', (o, w')) ->
  this' = setFilters this (map (reset_control (allValue this)) (filters this))
  /\ well_formed this' (heap w') /\
  state_of this (heap w')
  = reset_state (allValue this) (filters this) (state_of this (heap w)).
Proof.
  intros Hwf Hd Hne Hreset. rewrite (reset_result this w Hwf Hne) in Hreset.
  cbv zeta in Hreset. injection Hreset as <- Hpass.
  apply discard_result in Hpass as (o1 & Hpass & _).
  set (st := reset_state (allValue this) (filters this) (state_of this (heap w)))
    in *.
  set (w1 := {| heap := with_state this st (heap w); trace := trace w |}) in *.
  set (this1 := setFilters this _) in *.
  assert (Hwf1 : well_formed this1 (heap w1))
    by (by apply (with_state_well_formed this)).
  assert (Hd1 : disciplined this1) by done.
  destruct (filterElements_keeps_state _ _ _ _ Hwf1 Hd1 Hpass) as [Hwf2 Hs].
  split_and!; [done..|].
  etrans; [exact Hs|]. apply (with_state_state this).
Qed.

(** X15. After [reset] the controls keep their names. Every select
    with a name that is not empty shows its neutral value: the
    sentinel if it has that option, else its first option. Every
    checkbox or radio button with such a name is unchecked, and every
    other input with such a name shows the value it takes when the
    empty string is assigned to it. Under every name other than
    [__proto__] the state holds what the last control of that name
    shows if that is a select, and the sentinel if it is an input. *)
Theorem reset_controls_follow_state this w this' o w' :
  well_formed this (heap w) ->
  disciplined this ->
  filters this ≠ [] ->
  reset this w = (this', (o, w')) ->
  map name (filters this') = map name (filters this) /\
  (forall c, c ∈ filters this' -> falsy_name (name c) = false ->
     (is_select c ->
      control_value c = Some (neutral_value (allValue this) c)) /\
     (forall type value checked emptied,
        kind c = HTMLInputElement type value checked emptied ->
        if bool_decide (type = checkbox) || bool_decide (type = radio)
        then checked = false else value = emptied)) /\
  (forall k c, last_named k (filters this') = Some c -> is_select c ->
     get k (state_of this' (heap w')) = control_value c) /\
  (forall k c type value checked emptied,
     last_named k (filters this') = Some c ->
     kind c = HTMLInputElement type value checked emptied ->
     get k (state_of this' (heap w')) = Some (allValue this)).
Proof.
  intros Hwf Hd Hne Hreset.
  destruct (reset_outcome this w this' o w' Hwf Hd Hne Hreset)
    as (-> & _ & Hst).
  cbn [filters setFilters].
  change (state_of (setFilters this _)) with (state_of this).
  assert (Hsel0 : forall c, falsy_name (name c) = false ->
            is_select (reset_control (allValue this) c) -> is_select c).
  { intros c Hn (options & selected & Hk). revert Hk.
    unfold reset_control, is_select. rewrite Hn.
    destruct (kind c) as [opts sel|type value checked emptied|value] eqn:Ek;
      [eauto|destruct (_ || _); done|by rewrite Ek]. }
  split_and!.
  - rewrite map_map. apply map_ext. intros c. apply reset_control_name.
  - intros c' Hc' Hn.
    apply list_elem_of_In, in_map_iff in Hc' as (c & <- & Hc).
    rewrite reset_control_name in Hn. split.
    + intros Hsel. rewrite reset_control_neutral.
      by apply select_shows_neutral, Hsel0.
    + intros type value checked emptied. unfold reset_control. rewrite Hn.
      destruct (kind c) as [opts sel|type0 value0 checked0 emptied0|value0]
        eqn:Ek.
      * destruct (existsb _ opts); [|destruct (Nat.ltb 0 (length opts))];
          cbn [kind]; rewrite ?Ek; done.
      * destruct (bool_decide (type0 = checkbox) || bool_decide (type0 = radio))
          eqn:Et; cbn [kind]; intros [= <- <- <- <-]; by rewrite Et.
      * by rewrite Ek.
  - intros k c' Hlast Hsel. rewrite last_named_reset in Hlast.
    destruct (last_named k (filters this)) as [c|] eqn:Hc; [|done].
    injection Hlast as <-.
    pose proof (last_named_named _ _ _ Hc) as Hn.
    apply andb_true_iff in Hn as [Hn _].
    apply andb_true_iff in Hn as [Hn%negb_true_iff _].
    rewrite Hst, reset_state_lookup, Hc.
    by rewrite select_shows_neutral by auto.
  - intros k c' type value checked emptied Hlast Hk.
    rewrite last_named_reset in Hlast.
    destruct (last_named k (filters this)) as [c|] eqn:Hc; [|done].
    injection Hlast as <-.
    pose proof (last_named_named _ _ _ Hc) as Hn.
    apply andb_true_iff in Hn as [Hn _].
    apply andb_true_iff in Hn as [Hn%negb_true_iff _].
    rewrite Hst, reset_state_lookup, Hc.
    revert Hk. unfold reset_control, neutral_value. rewrite Hn.
    destruct (kind c) as [opts sel|type0 value0 checked0 emptied0|value0]
      eqn:Ek.
    + destruct (existsb _ opts); [|destruct (Nat.ltb 0 (length opts))];
        cbn [kind]; rewrite ?Ek; done.
    + done.
    + by rewrite Ek.
Qed.

Lemma reset_controls_witness :
  let this := Sample.instance None None [Sample.plain_select] in
  let run := reset this Sample.start in
  (well_formed this (heap Sample.start) /\ disciplined this /\
   filters this ≠ [] /\ run = (run.1, (run.2.1, run.2.2))) /\
  get (js "season") (state_of run.1 (heap run.2.2)) = Some (js "spring").
Proof.
  intros this run.
  pose proof (sample_well_formed None None [Sample.plain_select]) as Hwf.
  assert (Hd : disciplined this) by (by apply no_hooks_disciplined).
  assert (Hne : filters this ≠ []) by discriminate.
  assert (Hrun : run = (run.1, (run.2.1, run.2.2)))
    by (by destruct run as [? [? ?]]).
  split; [by split_and!|].
  destruct (reset_controls_follow_state this Sample.start _ _ _ Hwf Hd Hne Hrun)
    as (_ & _ & Hsel & _).
  assert (Hlast : last_named (js "season") (filters run.1)
                  = Some {| name := Some (js "season");
                            kind := HTMLSelectElement
                                      [js "spring"; js "summer"] (Some 0) |})
    by (vm_compute; reflexivity).
  rewrite (Hsel _ _ Hlast); [reflexivity|]. by eexists _, _.
Defined.

(** What a pass leaves when a match throws and the hooks do not. *)
Lemma aborted_pass this w o w' e :
  well_formed this (heap w) -> disciplined this -> never_throw this ->
  (handled this (heap w)).2 = Some e ->
  filterElements this w = (o, w') ->
  forall x, is_Some (heap w !! x) ->
    heap w' !! x = heap (aborted_world this w) !! x.
Proof.
  intros Hwf Hd [Hnb _] He Hrun x Hx.
  assert (Hb : (before_stage this w).1 = Normal tt).
  { unfold before_stage. destruct (onBeforeFilter this) as [hk|] eqn:E; [|done].
    unfold before_call. cbn [fst]. by apply Hnb. }
  destruct (filterElements_cases this w _ w' Hwf Hd Hrun)
    as [(e' & _ & Hb' & _)|[(e' & w1 & _ & _ & _ & _ & _ & Hp)
       |(w1 & o' & _ & Htot & _)]].
  - by rewrite Hb' in Hb.
  - apply Hp. apply elem_of_dom.
    rewrite (same_core_dom _ _ (same_core_aborted this w)).
    by apply elem_of_dom.
  - unfold matching_total in Htot. congruence.
Qed.

Lemma aborted_hidden this w x :
  is_element (heap w) x ->
  hidden_of (heap (aborted_world this w)) x
  = if decide (x ∈ (handled this (heap w)).1)
    then Some (negb (passes this (heap w) x))
    else hidden_of (heap w) x.
Proof.
  intros [n Hn]. unfold hidden_of. rewrite aborted_lookup, Hn.
  by case_decide.
Qed.

Lemma aborted_text this w x :
  text_of (heap (aborted_world this w)) x = text_of (heap w) x.
Proof.
  unfold text_of. rewrite aborted_lookup. case_decide; [|done].
  by destruct (heap w !! x) as [[| |]|].
Qed.

(** A pass right after a pass changes nothing in the display, when no
    hook throws. *)
Lemma pass_again_display this w o1 w1 o2 w2 :
  well_formed this (heap w) -> disciplined this -> never_throw this ->
  filterElements this w = (o1, w1) ->
  filterElements this w1 = (o2, w2) ->
  display this (heap w2) = display this (heap w1).
Proof.
  intros Hwf Hd Hn Hrun1 Hrun2.
  destruct (filterElements_same_inputs this w _ w1 Hwf Hd Hrun1)
    as (Hwf1 & Hi1).
  destruct (filterElements_same_inputs this w1 _ w2 Hwf1 Hd Hrun2)
    as (Hwf2 & Hi2).
  destruct (handled this (heap w)).2 as [e|] eqn:He.
  - assert (He1 : (handled this (heap w1)).2 = Some e)
      by (by rewrite (same_inputs_handled this _ _ Hi1)).
    pose proof (aborted_pass this w1 _ w2 e Hwf1 Hd Hn He1 Hrun2) as Hw2.
    assert (Hh : forall x, is_element (heap w1) x ->
                           hidden_of (heap w2) x = hidden_of (heap w1) x).
    { intros x Hx. unfold hidden_of at 1.
      rewrite Hw2 by (by apply is_element_is_Some).
      fold (hidden_of (heap (aborted_world this w1)) x).
      rewrite aborted_hidden by done. case_decide as Hin; [|done].
      rewrite (same_inputs_handled this _ _ Hi1) in Hin.
      assert (Hx0 : x ∈ tracked this (heap w))
        by (by apply (until_throw_sublist (verdict this (heap w)))).
      rewrite (same_inputs_passes this _ _ Hi1) by done.
      pose proof (aborted_pass this w _ w1 e Hwf Hd Hn He Hrun1) as Hw1.
      unfold hidden_of at 1.
      rewrite Hw1
        by (by apply is_element_is_Some, (well_formed_element this)).
      fold (hidden_of (heap (aborted_world this w)) x).
      rewrite aborted_hidden by (by apply (well_formed_element this)).
      by rewrite decide_True. }
    assert (Ht : forall x, is_element (heap w1) x ->
                           text_of (heap w2) x = text_of (heap w1) x).
    { intros x Hx. unfold text_of at 1.
      rewrite Hw2 by (by apply is_element_is_Some).
      apply aborted_text. }
    unfold display. rewrite (proj1 (proj2 Hi2)). f_equal; [f_equal|].
    + apply map_ext_in. intros l Hl%list_elem_of_In.
      by apply Hh, (well_formed_element this).
    + destruct (noResultsMessage this) as [t|] eqn:Ht'; [|done]. simpl.
      f_equal. by apply Hh, (well_formed_noResults this).
    + destruct (statusElement this) as [t|] eqn:Ht'; [|done]. simpl.
      f_equal. by apply Ht, (well_formed_status this).
  - assert (Htot1 : matching_total this (heap w1))
      by (by apply (same_inputs_matching_total this _ _ Hi1)).
    destruct (pass_completes this w Hwf Hd Hn He) as [w1' Hc1].
    destruct (pass_completes this w1 Hwf1 Hd Hn Htot1) as [w2' Hc2].
    rewrite Hrun1 in Hc1. rewrite Hrun2 in Hc2.
    injection Hc1 as Hr1 _. injection Hc2 as Hr2 _.
    rewrite Hr1 in Hrun1. rewrite Hr2 in Hrun2.
    rewrite (pass_display this _ _ _ Hwf1 Hd Hrun2),
            (pass_display this _ _ _ Hwf Hd Hrun1).
    by apply same_inputs_settled_display.
Qed.

(** X16. [reset] is idempotent: a second reset right after the first
    leaves the controls and the state as the first left them, and, when
    no hook throws, the display too. *)
Theorem reset_is_idempotent this w :
  well_formed this (heap w) ->
  disciplined this ->
  let once := reset this w in
  let twice := reset once.1 once.2.2 in
  filters twice.1 = filters once.1 /\
  state_of this (heap twice.2.2) = state_of this (heap once.2.2) /\
  (never_throw this ->
   display this (heap twice.2.2) = display this (heap once.2.2)).
Proof.
  intros Hwf Hd once twice.
  destruct (decide (filters this = [])) as [Ef|Hne].
  { assert (Ho : once = (this, (Normal tt, w)))
      by (unfold once, reset; by rewrite Ef).
    assert (Ht : twice = (this, (Normal tt, w)))
      by (unfold twice; rewrite Ho; cbn [fst snd]; unfold reset;
          by rewrite Ef).
    by rewrite Ht, Ho. }
  set (all := allValue this).
  set (fs1 := map (reset_control all) (filters this)).
  set (st := reset_state all (filters this) (state_of this (heap w))).
  set (W1 := {| heap := with_state this st (heap w); trace := trace w |}).
  assert (HW1 : well_formed this (heap W1))
    by (by apply with_state_well_formed).
  assert (Ho : once = (setFilters this fs1,
                       (filterElements (setFilters this fs1) ;;; ret tt) W1))
    by apply (reset_result this w Hwf Hne).
  destruct (filterElements (setFilters this fs1) W1) as [r1 w1] eqn:Hpass1.
  assert (Hd1 : disciplined (setFilters this fs1)) by done.
  destruct (filterElements_same_inputs (setFilters this fs1) W1 _ w1
              HW1 Hd1 Hpass1) as (Hwf1 & Hi1).
  assert (Hw1 : once.2.2 = w1).
  { rewrite Ho. cbn [fst snd]. unfold bind. rewrite Hpass1. by destruct r1. }
  assert (Hst1 : state_of this (heap w1) = st).
  { destruct Hi1 as (Hs & _). etrans; [exact Hs|].
    apply (with_state_state this). }
  assert (Hne1 : filters (setFilters this fs1) ≠ []).
  { cbn [filters setFilters]. unfold fs1.
    intros E%(f_equal length). rewrite length_map in E.
    by destruct (filters this). }
  set (W2 := {| heap := with_state this st (heap w1); trace := trace w1 |}).
  assert (HW2 : well_formed this (heap W2))
    by (by apply (with_state_well_formed this)).
  assert (Ht : twice = (setFilters this fs1,
                        (filterElements (setFilters this fs1) ;;; ret tt) W2)).
  { assert (E1 : map (reset_control all) fs1 = fs1).
    { unfold fs1. rewrite map_map. apply map_ext. intros c.
      apply reset_control_idem. }
    assert (E2 : reset_state all fs1 (state_of this (heap w1)) = st).
    { rewrite Hst1. apply reset_state_again. }
    unfold twice. rewrite Hw1, Ho. cbn [fst].
    rewrite (reset_result (setFilters this fs1) w1 Hwf1 Hne1). cbv zeta.
    change (allValue (setFilters this fs1)) with all.
    change (filters (setFilters this fs1)) with fs1.
    change (state_of (setFilters this fs1)) with (state_of this).
    rewrite E1, E2. reflexivity. }
  destruct (filterElements (setFilters this fs1) W2) as [r2 w2] eqn:Hpass2.
  destruct (filterElements_same_inputs (setFilters this fs1) W2 _ w2
              HW2 Hd1 Hpass2) as (Hwf2 & Hi2).
  assert (Hw2 : twice.2.2 = w2).
  { rewrite Ht. cbn [fst snd]. unfold bind. rewrite Hpass2. by destruct r2. }
  rewrite Hw2, Hw1. split_and!.
  - by rewrite Ht, Ho.
  - destruct Hi2 as (Hs & _). rewrite Hst1. etrans; [exact Hs|].
    apply (with_state_state this).
  - intros Hn.
    assert (Hn1 : never_throw (setFilters this fs1)) by done.
    assert (HW2' : W2 = w1).
    { unfold W2. rewrite <- Hst1. rewrite (with_state_same this) by done.
      by destruct w1. }
    rewrite HW2' in Hpass2.
    apply (pass_again_display (setFilters this fs1) W1 _ w1 _ w2
             HW1 Hd1 Hn1 Hpass1 Hpass2).
Qed.

Lemma reset_idempotent_witness :
  let this := Sample.instance None None [Sample.plain_select] in
  let once := reset this Sample.start in
  let twice := reset once.1 once.2.2 in
  (well_formed this (heap Sample.start) /\ disciplined this) /\
  state_of this (heap twice.2.2) = state_of this (heap once.2.2).
Proof.
  intros this once twice.
  pose proof (sample_well_formed None None [Sample.plain_select]) as Hwf.
  assert (Hd : disciplined this) by (by apply no_hooks_disciplined).
  split; [by split|].
  by destruct (reset_is_idempotent this Sample.start Hwf Hd) as (_ & Hs & _).
Defined.

(** ** The view transition prefix *)

Lemma before_pseudo_no_pseudo s :
  forallb (fun c => negb (is_pseudo c)) (before_pseudo s) = true.
Proof.
  induction s as [|c s IH]; [done|]. cbn [before_pseudo].
  destruct (is_pseudo c) eqn:E; [done|]. cbn [forallb]. by rewrite E.
Qed.

Lemma before_pseudo_no_ws s :
  forallb (fun c => negb (is_ws c)) s = true ->
  forallb (fun c => negb (is_ws c)) (before_pseudo s) = true.
Proof.
  induction s as [|c s IH]; [done|]. cbn [before_pseudo forallb].
  intros [Hc Hs]%andb_true_iff. destruct (is_pseudo c); [done|].
  cbn [forallb]. by rewrite Hc, IH.
Qed.

Lemma strip_marks_suffix s : exists m, s = m ++ strip_marks s.
Proof.
  induction s as [|c s [m IH]]; [by exists []|]. cbn [strip_marks].
  destruct (is_mark c); [|by exists []].
  exists (c :: m). cbn [app]. by rewrite <- IH.
Qed.

Lemma strip_marks_head s c t : strip_marks s = c :: t -> is_mark c = false.
Proof.
  induction s as [|d s IH]; [done|]. cbn [strip_marks].
  destruct (is_mark d) eqn:E; [done|]. by intros [= <- _].
Qed.

Lemma forallb_suffix {A} (f : A -> bool) a b :
  forallb f (a ++ b) = true -> forallb f b = true.
Proof. rewrite forallb_app. by intros [_ ?]%andb_true_iff. Qed.

Lemma last_split_ws_no_ws f s :
  forallb (fun c => negb (is_ws c)) (default [] (last (split_ws_from f s)))
  = true.
Proof.
  pose proof (split_ws_pieces f s) as Hall.
  destruct (last (split_ws_from f s)) as [p|] eqn:E; [|done].
  apply last_Some in E as (l' & E). rewrite E in Hall.
  apply (proj1 (Forall_app _ _ _)) in Hall as [_ Hp].
  by apply (proj1 (Forall_singleton _ _)) in Hp.
Qed.

Lemma filterItem_plain : plain_name filterItem.
Proof.
  split_and!; [done|by vm_compute|by vm_compute|].
  by intros c t [= <- _].
Qed.

Lemma derived_plain selector :
  plain_name (_deriveViewTransitionPrefix selector).
Proof.
  unfold _deriveViewTransitionPrefix.
  destruct selector as [s|]; [|apply filterItem_plain].
  destruct (falsy s); [apply filterItem_plain|].
  destruct (falsy (trim s)); [apply filterItem_plain|].
  cbv zeta. set (lastPart := default [] (last (split_ws (trim s)))).
  assert (Hws : forallb (fun c => negb (is_ws c)) lastPart = true)
    by apply last_split_ws_no_ws.
  destruct (strip_marks (before_pseudo lastPart)) as [|c t] eqn:E;
    [apply filterItem_plain|].
  cbn [falsy]. rewrite <- E.
  destruct (strip_marks_suffix (before_pseudo lastPart)) as [m Hm].
  split_and!.
  - by rewrite E.
  - apply (forallb_suffix _ m). rewrite <- Hm. by apply before_pseudo_no_ws.
  - apply (forallb_suffix _ m). rewrite <- Hm. apply before_pseudo_no_pseudo.
  - intros c' t' E'. by apply (strip_marks_head (before_pseudo lastPart) c' t').
Qed.

(** The last piece of a split, when the string ends in a piece that
    follows white space. *)
Lemma split_ws_last_piece w body :
  is_ws w = true -> forallb (fun c => negb (is_ws c)) body = true ->
  forall y f,
    exists ps, split_ws_from f (y ++ w :: body) = ps ++ [body] /\
               (f = false -> ps ≠ []).
Proof.
  intros Hw Hbody. induction y as [|c y IH]; intros f.
  - cbn [app split_ws_from]. rewrite Hw, (split_ws_single true body Hbody).
    destruct f; [by exists []|by exists [[]]].
  - cbn [app split_ws_from]. destruct (is_ws c).
    + destruct f.
      * destruct (IH true) as (ps & -> & _). by exists ps.
      * destruct (IH true) as (ps & -> & _). by exists ([] :: ps).
    + destruct (IH false) as (ps & -> & Hps).
      destruct ps as [|p ps]; [by destruct Hps|].
      by exists ((c :: p) :: ps).
Qed.

Lemma trimEnd_no_ws_end s c :
  is_ws c = false -> trimEnd (s ++ [c]) = s ++ [c].
Proof.
  intros Hc. induction s as [|d s IH].
  - cbn [app trimEnd]. by rewrite Hc.
  - cbn [app trimEnd]. rewrite IH. by destruct s.
Qed.

Lemma trimStart_suffix s : exists a, s = a ++ trimStart s /\ forallb is_ws a = true.
Proof. apply trimStart_split. Qed.

Lemma before_pseudo_app n q :
  forallb (fun c => negb (is_pseudo c)) n = true ->
  (q = [] \/ exists c t, q = c :: t /\ is_pseudo c = true) ->
  before_pseudo (n ++ q) = n.
Proof.
  intros Hn Hq. induction n as [|c n IH].
  - destruct Hq as [->|(c & t & -> & Hc)]; [done|].
    cbn [app before_pseudo]. by rewrite Hc.
  - cbn [forallb] in Hn. apply andb_true_iff in Hn as [Hc Hn].
    cbn [app before_pseudo]. apply negb_true_iff in Hc. rewrite Hc.
    by rewrite IH.
Qed.

Lemma before_pseudo_marks m s :
  forallb is_mark m = true -> before_pseudo (m ++ s) = m ++ before_pseudo s.
Proof.
  induction m as [|c m IH]; [done|]. cbn [forallb app before_pseudo].
  intros [Hc Hm]%andb_true_iff.
  assert (is_pseudo c = false) as ->.
  { unfold is_mark, is_pseudo in *.
    destruct (N.eqb_spec c 46) as [->|]; [done|].
    destruct (N.eqb_spec c 35) as [->|]; done. }
  by rewrite IH.
Qed.

Lemma strip_marks_app m n :
  forallb is_mark m = true -> (forall c t, n = c :: t -> is_mark c = false) ->
  strip_marks (m ++ n) = n.
Proof.
  intros Hm Hn. induction m as [|c m IH].
  - destruct n as [|c t]; [done|]. cbn [app strip_marks].
    by rewrite (Hn c t).
  - cbn [forallb] in Hm. apply andb_true_iff in Hm as [Hc Hm].
    cbn [app strip_marks]. rewrite Hc. by apply IH.
Qed.

Lemma mark_not_ws c : is_mark c = true -> is_ws c = false.
Proof.
  unfold is_mark. destruct (N.eqb_spec c 46) as [->|]; [done|].
  destruct (N.eqb_spec c 35) as [->|]; done.
Qed.

Lemma pseudo_not_ws c : is_pseudo c = true -> is_ws c = false.
Proof.
  unfold is_pseudo. destruct (N.eqb_spec c 58) as [->|]; [done|].
  destruct (N.eqb_spec c 91) as [->|]; done.
Qed.

Lemma marks_no_ws m :
  forallb is_mark m = true -> forallb (fun c => negb (is_ws c)) m = true.
Proof.
  induction m as [|c m IH]; [done|]. cbn [forallb].
  intros [Hc Hm]%andb_true_iff. by rewrite (mark_not_ws c Hc), IH.
Qed.

(** The part of a selector the prefix is taken from: marks, a name,
    and a suffix that is empty or starts with a colon or a bracket. *)
Lemma derive_last_part m n q :
  forallb is_mark m = true -> plain_name n ->
  (q = [] \/ exists c t, q = c :: t /\ is_pseudo c = true) ->
  strip_marks (before_pseudo (m ++ n ++ q)) = n.
Proof.
  intros Hm (Hne & _ & Hps & Hhead) Hq.
  rewrite before_pseudo_marks by done.
  rewrite before_pseudo_app by done. by apply strip_marks_app.
Qed.

Lemma trim_body pre body b :
  body ≠ [] -> forallb (fun c => negb (is_ws c)) body = true ->
  forallb is_ws b = true ->
  exists a, trim (pre ++ body ++ b) = a ++ body /\
            (a = [] \/ exists a', a = trimStart pre /\ pre = a' ++ a).
Proof.
  intros Hne Hbody Hb. rewrite app_assoc, trim_app_ws_r by done.
  unfold trim.
  destruct (exists_last Hne) as (body' & c & ->).
  assert (Hc : is_ws c = false).
  { apply forallb_suffix in Hbody. cbn [forallb] in Hbody.
    apply andb_true_iff in Hbody as [Hc _]. by apply negb_true_iff. }
  destruct (forallb is_ws pre) eqn:Hpre.
  - rewrite trimStart_app_ws by done.
    assert (trimStart (body' ++ [c]) = body' ++ [c]) as ->.
    { destruct body' as [|d body']; cbn [app trimStart].
      - by rewrite Hc.
      - cbn [app forallb] in Hbody. apply andb_true_iff in Hbody as [Hd _].
        apply negb_true_iff in Hd. by rewrite Hd. }
    rewrite trimEnd_no_ws_end by done. exists []. split; [done|by left].
  - rewrite trimStart_app, Hpre.
    rewrite app_assoc, trimEnd_no_ws_end by done.
    exists (trimStart pre). split; [by rewrite app_assoc|]. right.
    destruct (trimStart_split pre) as (a' & Ha' & _). by exists a'.
Qed.

Lemma derive_extract pre m n q b :
  (pre = [] \/ exists a w, pre = a ++ [w] /\ is_ws w = true) ->
  forallb is_mark m = true ->
  plain_name n ->
  (q = [] \/ exists c t, q = c :: t /\ is_pseudo c = true) ->
  forallb (fun c => negb (is_ws c)) q = true ->
  forallb is_ws b = true ->
  _deriveViewTransitionPrefix (Some (pre ++ (m ++ n ++ q) ++ b)) = n.
Proof.
  intros Hpre Hm Hn Hq Hqws Hb.
  set (body := m ++ n ++ q).
  assert (Hne : body ≠ []).
  { unfold body. destruct Hn as (Hne & _). destruct m; [|done].
    by destruct n. }
  assert (Hbody : forallb (fun c => negb (is_ws c)) body = true).
  { unfold body. rewrite !forallb_app, Hqws, (marks_no_ws m Hm).
    by destruct Hn as (_ & -> & _). }
  unfold _deriveViewTransitionPrefix.
  assert (falsy (pre ++ body ++ b) = false) as ->.
  { destruct pre; [|done]. destruct body; [done|done]. }
  destruct (trim_body pre body b Hne Hbody Hb) as (a & -> & Ha).
  assert (falsy (a ++ body) = false) as ->.
  { destruct a; [|done]. by destruct body. }
  cbv zeta.
  assert (Hlast : last (split_ws (a ++ body)) = Some body).
  { destruct (decide (a = [])) as [->|Hane].
    - unfold split_ws. cbn [app]. by rewrite (split_ws_single false body Hbody).
    - destruct Ha as [->|(a' & Ha & Hpre')]; [done|].
      destruct Hpre as [->|(a0 & w & Hpre & Hw)].
      { by destruct a', a. }
      destruct (exists_last Hane) as (a1 & c & Ha1).
      assert (c = w) as ->.
      { rewrite Hpre, Ha1, app_assoc in Hpre'.
        by apply app_inj_tail in Hpre' as [_ ->]. }
      rewrite Ha1, <- app_assoc. cbn [app]. unfold split_ws.
      destruct (split_ws_last_piece w body Hw Hbody a1 false) as (ps & -> & _).
      apply last_snoc. }
  rewrite Hlast. change (default [] (Some body)) with body. unfold body.
  rewrite (derive_last_part m n q Hm Hn Hq).
  destruct Hn as (Hn & _). by destruct n.
Qed.

(** X17. The derived view transition prefix is always a plain name:
    not empty, without white space, colon or opening bracket, and not
    starting with a dot or a hash. Deriving a prefix from a derived
    prefix gives it back. *)
Theorem derived_prefix_is_plain selector :
  plain_name (_deriveViewTransitionPrefix selector) /\
  _deriveViewTransitionPrefix (Some (_deriveViewTransitionPrefix selector))
  = _deriveViewTransitionPrefix selector.
Proof.
  pose proof (derived_plain selector) as Hp. split; [done|].
  pose proof (derive_extract [] [] (_deriveViewTransitionPrefix selector)
                [] []) as He.
  cbn [app] in He. rewrite !app_nil_r in He.
  apply He; auto.
Qed.

(** X18. For a selector whose last part is a class or id selector,
    possibly followed by a pseudo-class or an attribute test, the
    derived prefix is the class or id name: what precedes the last
    white space, the leading dots and hashes and everything from the
    first colon or bracket on are dropped. *)
Theorem derived_prefix_of_last_part pre m n q b :
  (pre = [] \/ exists a w, pre = a ++ [w] /\ is_ws w = true) ->
  forallb is_mark m = true ->
  plain_name n ->
  (q = [] \/ exists c t, q = c :: t /\ is_pseudo c = true) ->
  forallb (fun c => negb (is_ws c)) q = true ->
  forallb is_ws b = true ->
  _deriveViewTransitionPrefix (Some (pre ++ (m ++ n ++ q) ++ b)) = n /\
  forall explicit,
    viewTransitionPrefix explicit (pre ++ (m ++ n ++ q) ++ b)
    = match explicit with
      | Some p => if falsy p then n else p
      | None => n
      end.
Proof.
  intros Hpre Hm Hn Hq Hqws Hb.
  pose proof (derive_extract pre m n q b Hpre Hm Hn Hq Hqws Hb) as He.
  split; [done|]. intros explicit. unfold viewTransitionPrefix.
  by rewrite He.
Qed.

Lemma derived_prefix_witness :
  ((js ".mushroom-guide " = [] \/
    exists a w, js ".mushroom-guide " = a ++ [w] /\ is_ws w = true) /\
   forallb is_mark (js ".") = true /\
   plain_name (js "card") /\
   (js ":hover" = [] \/
    exists c t, js ":hover" = c :: t /\ is_pseudo c = true) /\
   forallb (fun c => negb (is_ws c)) (js ":hover") = true /\
   forallb is_ws (js " ") = true) /\
  _deriveViewTransitionPrefix (Some (js ".mushroom-guide .card:hover "))
  = js "card".
Proof.
  assert (H1 : js ".mushroom-guide " = [] \/
               exists a w, js ".mushroom-guide " = a ++ [w] /\ is_ws w = true).
  { right. exists (js ".mushroom-guide"), 32%N. by vm_compute. }
  assert (H2 : forallb is_mark (js ".") = true) by (by vm_compute).
  assert (H3 : plain_name (js "card")).
  { split_and!; [done|by vm_compute|by vm_compute|].
    by intros c t [= <- _]. }
  assert (H4 : js ":hover" = [] \/
               exists c t, js ":hover" = c :: t /\ is_pseudo c = true).
  { right. by eexists _, _. }
  assert (H5 : forallb (fun c => negb (is_ws c)) (js ":hover") = true)
    by (by vm_compute).
  assert (H6 : forallb is_ws (js " ") = true) by (by vm_compute).
  split; [by split_and!|].
  by destruct (derived_prefix_of_last_part _ _ _ _ _ H1 H2 H3 H4 H5 H6)
    as [He _].
Defined.

(** ** The names of the elements *)

Lemma elementId_truthy index id : elementId index id ≠ [].
Proof.
  unfold elementId. destruct id as [|c id]; [|done]. done.
Qed.

Lemma number_to_string_inj n m :
  number_to_string n = number_to_string m -> n = m.
Proof.
  intros E. rewrite <- (number_to_string_value n), E.
  apply number_to_string_value.
Qed.

(** X19. The view transition names given to the tracked elements are
    pairwise distinct exactly when no two elements share an id and no
    element has as its id the generated name of an element without
    id. *)
Theorem viewTransitionNames_distinct prefix ids :
  NoDup (viewTransitionNames prefix ids) <->
  (forall i j id, ids !! i = Some id -> ids !! j = Some id ->
     id ≠ [] -> i = j) /\
  (forall i j id, ids !! i = Some [] -> ids !! j = Some id ->
     id ≠ js "item-" ++ number_to_string (i + 1)).
Proof.
  unfold viewTransitionNames. rewrite NoDup_alt. split.
  - intros Hnd. split.
    + intros i j id Hi Hj Hid. apply (Hnd i j (prefix ++ js "-" ++ id)).
      * rewrite list_lookup_imap, Hi. cbn. unfold elementId.
        by destruct id.
      * rewrite list_lookup_imap, Hj. cbn. unfold elementId.
        by destruct id.
    + intros i j id Hi Hj Hid.
      assert (i = j) as ->.
      { apply (Hnd i j (prefix ++ js "-" ++ id)).
        - rewrite list_lookup_imap, Hi. cbn [fmap option_fmap option_map].
          unfold elementId. cbn [truthy falsy negb]. by rewrite Hid.
        - rewrite list_lookup_imap, Hj. cbn [fmap option_fmap option_map].
          unfold elementId. rewrite Hid. done. }
      rewrite Hi in Hj. injection Hj as <-. done.
  - intros (Hids & Hgen) i j x Hi Hj.
    rewrite list_lookup_imap in Hi, Hj.
    destruct (ids !! i) as [a|] eqn:Ea; [|done].
    destruct (ids !! j) as [b|] eqn:Eb; [|done].
    cbn [fmap option_fmap option_map] in Hi, Hj.
    injection Hi as Hi. injection Hj as Hj. rewrite <- Hj in Hi.
    apply app_inv_head in Hi. apply (app_inv_head (js "-")) in Hi.
    unfold elementId in Hi.
    destruct a as [|ca a], b as [|cb b]; cbn [truthy falsy negb] in Hi.
    + apply (app_inv_head (js "item-")), number_to_string_inj in Hi. lia.
    + by destruct (Hgen i j (cb :: b) Ea Eb).
    + by destruct (Hgen j i (ca :: a) Eb Ea).
    + rewrite <- Hi in Eb. by apply (Hids i j (ca :: a)).
Qed.

Example generated_name_can_clash :
  viewTransitionNames (js "card") [ []; js "item-1" ]
  = [ js "card-item-1"; js "card-item-1" ].
Proof. vm_compute. reflexivity. Qed.

(** ** [aria-describedby] *)

Lemma truthy_split_ws_trim s :
  List.filter truthy (split_ws (trim s)) = List.filter truthy (split_ws s).
Proof.
  destruct (trim_split s) as (a & b & Hs & Ha & Hb).
  rewrite Hs at 2. unfold split_ws.
  rewrite (truthy_split_ws_app_l false false a _ Ha).
  destruct (split_ws_app_r false (trim s) b Hb) as [k ->].
  by rewrite truthy_replicate_empty.
Qed.

Lemma split_ws_first_piece x w s :
  one_token x -> is_ws w = true ->
  forall f, split_ws_from f (x ++ w :: s) = x :: split_ws_from true s.
Proof.
  intros (Hne & Hx) Hw. induction x as [|c x IH]; [done|]. intros f.
  cbn [forallb] in Hx. apply andb_true_iff in Hx as [Hc Hx].
  apply negb_true_iff in Hc. cbn [app split_ws_from]. rewrite Hc.
  destruct x as [|d x].
  - cbn [app split_ws_from]. by rewrite Hw.
  - by rewrite IH.
Qed.

Lemma describedby_join tokens :
  Forall one_token tokens ->
  forall f, List.filter truthy (split_ws_from f (join_space tokens)) = tokens.
Proof.
  induction 1 as [|x l Hx Hl IH]; intros f; [done|].
  destruct l as [|y l].
  - cbn [join_space]. destruct Hx as (Hne & Hx).
    rewrite (split_ws_single f x Hx). cbn [List.filter].
    by destruct x.
  - change (join_space (x :: y :: l)) with (x ++ 32%N :: join_space (y :: l)).
    rewrite (split_ws_first_piece x 32%N _ Hx eq_refl).
    cbn [List.filter]. rewrite IH. destruct Hx as (Hne & _). by destruct x.
Qed.

Lemma describedby_tokens attribute : Forall one_token (describedby attribute).
Proof.
  unfold describedby. cbv zeta.
  generalize (match attribute with
              | Some a => if falsy a then [] else a
              | None => []
              end) as value.
  intros value. apply Forall_forall. intros t Ht%list_elem_of_In.
  apply filter_In in Ht as [Ht Htruthy]. split; [by destruct t|].
  pose proof (split_ws_pieces false (trim value)) as Hall.
  rewrite Forall_forall in Hall. by apply Hall, list_elem_of_In.
Qed.

Lemma describedby_of_join tokens :
  Forall one_token tokens -> describedby (Some (join_space tokens)) = tokens.
Proof.
  intros Hall. unfold describedby.
  assert ((if falsy (join_space tokens) then [] else join_space tokens)
          = join_space tokens) as -> by (by destruct (join_space tokens)).
  rewrite truthy_split_ws_trim. by apply describedby_join.
Qed.

Lemma linkStatus_tokens statusId attribute :
  one_token statusId ->
  describedby (linkStatus statusId attribute)
  = if bool_decide (statusId ∈ describedby attribute)
    then describedby attribute
    else describedby attribute ++ [statusId].
Proof.
  intros Hid. unfold linkStatus. case_bool_decide as Hin; [done|].
  apply describedby_of_join, Forall_app. split.
  - apply describedby_tokens.
  - by apply Forall_singleton.
Qed.

(** X20. Linking a control to the status line keeps the ids its
    [aria-describedby] attribute already lists, in their order, and
    adds the id of the status line at the end unless it is listed;
    linking again changes nothing. The id must be a single token. *)
Theorem linkStatus_adds_once statusId attribute :
  one_token statusId ->
  describedby (linkStatus statusId attribute)
  = (if bool_decide (statusId ∈ describedby attribute)
     then describedby attribute
     else describedby attribute ++ [statusId]) /\
  statusId ∈ describedby (linkStatus statusId attribute) /\
  linkStatus statusId (linkStatus statusId attribute)
  = linkStatus statusId attribute.
Proof.
  intros Hid. pose proof (linkStatus_tokens statusId attribute Hid) as Ht.
  assert (Hin : statusId ∈ describedby (linkStatus statusId attribute)).
  { rewrite Ht. case_bool_decide; [done|]. set_solver. }
  split_and!; [done..|].
  unfold linkStatus at 1. by rewrite bool_decide_eq_true_2.
Qed.

Lemma linkStatus_witness :
  one_token (js "gef-status") /\
  describedby (linkStatus (js "gef-status") (Some (js " hint  other ")))
  = [js "hint"; js "other"; js "gef-status"].
Proof.
  assert (Hid : one_token (js "gef-status")) by (split; by vm_compute).
  split; [done|].
  destruct (linkStatus_adds_once (js "gef-status")
              (Some (js " hint  other ")) Hid) as (-> & _).
  vm_compute. reflexivity.
Defined.

Example linkStatus_split_id :
  let attribute := linkStatus (js "my status") None in
  attribute = Some (js "my status") /\
  linkStatus (js "my status") attribute = Some (js "my status my status").
Proof. vm_compute. done. Qed.

(** ** [bindAll] *)

(** A pass turns no element into something else. *)
Lemma pass_keeps_elements this w o w' l :
  well_formed this (heap w) -> disciplined this ->
  filterElements this w = (o, w') ->
  is_element (heap w) l -> is_element (heap w') l.
Proof.
  intros Hwf Hd Hrun Hl.
  destruct (filterElements_cases this w _ w' Hwf Hd Hrun)
    as [(e & _ & _ & Hp)|[(e & w1 & _ & _ & _ & _ & _ & Hp)
       |(w1 & o' & _ & _ & _ & _ & _ & Hp)]].
  - by apply (preserved_is_element _ _ Hp).
  - apply (preserved_is_element _ _ Hp).
    by apply (same_core_is_element _ _ (same_core_aborted this w)).
  - apply (preserved_is_element _ _ Hp).
    by apply (same_core_is_element _ _ (same_core_settle this (heap w))).
Qed.

(** Binding one container that [bindAll] does not skip. *)
Lemma bindContainer_run c w :
  document_in_store (scope c) (heap w) -> bindable c = true ->
  exists c' w' evs,
    bindContainer c w = (Normal c', w') /\ bound_from c c' /\
    trace w' = trace w ++ evs /\ passes_started evs = 1 /\
    (forall l, is_element (heap w) l -> is_element (heap w') l).
Proof.
  intros Hdoc Hb. unfold bound_from. rewrite Hb.
  unfold bindable in Hb. unfold bindContainer.
  destruct (__genericElementFilter c); [done|].
  destruct (data_filterElements c) as [selector|] eqn:Esel; [|done].
  apply negb_true_iff in Hb. rewrite Hb.
  destruct (constructor_run (scope c) selector (bindOptions c) w Hdoc Hb)
    as (this0 & w0 & Hnew & Hwf0 & Htr & Hold & _ & _ & _ & _ & Hes & Hfs
        & Hnr & Hst & Hall & Hmm & Hbefore & Hafter).
  assert (Hd : disciplined this0) by (by apply no_hooks_disciplined).
  assert (Hn : never_throw this0).
  { split; intros hk args σ Hhk; [rewrite Hbefore in Hhk|rewrite Hafter in Hhk];
      done. }
  assert (Htot : matching_total this0 (heap w0))
    by (by apply equals_mode_total).
  destruct (pass_completes this0 w0 Hwf0 Hd Hn Htot) as [w' Hpass].
  destruct (filterElements_one_pass this0 w0 _ w' Hwf0 Hd Hpass)
    as (evs & Hevs & Hone).
  exists (setBound c this0), w', evs. split_and!; try done.
  - unfold bind at 1. rewrite Hnew. unfold bind. by rewrite Hpass.
  - exists this0. split_and!; try done.
    + by rewrite Hes.
    + rewrite Hst. cbn [opt_statusSelector bindOptions].
      destruct (data_filterStatus c) as [s|]; [|done].
      destruct (falsy s) eqn:E; [done|]. by rewrite E.
  - by rewrite <- Htr.
  - intros l Hl. apply (pass_keeps_elements this0 w0 _ w' l Hwf0 Hd Hpass).
    destruct Hl as [n Hl]. exists n. rewrite Hold; [done|]. by rewrite Hl.
Qed.

Lemma bindContainer_skip c w :
  bindable c = false -> bindContainer c w = (Normal c, w).
Proof.
  unfold bindable, bindContainer.
  destruct (__genericElementFilter c); [done|].
  destruct (data_filterElements c) as [selector|]; [|done].
  intros Hb%negb_false_iff. by rewrite Hb.
Qed.

(** X21. [bindAll] returns normally. It binds every container that is not
    bound yet and declares a selector that is not empty, and leaves the
    others as they are. Each new filter takes its elements selector,
    its status selector (none where the attribute is missing or
    empty), its no-results selector and its sentinel from the
    container's attributes, with the defaults where an attribute is
    missing or empty; its filters selector is [[name]]; it matches by
    equality and has no hooks; and each runs one pass. *)
Theorem bindAll_binds_each_container cs w :
  (forall c, c ∈ cs -> document_in_store (scope c) (heap w)) ->
  exists cs' w' evs,
    bindAll cs w = (Normal cs', w') /\
    Forall2 bound_from cs cs' /\
    trace w' = trace w ++ evs /\
    passes_started evs = length (List.filter bindable cs).
Proof.
  revert w. induction cs as [|c cs IH]; intros w Hdocs.
  - exists [], w, []. split_and!; try done. by rewrite app_nil_r.
  - assert (Hstep : exists c' w1 evs1,
              bindContainer c w = (Normal c', w1) /\ bound_from c c' /\
              trace w1 = trace w ++ evs1 /\
              passes_started evs1 = (if bindable c then 1 else 0) /\
              (forall l, is_element (heap w) l -> is_element (heap w1) l)).
    { destruct (bindable c) eqn:Hb.
      - destruct (bindContainer_run c w) as (c' & w1 & evs1 & H1 & H2 & H3 & H4 & H5);
          [apply Hdocs; set_solver|done|].
        exists c', w1, evs1. split_and!; try done.
      - exists c, w, []. split_and!; try done.
        + by apply bindContainer_skip.
        + unfold bound_from. by rewrite Hb.
        + by rewrite app_nil_r. }
    destruct Hstep as (c' & w1 & evs1 & Hc & Hbound & Htr1 & Hn1 & Hkeep).
    destruct (IH w1) as (cs' & w' & evs & Hcs & Hall & Htr & Hn).
    { intros d Hd sel l Hl. apply Hkeep. eapply Hdocs; [|exact Hl]. set_solver. }
    exists (c' :: cs'), w', (evs1 ++ evs). split_and!.
    + cbn [bindAll]. unfold bind at 1. rewrite Hc. unfold bind at 1.
      by rewrite Hcs.
    + by constructor.
    + by rewrite Htr, Htr1, app_assoc.
    + rewrite passes_started_app, Hn1, Hn. cbn [List.filter].
      by destruct (bindable c).
Qed.

Lemma containers_in_store c :
  c ∈ [Containers.cards; Containers.empty] ->
  document_in_store (scope c) (heap Sample.bare).
Proof.
  intros [->|[->|[]%elem_of_nil]%elem_of_cons]%elem_of_cons;
    apply sample_document_in_store.
Qed.

Lemma bindAll_binds_witness :
  (forall c, c ∈ [Containers.cards; Containers.empty] ->
     document_in_store (scope c) (heap Sample.bare)) /\
  exists cs' w' evs,
    bindAll [Containers.cards; Containers.empty] Sample.bare = (Normal cs', w')
    /\ Forall2 bound_from [Containers.cards; Containers.empty] cs' /\
    trace w' = trace Sample.bare ++ evs /\
    passes_started evs
    = length (List.filter bindable [Containers.cards; Containers.empty]).
Proof.
  split; [exact containers_in_store|].
  exact (bindAll_binds_each_container [Containers.cards; Containers.empty]
           Sample.bare containers_in_store).
Defined.

Lemma bindAll_skip cs w :
  Forall (fun c => bindable c = false) cs -> bindAll cs w = (Normal cs, w).
Proof.
  induction 1 as [|c cs Hc Hcs IH]; [done|].
  cbn [bindAll]. unfold bind at 1. rewrite (bindContainer_skip c w Hc).
  unfold bind at 1. by rewrite IH.
Qed.

Lemma bindContainer_not_bindable c w c' w' :
  bindContainer c w = (Normal c', w') -> bindable c' = false.
Proof.
  unfold bindContainer, bindable.
  destruct (__genericElementFilter c) eqn:Eb.
  { intros [= <- _]. by rewrite Eb. }
  destruct (data_filterElements c) as [selector|] eqn:Es.
  2:{ intros [= <- _]. by rewrite Eb, Es. }
  destruct (falsy selector) eqn:Ef.
  { intros [= <- _]. by rewrite Eb, Es, Ef. }
  unfold bind.
  destruct (constructor (scope c) (Some selector) (bindOptions c) w)
    as [[this|e] w1]; [|done].
  by intros [= <- _].
Qed.

Lemma bindAll_not_bindable cs :
  forall w cs' w',
    bindAll cs w = (Normal cs', w') ->
    Forall (fun c => bindable c = false) cs'.
Proof.
  induction cs as [|c cs IH]; intros w cs' w'.
  - by intros [= <- _].
  - cbn [bindAll]. unfold bind at 1.
    destruct (bindContainer c w) as [[c1|e] w1] eqn:Hc; [|done].
    unfold bind at 1.
    destruct (bindAll cs w1) as [[cs1|e] w2] eqn:Hcs; [|done].
    intros [= <- _]. constructor.
    + by apply (bindContainer_not_bindable c w c1 w1).
    + by apply (IH w1 cs1 w2).
Qed.

(** X22. Binding twice is harmless: a second [bindAll] over the
    containers the first one returned creates no filter, runs no pass
    and changes nothing. *)
Theorem bindAll_again_does_nothing cs w cs' w' :
  bindAll cs w = (Normal cs', w') ->
  bindAll cs' w' = (Normal cs', w').
Proof.
  intros Hrun. apply bindAll_skip.
  by apply (bindAll_not_bindable cs w cs' w').
Qed.

Lemma bindAll_again_witness :
  let cs := [Containers.cards; Containers.empty] in
  let run := bindAll cs Sample.bare in
  run = (Normal (Containers.returned run), run.2) /\
  bindAll (Containers.returned run) run.2
  = (Normal (Containers.returned run), run.2).
Proof.
  intros cs run.
  assert (Hrun : run = (Normal (Containers.returned run), run.2))
    by (vm_compute; reflexivity).
  split; [exact Hrun|].
  exact (bindAll_again_does_nothing cs Sample.bare _ _ Hrun).
Defined.
